(** * BerryDB free page list: a shallow embedding of [src/free_page_list.cc]

    The free page list keeps the ids of released pages inside list pages
    that live in the same page space.  This development embeds the three
    operations of [FreePageList] ([Pop], [Push], [Merge]) over an explicit
    page pool state and proves the properties stated about them. *)

From Stdlib Require Import ZArith Lia Bool.
From Stdlib Require Import Init.Byte Strings.Byte.
From Stdlib Require Import Sorting.Permutation.
From stdpp Require Import base option list gmap.

Local Open Scope Z_scope.

(** ** Bytes and spans *)

Module Span.

Definition Z_of_byte (b : byte) : Z := Z.of_N (Byte.to_N b).

Definition byte_of_Z (z : Z) : byte :=
  match Byte.of_N (Z.to_N (z mod 256)) with
  | Some b => b
  | None => x00
  end.

(** [span::size()] *)
Definition size (data : list byte) : Z := Z.of_nat (length data).

(** [span::subspan(offset, count)]: only defined inside the viewed range. *)
Definition subspan (data : list byte) (offset count : Z) : option (list byte) :=
  if (0 <=? offset) && (0 <=? count) && (offset + count <=? size data)
  then Some (take (Z.to_nat count) (drop (Z.to_nat offset) data))
  else None.

(** Writing [bytes] through the mutable view [subspan(offset, |bytes|)]. *)
Definition overwrite (data : list byte) (offset : Z) (bytes : list byte)
  : option (list byte) :=
  if (0 <=? offset) && (offset + size bytes <=? size data)
  then Some (take (Z.to_nat offset) data ++ bytes
               ++ drop (Z.to_nat offset + length bytes) data)
  else None.

Fixpoint decode (bytes : list byte) : Z :=
  match bytes with
  | [] => 0
  | b :: rest => Z_of_byte b + 256 * decode rest
  end.

Fixpoint encode (n : nat) (v : Z) : list byte :=
  match n with
  | O => []
  | S k => byte_of_Z v :: encode k (v / 256)
  end.

(** Modelled from the spec: [util/span_util.h] is not among the sources;
    the spec names fixed-width integer encode/decode and byte-range copy
    primitives.  [LoadUint64] reads an 8-byte view as an unsigned 64-bit
    integer (little-endian here), [StoreUint64] writes one. *)
Definition LoadUint64 (from : option (list byte)) : option Z :=
  match from with
  | Some bytes => if length bytes =? 8 then Some (decode bytes) else None
  | None => None
  end%nat.

Definition StoreUint64 (value : Z) (data : list byte) (offset : Z)
  : option (list byte) :=
  overwrite data offset (encode 8 value).

(** Modelled from the spec: [CopySpan(from, to)] copies the bytes of the
    view [from] over the equally long view [to] starting at [offset]. *)
Definition CopySpan (from : option (list byte)) (data : list byte) (offset : Z)
  : option (list byte) :=
  match from with
  | Some bytes => overwrite data offset bytes
  | None => None
  end.

End Span.

(** ** The list page format *)

Module FreePageListFormat.
Import Span.

(** Modelled from the spec: [free_page_list_format.h] is not among the
    sources.  The layout table gives an 8-byte [next_page_id], a
    fixed-width [next_entry_offset], 8-byte entries, and a header of
    [kFirstEntryOffset] bytes (16 in the worked scenario). *)
Definition kEntrySize : Z := 8.
Definition kNextPageIdOffset : Z := 0.
Definition kNextEntryOffsetOffset : Z := 8.
Definition kFirstEntryOffset : Z := 16.

Definition NextPageId64 (page_data : list byte) : option Z :=
  LoadUint64 (subspan page_data kNextPageIdOffset 8).

Definition SetNextPageId64 (next_page_id64 : Z) (page_data : list byte)
  : option (list byte) :=
  StoreUint64 next_page_id64 page_data kNextPageIdOffset.

(** The stored offset, narrowed to the native [size_t] of [bits] bits. *)
Definition NextEntryOffset (bits : Z) (page_data : list byte) : option Z :=
  match LoadUint64 (subspan page_data kNextEntryOffsetOffset 8) with
  | Some v => Some (v mod 2 ^ bits)
  | None => None
  end.

Definition SetNextEntryOffset (next_entry_offset : Z) (page_data : list byte)
  : option (list byte) :=
  StoreUint64 next_entry_offset page_data kNextEntryOffsetOffset.

(** Modelled from the spec: true unless [offset] lies in
    [[kFirstEntryOffset, page_size]] and [offset - kFirstEntryOffset] is a
    non-negative multiple of the entry size. *)
Definition IsCorruptEntryOffset (offset page_size : Z) : bool :=
  negb ((kFirstEntryOffset <=? offset) && (offset <=? page_size)
        && ((offset - kFirstEntryOffset) mod kEntrySize =? 0)).

End FreePageListFormat.

(** ** Statuses, the page pool and the transaction's write notices *)

(** Modelled from the spec: [berrydb/status.h] is not among the sources; the
    spec names page-access failures (I/O error, pool exhaustion), data
    corruption and database-too-large. *)
Inductive Status : Set :=
| kSuccess
| kIoError
| kPoolFull
| kDatabaseTooLarge
| kDataCorrupted.

#[global] Instance Status_eq_dec : EqDecision Status.
Proof. solve_decision. Defined.

Inductive FetchMode : Set := kFetchPageData | kIgnorePageData.

(** What the pool can hand out for a page id: a pinned buffer, or the
    failure it reports instead.  A page id without a slot cannot be read
    ([kIoError]). *)
Inductive Slot : Type :=
| Resident (data : list byte)
| Unavailable (status : Status).

(** The pool state threaded through every operation: the page buffers, and
    the record of fetches and of [WillModifyPage] notices (newest first). *)
Record PagePool : Type := {
  page_shift : Z;
  slots : gmap Z Slot;
  fetches : list (Z * FetchMode);
  notices : list Z
}.

Definition page_size (pool : PagePool) : Z := 2 ^ page_shift pool.

(** Operations run in a state monad over the pool; [None] stands for
    undefined behaviour (a failed CHECK or ASSUME, a view outside its
    buffer, a null page).  The [transaction] argument of the source is
    implicit: its one use, [WillModifyPage], is recorded in [notices]. *)
Definition Op (A : Type) : Type := PagePool → option (A * PagePool).

#[global] Instance Op_ret : MRet Op := λ A a pool, Some (a, pool).

#[global] Instance Op_bind : MBind Op := λ A B f m pool,
  match m pool with
  | Some (a, pool') => f a pool'
  | None => None
  end.

Definition undefined {A} : Op A := λ _, None.

Definition require (b : bool) : Op unit :=
  if b then mret tt else undefined.

(** A value obtained through a view; [None] is an access outside the span. *)
Definition view {A} (o : option A) : Op A :=
  match o with
  | Some a => mret a
  | None => undefined
  end.

Definition get_page_size : Op Z := λ pool, Some (page_size pool, pool).

Definition note_fetch (page_id : Z) (mode : FetchMode) (pool : PagePool)
  : PagePool :=
  {| page_shift := page_shift pool; slots := slots pool;
     fetches := (page_id, mode) :: fetches pool; notices := notices pool |}.

Definition note_modify (page : Z) (pool : PagePool) : PagePool :=
  {| page_shift := page_shift pool; slots := slots pool;
     fetches := fetches pool; notices := page :: notices pool |}.

Definition put_data (page : Z) (bytes : list byte) (pool : PagePool)
  : PagePool :=
  {| page_shift := page_shift pool;
     slots := <[page := Resident bytes]> (slots pool);
     fetches := fetches pool; notices := notices pool |}.

(** [PagePool::StorePage]: the status and the raw page (null on failure). *)
Definition StorePage (page_id : Z) (mode : FetchMode) : Op (Status * option Z) :=
  λ pool,
    match slots pool !! page_id with
    | Some (Resident _) => Some ((kSuccess, Some page_id), note_fetch page_id mode pool)
    | Some (Unavailable status) => Some ((status, None), note_fetch page_id mode pool)
    | None => Some ((kIoError, None), note_fetch page_id mode pool)
    end.

(** [PinnedPage(raw_page, page_pool)] over a non-null page. *)
Definition PinnedPage (raw_page : option Z) : Op Z := view raw_page.

(** [PinnedPage::data()]: the live bytes of the pinned buffer. *)
Definition data (page : Z) : Op (list byte) := λ pool,
  match slots pool !! page with
  | Some (Resident bytes) => Some (bytes, pool)
  | _ => None
  end.

Definition set_data (page : Z) (bytes : list byte) : Op unit := λ pool,
  Some (tt, put_data page bytes pool).

(** A read through the read-only span of a pinned page. *)
Definition read {A} (page : Z) (f : list byte → option A) : Op A :=
  bytes ← data page; view (f bytes).

(** A write through [PinnedPage::mutable_data()]. *)
Definition mutate (page : Z) (f : list byte → option (list byte)) : Op unit :=
  bytes ← data page; bytes' ← view (f bytes); set_data page bytes'.

(** [TransactionImpl::WillModifyPage] *)
Definition WillModifyPage (page : Z) : Op unit := λ pool,
  Some (tt, note_modify page pool).

(** ** The list handle *)

Inductive Arch : Set := Arch32 | Arch64.

Record Build : Set := { arch : Arch; check_is_on : bool }.

Record FreePageList : Set := {
  head_page_id_ : Z;
  tail_page_id_ : Z;
  tail_page_is_defined_ : bool;
  was_merged_ : bool
}.

Definition set_head_page_id (l : FreePageList) (id : Z) : FreePageList :=
  {| head_page_id_ := id; tail_page_id_ := tail_page_id_ l;
     tail_page_is_defined_ := tail_page_is_defined_ l;
     was_merged_ := was_merged_ l |}.

Definition set_tail_page_id (l : FreePageList) (id : Z) : FreePageList :=
  {| head_page_id_ := head_page_id_ l; tail_page_id_ := id;
     tail_page_is_defined_ := tail_page_is_defined_ l;
     was_merged_ := was_merged_ l |}.

Definition set_was_merged (l : FreePageList) (b : bool) : FreePageList :=
  {| head_page_id_ := head_page_id_ l; tail_page_id_ := tail_page_id_ l;
     tail_page_is_defined_ := tail_page_is_defined_ l;
     was_merged_ := b |}.

Section Operations.
Import Span FreePageListFormat.

Variable build : Build.

(** Width of the native [size_t]. *)
Definition size_bits : Z :=
  match arch build with Arch32 => 32 | Arch64 => 64 end.

(** [static_cast<size_t>] and unsigned [size_t] arithmetic wrap around. *)
Definition to_size_t (v : Z) : Z := v mod 2 ^ size_bits.

(** Modelled from the spec: [free_page_list.h] is not among the sources;
    the sentinel is the maximum representable id. *)
Definition kInvalidPageId : Z := 2 ^ size_bits - 1.

Definition is_empty (l : FreePageList) : bool :=
  head_page_id_ l =? kInvalidPageId.

(** [BERRYDB_CHECK]: aborts when checks are compiled in. *)
Definition CHECK (b : bool) : Op unit :=
  if check_is_on build then require b else mret tt.

(** [BERRYDB_ASSUME]: the compiler may rely on it in every build. *)
Definition ASSUME (b : bool) : Op unit := require b.

Definition failed (status : Status) : bool :=
  negb (bool_decide (status = kSuccess)).

(** [Pop], [Push] and [Merge] take the handle [l] ([this]) and return it
    as the call leaves it, next to the source's return value. *)
Definition Pop (l : FreePageList) : Op (Status * Z * FreePageList) :=
  CHECK (negb (was_merged_ l));;
  if is_empty l then mret (kSuccess, kInvalidPageId, l) else
  '(status, raw_head_page) ← StorePage (head_page_id_ l) kFetchPageData;
  if failed status then mret (status, kInvalidPageId, l) else
  head_page ← PinnedPage raw_head_page;
  next_entry_offset ← read head_page (NextEntryOffset size_bits);
  if next_entry_offset =? kFirstEntryOffset then
    new_head_page_id64 ← read head_page NextPageId64;
    let new_head_page_id := to_size_t new_head_page_id64 in
    if negb (new_head_page_id =? new_head_page_id64)
    then mret (kDatabaseTooLarge, kInvalidPageId, l) else
    let free_page_id := head_page_id_ l in
    let l := set_head_page_id l new_head_page_id in
    let l := if new_head_page_id =? kInvalidPageId
             then set_tail_page_id l kInvalidPageId else l in
    mret (kSuccess, free_page_id, l)
  else
    let next_entry_offset := to_size_t (next_entry_offset - kEntrySize) in
    page_size ← get_page_size;
    if IsCorruptEntryOffset next_entry_offset page_size
    then mret (kDataCorrupted, kInvalidPageId, l) else
    free_page_id64 ←
      read head_page (λ d, LoadUint64 (subspan d next_entry_offset 8));
    let free_page_id := to_size_t free_page_id64 in
    if negb (free_page_id =? free_page_id64)
    then mret (kDatabaseTooLarge, kInvalidPageId, l) else
    WillModifyPage head_page;;
    mutate head_page (SetNextEntryOffset next_entry_offset);;
    mret (kSuccess, free_page_id, l).

(** The tail of [Push]: the pushed page becomes the new head page. *)
Definition Push_new_head (l : FreePageList) (page_id : Z)
  : Op (Status * FreePageList) :=
  '(status, raw_head_page) ← StorePage page_id kIgnorePageData;
  if failed status then mret (status, l) else
  head_page ← PinnedPage raw_head_page;
  WillModifyPage head_page;;
  mutate head_page (SetNextEntryOffset kFirstEntryOffset);;
  mutate head_page (SetNextPageId64 (head_page_id_ l));;
  let old_head_page_id := head_page_id_ l in
  let l := if old_head_page_id =? kInvalidPageId
           then set_tail_page_id l page_id else l in
  let l := set_head_page_id l page_id in
  mret (kSuccess, l).

Definition Push (l : FreePageList) (page_id : Z) : Op (Status * FreePageList) :=
  ASSUME (negb (page_id =? kInvalidPageId));;
  CHECK (negb (was_merged_ l));;
  if negb (head_page_id_ l =? kInvalidPageId) then
    '(status, raw_head_page) ← StorePage (head_page_id_ l) kFetchPageData;
    if failed status then mret (status, l) else
    head_page ← PinnedPage raw_head_page;
    next_entry_offset ← read head_page (NextEntryOffset size_bits);
    page_size ← get_page_size;
    if next_entry_offset <? page_size then
      if IsCorruptEntryOffset next_entry_offset page_size
      then mret (kDataCorrupted, l) else
      WillModifyPage head_page;;
      mutate head_page (λ d, StoreUint64 page_id d next_entry_offset);;
      let next_entry_offset := to_size_t (next_entry_offset + kEntrySize) in
      mutate head_page (SetNextEntryOffset next_entry_offset);;
      mret (kSuccess, l)
    else Push_new_head l page_id
  else Push_new_head l page_id.


(** Step 2 of [Merge] (from "Step 2" to the end of the source function):
    the two head pages.  [full_chain_head_id64] is the chain head computed
    by step 1; the source never reads it again. *)
Definition Merge_head_pages (l other : FreePageList)
    (head_page other_head_page other_head_page_id full_chain_head_id64 : Z)
  : Op (Status * FreePageList * FreePageList) :=
  page_size ← get_page_size;
  next_entry_offset ← read head_page (NextEntryOffset size_bits);
  other_next_entry_offset ← read other_head_page (NextEntryOffset size_bits);
  if IsCorruptEntryOffset next_entry_offset page_size
     || IsCorruptEntryOffset other_next_entry_offset page_size
  then mret (kDataCorrupted, l, other) else
  WillModifyPage head_page;;
  let needed_space_minus_one_entry :=
    to_size_t (other_next_entry_offset - kFirstEntryOffset) in
  next_entry_offset ←
    (if to_size_t (next_entry_offset + needed_space_minus_one_entry) <? page_size
     then
       ASSUME (to_size_t (next_entry_offset + needed_space_minus_one_entry
                          + kEntrySize) <=? page_size);;
       mutate head_page
         (λ d, StoreUint64 other_head_page_id d next_entry_offset);;
       let next_entry_offset := to_size_t (next_entry_offset + kEntrySize) in
       other_head_page_readonly_data ← data other_head_page;
       mutate head_page
         (λ d, CopySpan (subspan other_head_page_readonly_data
                           kFirstEntryOffset needed_space_minus_one_entry)
                 d next_entry_offset);;
       mret (to_size_t (next_entry_offset + needed_space_minus_one_entry))
     else
       WillModifyPage other_head_page;;
       ASSUME (other_next_entry_offset <=? page_size);;
       let empty_space := to_size_t (page_size - other_next_entry_offset) in
       ASSUME (empty_space <=? next_entry_offset);;
       let new_next_entry_offset :=
         to_size_t (next_entry_offset - empty_space) in
       head_page_data ← data head_page;
       mutate other_head_page
         (λ d, CopySpan (subspan head_page_data
                           new_next_entry_offset empty_space)
                 d other_next_entry_offset);;
       mutate other_head_page (SetNextEntryOffset page_size);;
       mutate head_page (SetNextPageId64 other_head_page_id);;
       mret new_next_entry_offset);
  mutate head_page (SetNextEntryOffset next_entry_offset);;
  mret (kSuccess, l, other).

(** [this->Merge(transaction, other)], for two distinct handles; the
    result carries both handles as the call leaves them. *)
Definition Merge (l other : FreePageList)
  : Op (Status * FreePageList * FreePageList) :=
  CHECK (negb (was_merged_ l));;
  CHECK (negb (was_merged_ other));;
  CHECK (tail_page_is_defined_ other);;
  let other := if check_is_on build then set_was_merged other true
               else other in
  if is_empty other then mret (kSuccess, l, other) else
  '(status, raw_head_page) ← StorePage (head_page_id_ l) kFetchPageData;
  if failed status then mret (status, l, other) else
  head_page ← PinnedPage raw_head_page;
  let other_head_page_id := head_page_id_ other in
  '(status, raw_other_head_page) ←
    StorePage other_head_page_id kFetchPageData;
  if failed status then mret (status, l, other) else
  other_head_page ← PinnedPage raw_other_head_page;
  (* Step 1: chain the full pages. *)
  full_chain_head_id64 ← read head_page NextPageId64;
  let other_tail_page_id := tail_page_id_ other in
  if negb (other_tail_page_id =? head_page_id_ other) then
    '(status, raw_other_tail_page) ←
      StorePage other_tail_page_id kFetchPageData;
    if failed status then mret (status, l, other) else
    other_tail_page ← PinnedPage raw_other_tail_page;
    WillModifyPage other_tail_page;;
    mutate other_tail_page (SetNextPageId64 full_chain_head_id64);;
    full_chain_head_id64 ← read other_head_page NextPageId64;
    Merge_head_pages l other head_page other_head_page other_head_page_id
      full_chain_head_id64
  else
    Merge_head_pages l other head_page other_head_page other_head_page_id
      full_chain_head_id64.

(** Popping until the list reports that it is empty; the ids in the order
    they come out.  [fuel] bounds the number of pops. *)
Fixpoint drain (fuel : nat) (l : FreePageList) : Op (Status * list Z) :=
  match fuel with
  | O => undefined
  | S fuel =>
      '(status, page_id, l) ← Pop l;
      if failed status then mret (status, [])
      else if page_id =? kInvalidPageId then mret (kSuccess, [])
      else '(status, ids) ← drain fuel l; mret (status, page_id :: ids)
  end.

End Operations.

(** ** Well-formed pools and concrete instances *)

(** A pool whose page size fits the native width and whose buffers all have
    exactly [page_size] bytes. *)
Definition pool_ok (build : Build) (pool : PagePool) : Prop :=
  4 ≤ page_shift pool < size_bits build
  ∧ ∀ id d, slots pool !! id = Some (Resident d) → Span.size d = page_size pool.

(** A page id proper: a [size_t] other than the sentinel. *)
Definition valid_page_id (build : Build) (page_id : Z) : Prop :=
  0 ≤ page_id < kInvalidPageId build.

(** The status [StorePage] reports for a page id, whatever the mode. *)
Definition fetch_status (pool : PagePool) (page_id : Z) : Status :=
  match slots pool !! page_id with
  | Some (Resident _) => kSuccess
  | Some (Unavailable status) => status
  | None => kIoError
  end.

Module Examples.
Import Span FreePageListFormat.

Definition debug64 : Build := {| arch := Arch64; check_is_on := true |}.
Definition release32 : Build := {| arch := Arch32; check_is_on := false |}.

(** A list page image: header fields followed by the entry area. *)
Definition page_image (next_page_id next_entry_offset : Z)
    (entries : list byte) : list byte :=
  encode 8 next_page_id ++ encode 8 next_entry_offset ++ entries.

Definition blank_page : list byte := replicate 64 x00.

(** 64-byte pages: a 16-byte header and room for six entries. *)
Definition pool_of (pages : list (Z * Slot)) : PagePool :=
  {| page_shift := 6; slots := list_to_map pages;
     fetches := []; notices := [] |}.

Definition all_pages_sized (pages : list (Z * Slot)) : bool :=
  forallb (λ entry, match entry.2 with
                    | Resident d => Span.size d =? 64
                    | Unavailable _ => true
                    end) pages.

Definition blank_pool : PagePool :=
  pool_of (map (λ id, (id, Resident blank_page)) (seqZ 1 20)).

(** A freshly constructed list. *)
Definition new_list (build : Build) (tail_tracked : bool) : FreePageList :=
  {| head_page_id_ := kInvalidPageId build;
     tail_page_id_ := kInvalidPageId build;
     tail_page_is_defined_ := tail_tracked;
     was_merged_ := false |}.

Fixpoint push_all (build : Build) (l : FreePageList) (ids : list Z)
  : Op FreePageList :=
  match ids with
  | [] => mret l
  | page_id :: ids =>
      '(status, l) ← Push build l page_id;
      if failed status then undefined else push_all build l ids
  end.

(** The ids a list would yield if drained now; the pool is left as it is. *)
Definition contents (build : Build) (l : FreePageList) : Op (list Z) :=
  λ pool,
    match drain build 64 l pool with
    | Some ((kSuccess, ids), _) => Some (ids, pool)
    | _ => None
    end.

(** A one-page list holding nothing but its head page. *)
Definition single (build : Build) (page_id : Z) (tracked : bool) : FreePageList :=
  {| head_page_id_ := page_id; tail_page_id_ := page_id;
     tail_page_is_defined_ := tracked; was_merged_ := false |}.

(** Page 1 is a list head whose stored offset is the given one. *)
Definition pool_with_offset (next_entry_offset : Z) : PagePool :=
  pool_of [(1, Resident (page_image (2 ^ 64 - 1) next_entry_offset
                           (replicate 48 x00)));
           (2, Resident blank_page)].

(** Two one-page lists: page 1 holds no entry, page 2 holds the entry 7. *)
Definition two_heads_pool : PagePool :=
  pool_of [(1, Resident (page_image (2 ^ 64 - 1) 16 (replicate 48 x00)));
           (2, Resident (page_image (2 ^ 64 - 1) 24
                           (encode 8 7 ++ replicate 40 x00)))].

(** A 32-bit store whose head page 1 is out of entries and names a
    successor beyond the 32-bit range. *)
Definition wide_successor_pool : PagePool :=
  pool_of [(1, Resident (page_image (2 ^ 32) 16 (replicate 48 x00)))].

(** Merge scenario A: [this] is the single page 1; [other] has the head
    page 17 and the full page 10 behind it. *)
Definition scenario_A : Op (FreePageList * FreePageList) :=
  other ← push_all debug64 (new_list debug64 true) [10; 11; 12; 13; 14; 15; 16; 17];
  this ← push_all debug64 (new_list debug64 false) [1];
  mret (this, other).

(** Merge scenario B: [this] has the head page 8 (four entries) and the
    full page 1 behind it; [other] is the single page 10 (two entries). *)
Definition scenario_B : Op (FreePageList * FreePageList) :=
  other ← push_all debug64 (new_list debug64 true) [10; 11; 12];
  this ← push_all debug64 (new_list debug64 false)
           [1; 2; 3; 4; 5; 6; 7; 8; 9; 13; 14; 15];
  mret (this, other).

(** Merge scenario C: both lists are single pages and everything fits. *)
Definition scenario_C : Op (FreePageList * FreePageList) :=
  other ← push_all debug64 (new_list debug64 true) [10; 11; 12];
  this ← push_all debug64 (new_list debug64 false) [1; 2; 3];
  mret (this, other).

(** What a scenario yields: the ids of both lists before the merge, the
    merge status, and the ids of [this] after it. *)
Definition merge_report (scenario : Op (FreePageList * FreePageList))
  : option (list Z * list Z * Status * list Z) :=
  match
    ('(this, other) ← scenario;
     before_this ← contents debug64 this;
     before_other ← contents debug64 other;
     '(status, this, _) ← Merge debug64 this other;
     after ← contents debug64 this;
     mret (before_this, before_other, status, after)) blank_pool
  with
  | Some (report, _) => Some report
  | None => None
  end.

(** The header fields of a page: successor and stored offset. *)
Definition header (pool : PagePool) (page : Z) : option (Z * Z) :=
  match slots pool !! page with
  | Some (Resident d) =>
      match NextPageId64 d, NextEntryOffset 64 d with
      | Some next, Some offset => Some (next, offset)
      | _, _ => None
      end
  | _ => None
  end.

(** The lists of a scenario and the headers of three pages after the
    merge. *)
Definition merge_trace (scenario : Op (FreePageList * FreePageList))
    (a b c : Z)
  : option (FreePageList * FreePageList
            * (option (Z * Z) * option (Z * Z) * option (Z * Z))) :=
  match
    ('(this, other) ← scenario;
     Merge debug64 this other;;
     mret (this, other)) blank_pool
  with
  | Some (this, other, pool) =>
      Some (this, other, (header pool a, header pool b, header pool c))
  | None => None
  end.

End Examples.

(** ** What an operation may leave behind in the pool *)

(** [pool'] comes from [pool] by fetching [fetched] (newest first) and by
    notifying [notified] (newest first); the geometry is the same, and only
    buffers of notified pages differ. *)
Definition touched (fetched : list (Z * FetchMode)) (notified : list Z)
    (pool pool' : PagePool) : Prop :=
  page_shift pool' = page_shift pool
  ∧ fetches pool' = fetched ++ fetches pool
  ∧ notices pool' = notified ++ notices pool
  ∧ ∀ page, page ∉ notified → slots pool' !! page = slots pool !! page.

(** Failure statuses are not [kSuccess]. *)
Definition sound_failures (pool : PagePool) : Prop :=
  ∀ id, slots pool !! id ≠ Some (Unavailable kSuccess).

(** The pool can hand out a buffer for [page]. *)
Definition resident (pool : PagePool) (page : Z) : Prop :=
  ∃ d, slots pool !! page = Some (Resident d).

(** ** What a list holds *)

Section Representation.
Import Span FreePageListFormat.
Variable build : Build.
Variable pool : PagePool.

(** The offset of the entry number [i] of a list page. *)
Definition entry_offset (i : nat) : Z :=
  kFirstEntryOffset + kEntrySize * Z.of_nat i.

(** The page image [d] stores the ids [es], oldest first, from
    [kFirstEntryOffset] on. *)
Definition holds_entries (d : list byte) (es : list Z) : Prop :=
  ∀ i v, es !! i = Some v →
         LoadUint64 (subspan d (entry_offset i) 8) = Some v.

(** [page] is a list page of the pool: its stored offset lies just behind
    the entries [es], all of them page ids proper, and its successor is
    [next]. *)
Definition list_page (page : Z) (es : list Z) (next : Z) : Prop :=
  ∃ d, slots pool !! page = Some (Resident d)
       ∧ size d = page_size pool
       ∧ NextEntryOffset (size_bits build) d = Some (entry_offset (length es))
       ∧ entry_offset (length es) ≤ page_size pool
       ∧ NextPageId64 d = Some next
       ∧ holds_entries d es
       ∧ Forall (valid_page_id build) es.

(** [chain full head pages ids]: starting at [head], the distinct list
    pages [pages] are linked up to the sentinel and yield [ids] in the
    order [Pop] hands them out -- the entries of a page newest first,
    then the page itself.  With [full] set, the first page must be full;
    every page behind the first always is. *)
Inductive chain : bool → Z → list Z → list Z → Prop :=
| chain_end full : chain full (kInvalidPageId build) [] []
| chain_page full page es next pages ids :
    valid_page_id build page →
    list_page page es next →
    (full = true → entry_offset (length es) = page_size pool) →
    page ∉ pages →
    chain true next pages ids →
    chain full page (page :: pages) (rev es ++ page :: ids).

End Representation.

(** The handle's [tail_page_id_] names the last page of the chain. *)
Definition tail_tracked (build : Build) (l : FreePageList) (pages : list Z)
  : Prop :=
  tail_page_id_ l = default (kInvalidPageId build) (last pages).

(** The source list as [Merge] returns it: marked as merged away when
    checks are compiled in. *)
Definition marked (build : Build) (other : FreePageList) : FreePageList :=
  if check_is_on build then set_was_merged other true else other.

Module MergeExamples.
Import Span FreePageListFormat Examples.

(** The image of a 64-byte list page that holds [es], oldest first. *)
Definition list_page_image (next : Z) (es : list Z) : list byte :=
  page_image next (kFirstEntryOffset + kEntrySize * Z.of_nat (length es))
    (flat_map (encode 8) es ++ replicate (48 - 8 * length es) x00).

(** Two lists.  One is the single page 1 with the entry 5; the other has
    the head page 2 with five entries and the full page 3 behind it. *)
Definition linked_pool : PagePool :=
  pool_of [(1, Resident (list_page_image (2 ^ 64 - 1) [5]));
           (2, Resident (list_page_image 3 [6; 7; 8; 9; 10]));
           (3, Resident (list_page_image (2 ^ 64 - 1)
                           [11; 12; 13; 14; 15; 16]))].

Definition linked_other : FreePageList :=
  {| head_page_id_ := 2; tail_page_id_ := 3;
     tail_page_is_defined_ := true; was_merged_ := false |}.

End MergeExamples.

(** * Facts about bytes and spans *)

Module SpanFacts.
Import Span.

Lemma Z_of_byte_range (b : byte) : 0 ≤ Z_of_byte b < 256.
Proof.
  unfold Z_of_byte. pose proof (Byte.to_N_bounded b). lia.
Qed.

Lemma Z_of_byte_of_Z (z : Z) : Z_of_byte (byte_of_Z z) = z mod 256.
Proof.
  unfold Z_of_byte, byte_of_Z.
  pose proof (Z.mod_pos_bound z 256 ltac:(lia)) as Hr.
  destruct (Byte.of_N (Z.to_N (z mod 256))) as [b|] eqn:E.
  - apply Byte.to_of_N in E. rewrite E. lia.
  - apply Byte.of_N_None_iff in E. lia.
Qed.

Lemma length_encode (n : nat) (v : Z) : length (encode n v) = n.
Proof. revert v. induction n as [|n IH]; intros v; simpl; [done|]. by rewrite IH. Qed.

Lemma decode_range (bytes : list byte) :
  0 ≤ decode bytes < 256 ^ Z.of_nat (length bytes).
Proof.
  induction bytes as [|b bytes IH]; simpl decode; simpl length.
  - simpl. lia.
  - pose proof (Z_of_byte_range b).
    rewrite Nat2Z.inj_succ, Z.pow_succ_r by lia. lia.
Qed.

Lemma decode_encode (n : nat) (v : Z) :
  decode (encode n v) = v mod 256 ^ Z.of_nat n.
Proof.
  revert v. induction n as [|n IH]; intros v.
  - simpl. by rewrite Z.mod_1_r.
  - cbn [encode decode]. rewrite Z_of_byte_of_Z, IH.
    rewrite Nat2Z.inj_succ, Z.pow_succ_r by lia.
    rewrite Z.rem_mul_r; [done | lia |].
    apply Z.pow_pos_nonneg; lia.
Qed.

Lemma size_nonneg (d : list byte) : 0 ≤ size d.
Proof. unfold size. lia. Qed.

Lemma subspan_Some (d : list byte) (offset count : Z) :
  0 ≤ offset → 0 ≤ count → offset + count ≤ size d →
  subspan d offset count
  = Some (take (Z.to_nat count) (drop (Z.to_nat offset) d)).
Proof.
  intros Ho Hc Hs. unfold subspan.
  rewrite !andb_true_intro; [done|].
  repeat split; try apply andb_true_intro; repeat split; lia.
Qed.

Lemma subspan_inv (d s : list byte) (offset count : Z) :
  subspan d offset count = Some s →
  0 ≤ offset ∧ 0 ≤ count ∧ offset + count ≤ size d
  ∧ s = take (Z.to_nat count) (drop (Z.to_nat offset) d).
Proof.
  unfold subspan. intros H.
  destruct (0 <=? offset) eqn:E1; [|done].
  destruct (0 <=? count) eqn:E2; [|done].
  destruct (offset + count <=? size d) eqn:E3; [|done].
  simpl in H. inversion H. repeat split; lia.
Qed.

Lemma subspan_None (d : list byte) (offset count : Z) :
  size d < offset + count → subspan d offset count = None.
Proof.
  intros H. unfold subspan.
  destruct (offset + count <=? size d) eqn:E; [lia|].
  by rewrite andb_false_r.
Qed.

Lemma length_subspan (d s : list byte) (offset count : Z) :
  subspan d offset count = Some s → length s = Z.to_nat count.
Proof.
  intros (Ho & Hc & Hs & ->)%subspan_inv. unfold size in Hs.
  rewrite length_take, length_drop. lia.
Qed.

Lemma overwrite_Some (d bytes : list byte) (offset : Z) :
  0 ≤ offset → offset + size bytes ≤ size d →
  overwrite d offset bytes
  = Some (take (Z.to_nat offset) d ++ bytes
            ++ drop (Z.to_nat offset + length bytes) d).
Proof.
  intros Ho Hs. unfold overwrite.
  rewrite andb_true_intro; [done|]. split; lia.
Qed.

Lemma overwrite_inv (d d' bytes : list byte) (offset : Z) :
  overwrite d offset bytes = Some d' →
  0 ≤ offset ∧ offset + size bytes ≤ size d
  ∧ d' = take (Z.to_nat offset) d ++ bytes
           ++ drop (Z.to_nat offset + length bytes) d.
Proof.
  unfold overwrite. intros H.
  destruct (0 <=? offset) eqn:E1; [|done].
  destruct (offset + size bytes <=? size d) eqn:E2; [|done].
  simpl in H. inversion H. repeat split; lia.
Qed.

Lemma size_overwrite (d d' bytes : list byte) (offset : Z) :
  overwrite d offset bytes = Some d' → size d' = size d.
Proof.
  intros (Ho & Hs & ->)%overwrite_inv. unfold size in *.
  rewrite !length_app, length_take, length_drop. lia.
Qed.

Lemma lookup_overwrite (d d' bytes : list byte) (offset : Z) (i : nat) :
  overwrite d offset bytes = Some d' →
  d' !! i = if decide (Z.to_nat offset ≤ i < Z.to_nat offset + length bytes)%nat
            then bytes !! (i - Z.to_nat offset)%nat else d !! i.
Proof.
  intros (Ho & Hs & ->)%overwrite_inv. unfold size in Hs.
  assert (length (take (Z.to_nat offset) d) = Z.to_nat offset) as Hlen
    by (rewrite length_take; lia).
  case_decide as Hi.
  - rewrite lookup_app_r by lia. rewrite Hlen.
    rewrite lookup_app_l by lia. done.
  - destruct (decide (i < Z.to_nat offset)%nat).
    + rewrite lookup_app_l by lia. by rewrite lookup_take_lt by lia.
    + rewrite lookup_app_r by lia. rewrite Hlen.
      rewrite lookup_app_r by lia. rewrite lookup_drop. f_equal. lia.
Qed.

(** Reading back exactly the range that was written. *)
Lemma subspan_overwrite_same (d d' bytes : list byte) (offset : Z) :
  overwrite d offset bytes = Some d' →
  subspan d' offset (size bytes) = Some bytes.
Proof.
  intros H. pose proof (size_overwrite _ _ _ _ H) as Hsz.
  destruct (overwrite_inv _ _ _ _ H) as (Ho & Hs & _).
  pose proof (size_nonneg bytes).
  rewrite subspan_Some by lia. f_equal.
  apply list_eq. intros i.
  rewrite lookup_take, lookup_drop, (lookup_overwrite _ _ _ _ _ H).
  unfold size. rewrite Nat2Z.id.
  repeat case_decide; try lia.
  - f_equal. lia.
  - symmetry. apply lookup_ge_None. lia.
Qed.

(** A range that does not meet the written one reads as before. *)
Lemma subspan_overwrite_disjoint (d d' bytes : list byte) (offset a c : Z) :
  overwrite d offset bytes = Some d' →
  a + c ≤ offset ∨ offset + size bytes ≤ a →
  subspan d' a c = subspan d a c.
Proof.
  intros H Hdis. pose proof (size_overwrite _ _ _ _ H) as Hsz.
  destruct (overwrite_inv _ _ _ _ H) as (Ho & Hs & _).
  unfold subspan. rewrite Hsz.
  destruct ((0 <=? a) && (0 <=? c) && (a + c <=? size d)) eqn:E; [|done].
  apply andb_prop in E as [[Ha Hc]%andb_prop Hb].
  f_equal. apply list_eq. intros i.
  rewrite !lookup_take, !lookup_drop. case_decide; [|done].
  rewrite (lookup_overwrite _ _ _ _ _ H). unfold size in *.
  case_decide; [lia|done].
Qed.

Lemma LoadUint64_StoreUint64 (d d' : list byte) (value offset : Z) :
  StoreUint64 value d offset = Some d' →
  LoadUint64 (subspan d' offset 8) = Some (value mod 2 ^ 64).
Proof.
  unfold StoreUint64. intros H.
  pose proof (subspan_overwrite_same _ _ _ _ H) as Hs.
  unfold size in Hs. rewrite length_encode in Hs. change (Z.of_nat 8) with 8 in Hs.
  rewrite Hs. unfold LoadUint64. rewrite length_encode. simpl Nat.eqb. cbv iota.
  by rewrite decode_encode.
Qed.

Lemma LoadUint64_range (from : option (list byte)) (v : Z) :
  LoadUint64 from = Some v → 0 ≤ v < 2 ^ 64.
Proof.
  unfold LoadUint64. destruct from as [bytes|]; [|done].
  destruct (length bytes =? 8)%nat eqn:E; [|done].
  apply Nat.eqb_eq in E. intros [= <-].
  pose proof (decode_range bytes) as Hr. rewrite E in Hr. exact Hr.
Qed.

Lemma LoadUint64_subspan_Some (d : list byte) (offset : Z) :
  0 ≤ offset → offset + 8 ≤ size d →
  ∃ v, LoadUint64 (subspan d offset 8) = Some v.
Proof.
  intros Ho Hs. pose proof (subspan_Some d offset 8 Ho ltac:(lia) Hs) as E.
  pose proof (length_subspan _ _ _ _ E) as Hl.
  rewrite E. unfold LoadUint64. rewrite Hl. simpl. eauto.
Qed.

Lemma LoadUint64_subspan_inv (d : list byte) (offset v : Z) :
  LoadUint64 (subspan d offset 8) = Some v →
  0 ≤ offset ∧ offset + 8 ≤ size d.
Proof.
  destruct (subspan d offset 8) as [s|] eqn:E; [|done].
  apply subspan_inv in E. intros _. lia.
Qed.

Lemma StoreUint64_Some (d : list byte) (value offset : Z) :
  0 ≤ offset → offset + 8 ≤ size d →
  ∃ d', StoreUint64 value d offset = Some d'.
Proof.
  intros Ho Hs. unfold StoreUint64. rewrite overwrite_Some; [eauto|done|].
  unfold size in *. rewrite length_encode. lia.
Qed.

Lemma StoreUint64_inv (d d' : list byte) (value offset : Z) :
  StoreUint64 value d offset = Some d' →
  0 ≤ offset ∧ offset + 8 ≤ size d ∧ size d' = size d.
Proof.
  unfold StoreUint64. intros H.
  pose proof (size_overwrite _ _ _ _ H).
  apply overwrite_inv in H as (Ho & Hs & _).
  unfold size in *. rewrite length_encode in Hs. lia.
Qed.

Lemma subspan_StoreUint64_disjoint (d d' : list byte) (value offset a c : Z) :
  StoreUint64 value d offset = Some d' →
  a + c ≤ offset ∨ offset + 8 ≤ a →
  subspan d' a c = subspan d a c.
Proof.
  unfold StoreUint64. intros H Hdis.
  apply (subspan_overwrite_disjoint _ _ _ _ _ _ H).
  unfold size. rewrite length_encode. lia.
Qed.

End SpanFacts.

(** * Facts about the page format *)

Module FormatFacts.
Import Span SpanFacts FreePageListFormat.

Lemma NextEntryOffset_inv (bits : Z) (d : list byte) (offset : Z) :
  NextEntryOffset bits d = Some offset →
  kFirstEntryOffset ≤ size d
  ∧ ∃ v, LoadUint64 (subspan d kNextEntryOffsetOffset 8) = Some v
         ∧ offset = v mod 2 ^ bits.
Proof.
  unfold NextEntryOffset.
  destruct (LoadUint64 _) as [v|] eqn:E; [|done].
  intros [= <-]. apply LoadUint64_subspan_inv in E as HE.
  unfold kFirstEntryOffset, kNextEntryOffsetOffset in *. split; [lia|eauto].
Qed.

Lemma NextEntryOffset_range (bits : Z) (d : list byte) (offset : Z) :
  0 ≤ bits →
  NextEntryOffset bits d = Some offset → 0 ≤ offset < 2 ^ bits.
Proof.
  intros Hb (_ & v & _ & ->)%NextEntryOffset_inv.
  apply Z.mod_pos_bound. by apply Z.pow_pos_nonneg.
Qed.

Lemma NextEntryOffset_Some (bits : Z) (d : list byte) :
  kFirstEntryOffset ≤ size d → ∃ offset, NextEntryOffset bits d = Some offset.
Proof.
  intros Hs. unfold NextEntryOffset.
  destruct (LoadUint64_subspan_Some d kNextEntryOffsetOffset) as [v ->];
    unfold kFirstEntryOffset, kNextEntryOffsetOffset in *; [lia|lia|eauto].
Qed.

Lemma NextPageId64_Some (d : list byte) :
  kFirstEntryOffset ≤ size d → ∃ v, NextPageId64 d = Some v.
Proof.
  intros Hs. unfold NextPageId64.
  apply LoadUint64_subspan_Some;
    unfold kFirstEntryOffset, kNextPageIdOffset in *; lia.
Qed.

Lemma NextPageId64_range (d : list byte) (v : Z) :
  NextPageId64 d = Some v → 0 ≤ v < 2 ^ 64.
Proof. apply LoadUint64_range. Qed.

Lemma SetNextEntryOffset_Some (offset : Z) (d : list byte) :
  kFirstEntryOffset ≤ size d → ∃ d', SetNextEntryOffset offset d = Some d'.
Proof.
  intros Hs. apply StoreUint64_Some;
    unfold kFirstEntryOffset, kNextEntryOffsetOffset in *; lia.
Qed.

Lemma SetNextPageId64_Some (id : Z) (d : list byte) :
  kFirstEntryOffset ≤ size d → ∃ d', SetNextPageId64 id d = Some d'.
Proof.
  intros Hs. apply StoreUint64_Some;
    unfold kFirstEntryOffset, kNextPageIdOffset in *; lia.
Qed.

Lemma size_SetNextEntryOffset (offset : Z) (d d' : list byte) :
  SetNextEntryOffset offset d = Some d' → size d' = size d.
Proof. by intros (_ & _ & ?)%StoreUint64_inv. Qed.

Lemma size_SetNextPageId64 (id : Z) (d d' : list byte) :
  SetNextPageId64 id d = Some d' → size d' = size d.
Proof. by intros (_ & _ & ?)%StoreUint64_inv. Qed.

(** The stored offset reads back, narrowed to the native width. *)
Lemma NextEntryOffset_SetNextEntryOffset (bits offset : Z) (d d' : list byte) :
  SetNextEntryOffset offset d = Some d' →
  NextEntryOffset bits d' = Some ((offset mod 2 ^ 64) mod 2 ^ bits).
Proof.
  intros H. unfold NextEntryOffset.
  by rewrite (LoadUint64_StoreUint64 _ _ _ _ H).
Qed.

Lemma NextPageId64_SetNextPageId64 (id : Z) (d d' : list byte) :
  SetNextPageId64 id d = Some d' → NextPageId64 d' = Some (id mod 2 ^ 64).
Proof. intros H. unfold NextPageId64. by rewrite (LoadUint64_StoreUint64 _ _ _ _ H). Qed.

(** The two header fields do not overlap. *)
Lemma NextPageId64_SetNextEntryOffset (offset : Z) (d d' : list byte) :
  SetNextEntryOffset offset d = Some d' → NextPageId64 d' = NextPageId64 d.
Proof.
  intros H. unfold NextPageId64.
  rewrite (subspan_StoreUint64_disjoint _ _ _ _ _ _ H); [done|].
  unfold kNextPageIdOffset, kNextEntryOffsetOffset. lia.
Qed.

Lemma NextEntryOffset_SetNextPageId64 (bits id : Z) (d d' : list byte) :
  SetNextPageId64 id d = Some d' → NextEntryOffset bits d' = NextEntryOffset bits d.
Proof.
  intros H. unfold NextEntryOffset.
  rewrite (subspan_StoreUint64_disjoint _ _ _ _ _ _ H); [done|].
  unfold kNextPageIdOffset, kNextEntryOffsetOffset. lia.
Qed.

(** Header writes leave every entry as it was. *)
Lemma entries_SetNextEntryOffset (offset a c : Z) (d d' : list byte) :
  SetNextEntryOffset offset d = Some d' → kFirstEntryOffset ≤ a →
  subspan d' a c = subspan d a c.
Proof.
  intros H Ha. apply (subspan_StoreUint64_disjoint _ _ _ _ _ _ H).
  unfold kFirstEntryOffset, kNextEntryOffsetOffset in *. lia.
Qed.

Lemma entries_SetNextPageId64 (id a c : Z) (d d' : list byte) :
  SetNextPageId64 id d = Some d' → kFirstEntryOffset ≤ a →
  subspan d' a c = subspan d a c.
Proof.
  intros H Ha. apply (subspan_StoreUint64_disjoint _ _ _ _ _ _ H).
  unfold kFirstEntryOffset, kNextPageIdOffset in *. lia.
Qed.

(** An entry write leaves the header as it was. *)
Lemma NextEntryOffset_StoreUint64 (bits value offset : Z) (d d' : list byte) :
  StoreUint64 value d offset = Some d' → kFirstEntryOffset ≤ offset →
  NextEntryOffset bits d' = NextEntryOffset bits d.
Proof.
  intros H Ho. unfold NextEntryOffset.
  rewrite (subspan_StoreUint64_disjoint _ _ _ _ _ _ H); [done|].
  unfold kFirstEntryOffset, kNextEntryOffsetOffset in *. lia.
Qed.

Lemma NextPageId64_StoreUint64 (value offset : Z) (d d' : list byte) :
  StoreUint64 value d offset = Some d' → kFirstEntryOffset ≤ offset →
  NextPageId64 d' = NextPageId64 d.
Proof.
  intros H Ho. unfold NextPageId64.
  rewrite (subspan_StoreUint64_disjoint _ _ _ _ _ _ H); [done|].
  unfold kFirstEntryOffset, kNextPageIdOffset in *. lia.
Qed.

Lemma IsCorruptEntryOffset_false (offset page_size : Z) :
  IsCorruptEntryOffset offset page_size = false
  ↔ kFirstEntryOffset ≤ offset ≤ page_size
    ∧ (offset - kFirstEntryOffset) mod kEntrySize = 0.
Proof.
  unfold IsCorruptEntryOffset. rewrite negb_false_iff, !andb_true_iff.
  rewrite !Z.leb_le, Z.eqb_eq. tauto.
Qed.

Lemma IsCorruptEntryOffset_true (offset page_size : Z) :
  IsCorruptEntryOffset offset page_size = true
  ↔ offset < kFirstEntryOffset ∨ page_size < offset
    ∨ (offset - kFirstEntryOffset) mod kEntrySize ≠ 0.
Proof.
  rewrite <-not_false_iff_true, IsCorruptEntryOffset_false.
  destruct (decide ((offset - kFirstEntryOffset) mod kEntrySize = 0)); lia.
Qed.

End FormatFacts.

Import Examples.

(** * Stepping through operations *)

Lemma bind_unfold {A B} (m : Op A) (f : A → Op B) (pool : PagePool) :
  (m ≫= f) pool
  = match m pool with Some (a, pool') => f a pool' | None => None end.
Proof. reflexivity. Qed.

Lemma bind_inv {A B} (m : Op A) (f : A → Op B) (pool : PagePool) r :
  (m ≫= f) pool = Some r →
  ∃ a pool', m pool = Some (a, pool') ∧ f a pool' = Some r.
Proof. rewrite bind_unfold. destruct (m pool) as [[a pool']|]; [eauto|done]. Qed.

Lemma mret_inv {A} (a : A) (pool : PagePool) r :
  (mret a : Op A) pool = Some r → r = (a, pool).
Proof. by intros [= <-]. Qed.

(** Inverts a run [op pool = Some r] into the runs of its steps. *)
Ltac op_inv H :=
  repeat first
    [ apply bind_inv in H as (? & ? & ? & H)
    | apply mret_inv in H
    | match type of H with context [if ?b then _ else _] => destruct b eqn:? end
    | match type of H with (let '(_, _) := ?x in _) _ = _ => destruct x end
    | progress simplify_eq/= ].

Lemma failed_kSuccess : failed kSuccess = false.
Proof. reflexivity. Qed.

Lemma CHECK_true (build : Build) (pool : PagePool) :
  CHECK build true pool = Some (tt, pool).
Proof. unfold CHECK, require. by destruct (check_is_on build). Qed.

Lemma StorePage_resident id mode pool d :
  slots pool !! id = Some (Resident d) →
  StorePage id mode pool = Some (kSuccess, Some id, note_fetch id mode pool).
Proof. unfold StorePage. by intros ->. Qed.

Lemma StorePage_inv id mode pool status raw_page pool' :
  StorePage id mode pool = Some (status, raw_page, pool') →
  status = fetch_status pool id ∧ pool' = note_fetch id mode pool
  ∧ (∀ page, raw_page = Some page →
       page = id ∧ ∃ d, slots pool !! id = Some (Resident d)).
Proof.
  unfold StorePage, fetch_status.
  destruct (slots pool !! id) as [[d|st]|]; intros [= <- <- <-];
    (split; [done|split; [done|]]); intros page [= <-]; eauto.
Qed.

Lemma require_inv b pool x pool' :
  require b pool = Some (x, pool') → b = true ∧ pool' = pool.
Proof. unfold require. destruct b; [|done]. by intros [= _ <-]. Qed.

Lemma CHECK_inv build b pool x pool' :
  CHECK build b pool = Some (x, pool') →
  (check_is_on build = true → b = true) ∧ pool' = pool.
Proof.
  unfold CHECK. destruct (check_is_on build).
  - intros [-> ->]%require_inv. done.
  - intros [= _ <-]. done.
Qed.

Lemma view_inv {A} (o : option A) pool a pool' :
  view o pool = Some (a, pool') → o = Some a ∧ pool' = pool.
Proof. unfold view. destruct o; [|done]. by intros [= <- <-]. Qed.

Lemma data_inv page pool d pool' :
  data page pool = Some (d, pool') →
  slots pool !! page = Some (Resident d) ∧ pool' = pool.
Proof.
  unfold data. destruct (slots pool !! page) as [[d0|]|]; [|done..].
  by intros [= <- <-].
Qed.

Lemma read_inv {A} page (f : list byte → option A) pool a pool' :
  read page f pool = Some (a, pool') →
  pool' = pool ∧ ∃ d, slots pool !! page = Some (Resident d) ∧ f d = Some a.
Proof.
  unfold read. intros (d & p1 & [Hd ->]%data_inv & [Hf ->]%view_inv)%bind_inv.
  eauto.
Qed.

Lemma mutate_inv page f pool x pool' :
  mutate page f pool = Some (x, pool') →
  ∃ d d', slots pool !! page = Some (Resident d) ∧ f d = Some d'
          ∧ pool' = put_data page d' pool.
Proof.
  unfold mutate.
  intros (d & p1 & [Hd ->]%data_inv & (d' & p2 & [Hf ->]%view_inv & H)%bind_inv)%bind_inv.
  unfold set_data in H. injection H as _ <-. eauto.
Qed.

Lemma get_page_size_inv pool ps pool' :
  get_page_size pool = Some (ps, pool') → ps = page_size pool ∧ pool' = pool.
Proof. by intros [= <- <-]. Qed.

Lemma WillModifyPage_inv page pool x pool' :
  WillModifyPage page pool = Some (x, pool') → pool' = note_modify page pool.
Proof. by intros [= _ <-]. Qed.

(** Replaces the runs of primitive steps in the context by what they say. *)
Ltac op_facts :=
  repeat match goal with
    | H : ASSUME _ _ = Some _ |- _ => apply require_inv in H as [? ->]
    | H : require _ _ = Some _ |- _ => apply require_inv in H as [? ->]
    | H : CHECK _ _ _ = Some _ |- _ => apply CHECK_inv in H as [? ->]
    | H : StorePage _ _ _ = Some _ |- _ =>
        apply StorePage_inv in H as (? & -> & ?)
    | H : PinnedPage _ _ = Some _ |- _ => apply view_inv in H as [? ->]
    | H : view _ _ = Some _ |- _ => apply view_inv in H as [? ->]
    | H : read _ _ _ = Some _ |- _ => apply read_inv in H as (-> & ? & ? & ?)
    | H : mutate _ _ _ = Some _ |- _ =>
        apply mutate_inv in H as (? & ? & ? & ? & ->)
    | H : get_page_size _ = Some _ |- _ =>
        apply get_page_size_inv in H as [? ->]
    | H : WillModifyPage _ _ = Some _ |- _ =>
        apply WillModifyPage_inv in H as ->
    end.

Lemma read_resident {A} page (f : list byte → option A) pool d a :
  slots pool !! page = Some (Resident d) → f d = Some a →
  read page f pool = Some (a, pool).
Proof. unfold read, data. rewrite bind_unfold. by intros -> ->. Qed.

Lemma read_resident_None {A} page (f : list byte → option A) pool d :
  slots pool !! page = Some (Resident d) → f d = None →
  read page f pool = None.
Proof. unfold read, data. rewrite bind_unfold. by intros -> ->. Qed.

Lemma mutate_resident page f pool d d' :
  slots pool !! page = Some (Resident d) → f d = Some d' →
  mutate page f pool = Some (tt, put_data page d' pool).
Proof.
  unfold mutate, data, set_data. rewrite !bind_unfold. intros ->.
  rewrite bind_unfold. by intros ->.
Qed.

Lemma put_data_put_data page d1 d2 pool :
  put_data page d2 (put_data page d1 pool) = put_data page d2 pool.
Proof. unfold put_data. simpl. by rewrite insert_insert_eq. Qed.

Lemma lookup_put_data_eq page d pool :
  slots (put_data page d pool) !! page = Some (Resident d).
Proof. apply lookup_insert_eq. Qed.

(** Runs the next steps of an operation whose inputs are in the context. *)
Ltac op_run :=
  repeat first
    [ rewrite bind_unfold
    | rewrite CHECK_true
    | rewrite failed_kSuccess
    | erewrite StorePage_resident
        by first [apply lookup_put_data_eq | simpl; eauto]
    | erewrite read_resident
        by first [apply lookup_put_data_eq | simpl; eauto]
    | erewrite mutate_resident
        by first [apply lookup_put_data_eq | simpl; eauto]
    | progress cbn [negb PinnedPage ASSUME require view mret Op_ret
                    WillModifyPage get_page_size] ].

Lemma size_bits_cases (build : Build) :
  size_bits build = 32 ∨ size_bits build = 64.
Proof. unfold size_bits. destruct (arch build); auto. Qed.

Lemma to_size_t_range (build : Build) (v : Z) :
  0 ≤ to_size_t build v < 2 ^ size_bits build.
Proof.
  unfold to_size_t. apply Z.mod_pos_bound.
  destruct (size_bits_cases build) as [-> | ->]; lia.
Qed.

Lemma to_size_t_small (build : Build) (v : Z) :
  0 ≤ v < 2 ^ size_bits build → to_size_t build v = v.
Proof. unfold to_size_t. apply Z.mod_small. Qed.

(** On a 64-bit build every stored id fits the native width. *)
Lemma to_size_t_LoadUint64 (build : Build) from (v : Z) :
  arch build = Arch64 → Span.LoadUint64 from = Some v → to_size_t build v = v.
Proof.
  intros Ha Hv. apply to_size_t_small. unfold size_bits. rewrite Ha.
  by apply SpanFacts.LoadUint64_range in Hv.
Qed.

Lemma kInvalidPageId_range (build : Build) :
  0 < kInvalidPageId build < 2 ^ 64.
Proof.
  unfold kInvalidPageId. destruct (size_bits_cases build) as [-> | ->]; lia.
Qed.

(** * Frame properties of the handle *)

Section Frame.
Variable build : Build.

Lemma Pop_failure_keeps_handle l pool status page_id l' pool' :
  Pop build l pool = Some (status, page_id, l', pool') →
  status ≠ kSuccess → l' = l.
Proof. unfold Pop. intros H Hst. op_inv H; done. Qed.

Lemma Push_failure_keeps_handle l page_id pool status l' pool' :
  Push build l page_id pool = Some (status, l', pool') →
  status ≠ kSuccess → l' = l.
Proof. unfold Push, Push_new_head. intros H Hst. op_inv H; done. Qed.

Lemma Merge_handles l other pool status l' other' pool' :
  Merge build l other pool = Some (status, l', other', pool') →
  l' = l
  ∧ other' = if check_is_on build then set_was_merged other true else other.
Proof. unfold Merge, Merge_head_pages. intros H. op_inv H; done. Qed.

End Frame.

(** * The claims about the handle *)

(** C7. On an empty list that was not merged away, [Pop] returns success
    together with [kInvalidPageId]; the pool -- and with it the record of
    page fetches -- is exactly as before. *)
Theorem Pop_empty_list (build : Build) (l : FreePageList) (pool : PagePool) :
  is_empty build l = true → was_merged_ l = false →
  Pop build l pool = Some (kSuccess, kInvalidPageId build, l, pool).
Proof.
  intros He Hm. unfold Pop. rewrite Hm, He. by op_run.
Qed.

Lemma Pop_empty_list_witness :
  Pop debug64 (new_list debug64 true) blank_pool
  = Some (kSuccess, 2 ^ 64 - 1, new_list debug64 true, blank_pool)
  ∧ fetches blank_pool = [].
Proof.
  split; [|reflexivity].
  apply (Pop_empty_list debug64 (new_list debug64 true) blank_pool);
    reflexivity.
Defined.

(** C9. Whenever [Pop] or [Push] returns a status other than success, the
    handle's [head_page_id_] and [tail_page_id_] are as they were before
    the call. *)
Theorem failure_leaves_handle_fields (build : Build) (l : FreePageList)
    (pool : PagePool) :
  (∀ status page_id l' pool',
      Pop build l pool = Some (status, page_id, l', pool') →
      status ≠ kSuccess →
      head_page_id_ l' = head_page_id_ l ∧ tail_page_id_ l' = tail_page_id_ l)
  ∧ (∀ pushed status l' pool',
      Push build l pushed pool = Some (status, l', pool') →
      status ≠ kSuccess →
      head_page_id_ l' = head_page_id_ l ∧ tail_page_id_ l' = tail_page_id_ l).
Proof.
  split.
  - intros status page_id l' pool' H Hst.
    by rewrite (Pop_failure_keeps_handle _ _ _ _ _ _ _ H Hst).
  - intros pushed status l' pool' H Hst.
    by rewrite (Push_failure_keeps_handle _ _ _ _ _ _ _ H Hst).
Qed.

(** C6. Whatever [Merge] returns, this list's [head_page_id_] is the one it
    had before the call. *)
Theorem Merge_keeps_head_page_id (build : Build) (l other : FreePageList)
    (pool : PagePool) status l' other' pool' :
  Merge build l other pool = Some (status, l', other', pool') →
  head_page_id_ l' = head_page_id_ l.
Proof. intros H. by destruct (Merge_handles _ _ _ _ _ _ _ _ H) as [-> _]. Qed.

(** C10. Whatever [Merge] returns, the source list's [head_page_id_] and
    [tail_page_id_] are untouched; only [was_merged_] is set, and only when
    checks are compiled in (already before the emptiness test).  With
    checks compiled out the source handle is returned unchanged. *)
Theorem Merge_keeps_other_fields (build : Build) (l other : FreePageList)
    (pool : PagePool) status l' other' pool' :
  Merge build l other pool = Some (status, l', other', pool') →
  head_page_id_ other' = head_page_id_ other
  ∧ tail_page_id_ other' = tail_page_id_ other
  ∧ tail_page_is_defined_ other' = tail_page_is_defined_ other
  ∧ was_merged_ other' = check_is_on build || was_merged_ other
  ∧ (check_is_on build = false → other' = other).
Proof.
  intros H. destruct (Merge_handles _ _ _ _ _ _ _ _ H) as [_ ->].
  destruct (check_is_on build); simpl; [|done].
  repeat split; done.
Qed.

Lemma failure_leaves_handle_fields_witness :
  (head_page_id_ (single debug64 5 true) = 5
   ∧ tail_page_id_ (single debug64 5 true) = 5)
  ∧ (head_page_id_ (single debug64 1 true) = 1
     ∧ tail_page_id_ (single debug64 1 true) = 1).
Proof.
  split.
  - apply (proj1 (failure_leaves_handle_fields debug64 (single debug64 5 true)
                    (pool_with_offset 16))
             kIoError (2 ^ 64 - 1) (single debug64 5 true)
             (note_fetch 5 kFetchPageData (pool_with_offset 16)));
      [vm_compute; reflexivity | discriminate].
  - apply (proj2 (failure_leaves_handle_fields debug64 (single debug64 1 true)
                    (pool_with_offset 17))
             2 kDataCorrupted (single debug64 1 true)
             (note_fetch 1 kFetchPageData (pool_with_offset 17)));
      [vm_compute; reflexivity | discriminate].
Defined.

Lemma Merge_keeps_head_page_id_witness :
  head_page_id_ (single debug64 1 false) = 1.
Proof.
  eapply (Merge_keeps_head_page_id debug64 (single debug64 1 false)
            (single debug64 2 true) two_heads_pool kSuccess
            (single debug64 1 false)).
  vm_compute. reflexivity.
Defined.

Lemma Merge_keeps_other_fields_witness :
  let other' := set_was_merged (single debug64 2 true) true in
  head_page_id_ other' = 2 ∧ tail_page_id_ other' = 2
  ∧ tail_page_is_defined_ other' = true ∧ was_merged_ other' = true
  ∧ (check_is_on debug64 = false → other' = single debug64 2 true).
Proof.
  eapply (Merge_keeps_other_fields debug64 (single debug64 1 false)
            (single debug64 2 true) two_heads_pool kSuccess
            (single debug64 1 false)).
  vm_compute. reflexivity.
Defined.

(** * Pop *)

Section PopFacts.
Import Span SpanFacts FreePageListFormat FormatFacts.
Variable build : Build.

(** The run of [Pop] up to the point where the head page's offset has
    been read. *)
Lemma Pop_after_fetch l pool d offset :
  is_empty build l = false → was_merged_ l = false →
  slots pool !! head_page_id_ l = Some (Resident d) →
  NextEntryOffset (size_bits build) d = Some offset →
  Pop build l pool
  = (if offset =? kFirstEntryOffset then
       new_head_page_id64 ← read (head_page_id_ l) NextPageId64;
       let new_head_page_id := to_size_t build new_head_page_id64 in
       if negb (new_head_page_id =? new_head_page_id64)
       then mret (kDatabaseTooLarge, kInvalidPageId build, l) else
       let free_page_id := head_page_id_ l in
       let l := set_head_page_id l new_head_page_id in
       let l := if new_head_page_id =? kInvalidPageId build
                then set_tail_page_id l (kInvalidPageId build) else l in
       mret (kSuccess, free_page_id, l)
     else
       let next_entry_offset := to_size_t build (offset - kEntrySize) in
       if IsCorruptEntryOffset next_entry_offset (page_size pool)
       then mret (kDataCorrupted, kInvalidPageId build, l) else
       free_page_id64 ←
         read (head_page_id_ l)
           (λ d, LoadUint64 (subspan d next_entry_offset 8));
       let free_page_id := to_size_t build free_page_id64 in
       if negb (free_page_id =? free_page_id64)
       then mret (kDatabaseTooLarge, kInvalidPageId build, l) else
       WillModifyPage (head_page_id_ l);;
       mutate (head_page_id_ l) (SetNextEntryOffset next_entry_offset);;
       mret (kSuccess, free_page_id, l))
      (note_fetch (head_page_id_ l) kFetchPageData pool).
Proof.
  intros He Hm Hs Ho. unfold Pop. rewrite He, Hm. op_run.
  destruct (offset =? kFirstEntryOffset); reflexivity.
Qed.

End PopFacts.

(** C4. [Pop] on a non-empty list that was not merged away, once the head
    page is fetched.  If the stored offset is [kFirstEntryOffset], the head
    page's own id is returned, [head_page_id_] becomes the stored successor
    and [tail_page_id_] is cleared when that successor is the sentinel.
    Otherwise the offset is decremented by one entry; a corrupt decremented
    offset gives data-corruption, otherwise the id stored at the decremented
    offset is returned and the decremented offset is written to the page. *)
Theorem Pop_nonempty_list (build : Build) (l : FreePageList) (pool : PagePool)
    (d : list byte) (offset : Z) :
  is_empty build l = false → was_merged_ l = false →
  slots pool !! head_page_id_ l = Some (Resident d) →
  FreePageListFormat.NextEntryOffset (size_bits build) d = Some offset →
  let head := head_page_id_ l in
  let fetched := note_fetch head kFetchPageData pool in
  let decremented := to_size_t build (offset - FreePageListFormat.kEntrySize) in
  (offset = FreePageListFormat.kFirstEntryOffset →
   ∀ next, FreePageListFormat.NextPageId64 d = Some next →
     to_size_t build next = next →
     Pop build l pool
     = Some (kSuccess, head,
             {| head_page_id_ := next;
                tail_page_id_ := if next =? kInvalidPageId build
                                 then kInvalidPageId build
                                 else tail_page_id_ l;
                tail_page_is_defined_ := tail_page_is_defined_ l;
                was_merged_ := was_merged_ l |},
             fetched))
  ∧ (offset ≠ FreePageListFormat.kFirstEntryOffset →
     FreePageListFormat.IsCorruptEntryOffset decremented (page_size pool) = true →
     Pop build l pool
     = Some (kDataCorrupted, kInvalidPageId build, l, fetched))
  ∧ (offset ≠ FreePageListFormat.kFirstEntryOffset →
     FreePageListFormat.IsCorruptEntryOffset decremented (page_size pool) = false →
     ∀ free_page_id,
       Span.LoadUint64 (Span.subspan d decremented 8) = Some free_page_id →
       to_size_t build free_page_id = free_page_id →
       ∃ d', FreePageListFormat.SetNextEntryOffset decremented d = Some d'
             ∧ FreePageListFormat.NextEntryOffset (size_bits build) d'
               = Some decremented
             ∧ Span.LoadUint64 (Span.subspan d' decremented 8)
               = Some free_page_id
             ∧ Pop build l pool
               = Some (kSuccess, free_page_id, l,
                       put_data head d' (note_modify head fetched))).
Proof.
  intros He Hm Hs Ho head fetched decremented.
  rewrite (Pop_after_fetch build l pool d offset He Hm Hs Ho).
  fold head fetched. split; [|split].
  - intros -> next Hn Hfit. rewrite Z.eqb_refl. op_run.
    rewrite Hfit, Z.eqb_refl. cbn [negb mret Op_ret].
    by destruct (next =? kInvalidPageId build).
  - intros Hne Hc. rewrite (proj2 (Z.eqb_neq _ _) Hne).
    op_run. fold decremented. by rewrite Hc.
  - intros Hne Hc id Hl Hfit. rewrite (proj2 (Z.eqb_neq _ _) Hne).
    destruct (FormatFacts.NextEntryOffset_inv _ _ _ Ho) as [Hsz _].
    destruct (FormatFacts.SetNextEntryOffset_Some decremented d Hsz) as [d' Hd'].
    exists d'. split; [done|]. split; [|split].
    + rewrite (FormatFacts.NextEntryOffset_SetNextEntryOffset _ _ _ _ Hd').
      f_equal. pose proof (to_size_t_range build (offset - FreePageListFormat.kEntrySize)) as Hr.
      fold decremented in Hr.
      rewrite (Z.mod_small decremented (2 ^ 64)), Z.mod_small; [done|done|].
      destruct (size_bits_cases build) as [E | E]; rewrite E in Hr; lia.
    + rewrite (FormatFacts.entries_SetNextEntryOffset _ _ _ _ _ Hd'); [done|].
      by apply FormatFacts.IsCorruptEntryOffset_false in Hc as [[? _] _].
    + op_run. fold decremented. rewrite Hc. op_run.
      rewrite Hfit, Z.eqb_refl. by op_run.
Qed.

Lemma Pop_nonempty_list_witness :
  Pop debug64 (single debug64 2 true) two_heads_pool
  = Some (kSuccess, 7, single debug64 2 true,
          put_data 2 (page_image (2 ^ 64 - 1) 16
                        (Span.encode 8 7 ++ replicate 40 x00))
            (note_modify 2 (note_fetch 2 kFetchPageData two_heads_pool)))
  ∧ Pop debug64 (single debug64 1 true) two_heads_pool
    = Some (kSuccess, 1, new_list debug64 true,
            note_fetch 1 kFetchPageData two_heads_pool)
  ∧ Pop debug64 (single debug64 1 true) (pool_with_offset 17)
    = Some (kDataCorrupted, 2 ^ 64 - 1, single debug64 1 true,
            note_fetch 1 kFetchPageData (pool_with_offset 17)).
Proof.
  split; [|split].
  - destruct (proj2 (proj2 (Pop_nonempty_list debug64 (single debug64 2 true)
        two_heads_pool
        (page_image (2 ^ 64 - 1) 24 (Span.encode 8 7 ++ replicate 40 x00)) 24
        eq_refl eq_refl eq_refl eq_refl)) ltac:(discriminate) eq_refl 7
        eq_refl eq_refl) as (d' & Hd' & _ & _ & HPop).
    vm_compute in Hd'. injection Hd' as <-. exact HPop.
  - exact (proj1 (Pop_nonempty_list debug64 (single debug64 1 true)
        two_heads_pool (page_image (2 ^ 64 - 1) 16 (replicate 48 x00)) 16
        eq_refl eq_refl eq_refl eq_refl) eq_refl (2 ^ 64 - 1) eq_refl eq_refl).
  - exact (proj1 (proj2 (Pop_nonempty_list debug64 (single debug64 1 true)
        (pool_with_offset 17)
        (page_image (2 ^ 64 - 1) 17 (replicate 48 x00)) 17
        eq_refl eq_refl eq_refl eq_refl)) ltac:(discriminate) eq_refl).
Defined.

(** C8. Whichever 64-bit id [Pop] reads -- the head page's successor when
    the page is out of entries, or the entry at the decremented offset --
    if it does not fit the native [size_t], [Pop] returns database-too-large
    with [kInvalidPageId] and leaves the handle and the page as they were. *)
Theorem Pop_database_too_large (build : Build) (l : FreePageList)
    (pool : PagePool) (d : list byte) (offset v : Z) :
  is_empty build l = false → was_merged_ l = false →
  slots pool !! head_page_id_ l = Some (Resident d) →
  FreePageListFormat.NextEntryOffset (size_bits build) d = Some offset →
  let decremented := to_size_t build (offset - FreePageListFormat.kEntrySize) in
  (offset = FreePageListFormat.kFirstEntryOffset
   ∧ FreePageListFormat.NextPageId64 d = Some v)
  ∨ (offset ≠ FreePageListFormat.kFirstEntryOffset
     ∧ FreePageListFormat.IsCorruptEntryOffset decremented (page_size pool) = false
     ∧ Span.LoadUint64 (Span.subspan d decremented 8) = Some v) →
  to_size_t build v ≠ v →
  Pop build l pool
  = Some (kDatabaseTooLarge, kInvalidPageId build, l,
          note_fetch (head_page_id_ l) kFetchPageData pool).
Proof.
  intros He Hm Hs Ho decremented Hread Hwide.
  rewrite (Pop_after_fetch build l pool d offset He Hm Hs Ho).
  apply Z.eqb_neq in Hwide.
  destruct Hread as [[-> Hn] | (Hne & Hc & Hl)].
  - rewrite Z.eqb_refl. op_run. by rewrite Hwide.
  - rewrite (proj2 (Z.eqb_neq _ _) Hne). op_run. fold decremented.
    rewrite Hc. op_run. by rewrite Hwide.
Qed.

Lemma Pop_database_too_large_witness :
  Pop release32 (single release32 1 true) wide_successor_pool
  = Some (kDatabaseTooLarge, 2 ^ 32 - 1, single release32 1 true,
          note_fetch 1 kFetchPageData wide_successor_pool).
Proof.
  apply (Pop_database_too_large release32 (single release32 1 true)
           wide_successor_pool
           (page_image (2 ^ 32) 16 (replicate 48 x00)) 16 (2 ^ 32));
    try reflexivity.
  - left. split; reflexivity.
  - discriminate.
Defined.

(** * Push *)

Section PushFacts.
Import Span SpanFacts FreePageListFormat FormatFacts.
Variable build : Build.

Lemma page_size_multiple (pool : PagePool) :
  4 ≤ page_shift pool →
  ∃ m, 2 ≤ m ∧ page_size pool = kEntrySize * m.
Proof.
  intros Hk. exists (2 ^ (page_shift pool - 3)). unfold page_size, kEntrySize.
  replace (page_shift pool) with (3 + (page_shift pool - 3)) at 2 by lia.
  rewrite Z.pow_add_r by lia. split; [|done].
  change 2 with (2 ^ 1) at 1. apply Z.pow_le_mono_r; lia.
Qed.

Lemma page_size_fits (pool : PagePool) :
  4 ≤ page_shift pool < size_bits build →
  kFirstEntryOffset ≤ page_size pool
  ∧ page_size pool + kEntrySize < 2 ^ size_bits build.
Proof.
  intros [Hlo Hhi]. unfold page_size, kFirstEntryOffset, kEntrySize. split.
  - change 16 with (2 ^ 4). apply Z.pow_le_mono_r; lia.
  - assert (2 ^ page_shift pool ≤ 2 ^ (size_bits build - 1))
      by (apply Z.pow_le_mono_r; lia).
    destruct (size_bits_cases build) as [E | E]; rewrite E in *;
      simpl in *; lia.
Qed.

(** An aligned offset below the page size leaves room for a whole entry. *)
Lemma aligned_room (pool : PagePool) (offset : Z) :
  4 ≤ page_shift pool →
  IsCorruptEntryOffset offset (page_size pool) = false →
  offset < page_size pool →
  offset + kEntrySize ≤ page_size pool.
Proof.
  intros Hk [[Hlo _] Hal]%IsCorruptEntryOffset_false Hlt.
  destruct (page_size_multiple pool Hk) as (m & Hm & Hps).
  rewrite Hps in *.
  apply Z.mod_divide in Hal as [q Hq]; [|done].
  unfold kFirstEntryOffset, kEntrySize in *. lia.
Qed.

(** The run of [Push] on a non-empty list up to the point where the head
    page's offset has been read. *)
Lemma Push_after_fetch l page_id pool d offset :
  page_id ≠ kInvalidPageId build → was_merged_ l = false →
  is_empty build l = false →
  slots pool !! head_page_id_ l = Some (Resident d) →
  NextEntryOffset (size_bits build) d = Some offset →
  Push build l page_id pool
  = (if offset <? page_size pool then
       if IsCorruptEntryOffset offset (page_size pool)
       then mret (kDataCorrupted, l) else
       WillModifyPage (head_page_id_ l);;
       mutate (head_page_id_ l) (λ d, StoreUint64 page_id d offset);;
       mutate (head_page_id_ l)
         (SetNextEntryOffset (to_size_t build (offset + kEntrySize)));;
       mret (kSuccess, l)
     else Push_new_head build l page_id)
      (note_fetch (head_page_id_ l) kFetchPageData pool).
Proof.
  intros Hid Hm He Hs Ho. unfold Push. unfold is_empty in He.
  rewrite He, Hm, (proj2 (Z.eqb_neq _ _) Hid). op_run.
  change (page_size (note_fetch (head_page_id_ l) kFetchPageData pool))
    with (page_size pool).
  destruct (offset <? page_size pool); reflexivity.
Qed.

Lemma Push_empty l page_id pool :
  page_id ≠ kInvalidPageId build → was_merged_ l = false →
  is_empty build l = true →
  Push build l page_id pool = Push_new_head build l page_id pool.
Proof.
  intros Hid Hm He. unfold Push. unfold is_empty in He.
  rewrite He, Hm, (proj2 (Z.eqb_neq _ _) Hid). by op_run.
Qed.

(** The pushed page set up as the new head page. *)
Lemma Push_new_head_resident l page_id pool d0 :
  slots pool !! page_id = Some (Resident d0) →
  kFirstEntryOffset ≤ size d0 →
  ∃ d', NextEntryOffset (size_bits build) d' = Some kFirstEntryOffset
        ∧ NextPageId64 d' = Some (head_page_id_ l mod 2 ^ 64)
        ∧ (∀ a c, kFirstEntryOffset ≤ a → subspan d' a c = subspan d0 a c)
        ∧ Push_new_head build l page_id pool
          = Some (kSuccess,
                  {| head_page_id_ := page_id;
                     tail_page_id_ := if is_empty build l then page_id
                                      else tail_page_id_ l;
                     tail_page_is_defined_ := tail_page_is_defined_ l;
                     was_merged_ := was_merged_ l |},
                  put_data page_id d'
                    (note_modify page_id
                       (note_fetch page_id kIgnorePageData pool))).
Proof.
  intros Hs Hsz.
  destruct (SetNextEntryOffset_Some kFirstEntryOffset d0 Hsz) as [d1 Hd1].
  pose proof (size_SetNextEntryOffset _ _ _ Hd1) as Hsz1.
  destruct (SetNextPageId64_Some (head_page_id_ l) d1 ltac:(lia)) as [d' Hd'].
  exists d'. split; [|split; [|split]].
  - rewrite (NextEntryOffset_SetNextPageId64 _ _ _ _ Hd').
    rewrite (NextEntryOffset_SetNextEntryOffset _ _ _ _ Hd1).
    f_equal. unfold kFirstEntryOffset.
    destruct (size_bits_cases build) as [-> | ->]; reflexivity.
  - by rewrite (NextPageId64_SetNextPageId64 _ _ _ Hd').
  - intros a c Ha.
    rewrite (entries_SetNextPageId64 _ _ _ _ _ Hd' Ha).
    by rewrite (entries_SetNextEntryOffset _ _ _ _ _ Hd1 Ha).
  - unfold Push_new_head. op_run. rewrite put_data_put_data.
    unfold is_empty. by destruct (head_page_id_ l =? kInvalidPageId build).
Qed.

End PushFacts.

(** C5. [Push] of a valid page id on a list that was not merged away, once
    the pages involved are fetched.  With room in the head page (a sound
    offset below the page size) the id is written at the stored offset, the
    offset moves on by one entry, and the handle is unchanged.  With a full
    head page, or an empty list, the pushed page is fetched without loading
    its content and becomes the new head: its offset is
    [kFirstEntryOffset], its successor the old [head_page_id_];
    [tail_page_id_] becomes the pushed id when the list was empty. *)
Theorem Push_list (build : Build) (l : FreePageList) (pool : PagePool)
    (page_id : Z) :
  valid_page_id build page_id → was_merged_ l = false →
  0 ≤ head_page_id_ l ≤ kInvalidPageId build →
  let head := head_page_id_ l in
  (∀ d offset,
      is_empty build l = false → pool_ok build pool →
      slots pool !! head = Some (Resident d) →
      FreePageListFormat.NextEntryOffset (size_bits build) d = Some offset →
      offset < page_size pool →
      FreePageListFormat.IsCorruptEntryOffset offset (page_size pool) = false →
      ∃ d', Span.LoadUint64 (Span.subspan d' offset 8) = Some page_id
            ∧ FreePageListFormat.NextEntryOffset (size_bits build) d'
              = Some (offset + FreePageListFormat.kEntrySize)
            ∧ FreePageListFormat.NextPageId64 d'
              = FreePageListFormat.NextPageId64 d
            ∧ Push build l page_id pool
              = Some (kSuccess, l,
                      put_data head d'
                        (note_modify head
                           (note_fetch head kFetchPageData pool))))
  ∧ (∀ d0,
      slots pool !! page_id = Some (Resident d0) →
      FreePageListFormat.kFirstEntryOffset ≤ Span.size d0 →
      is_empty build l = true
      ∨ (is_empty build l = false
         ∧ ∃ d offset,
             slots pool !! head = Some (Resident d)
             ∧ FreePageListFormat.NextEntryOffset (size_bits build) d
               = Some offset
             ∧ page_size pool ≤ offset) →
      ∃ d', FreePageListFormat.NextEntryOffset (size_bits build) d'
            = Some FreePageListFormat.kFirstEntryOffset
            ∧ FreePageListFormat.NextPageId64 d' = Some head
            ∧ (∀ a c, FreePageListFormat.kFirstEntryOffset ≤ a →
                      Span.subspan d' a c = Span.subspan d0 a c)
            ∧ Push build l page_id pool
              = Some (kSuccess,
                      {| head_page_id_ := page_id;
                         tail_page_id_ := if is_empty build l then page_id
                                          else tail_page_id_ l;
                         tail_page_is_defined_ := tail_page_is_defined_ l;
                         was_merged_ := was_merged_ l |},
                      put_data page_id d'
                        (note_modify page_id
                           (note_fetch page_id kIgnorePageData
                              (if is_empty build l then pool
                               else note_fetch head kFetchPageData pool))))).
Proof.
  intros [Hid0 Hid1] Hm Hh head. pose proof (kInvalidPageId_range build) as HK.
  assert (page_id ≠ kInvalidPageId build) as Hne by lia.
  split.
  - intros d offset He [Hshift Hsize] Hs Ho Hlt Hc.
    pose proof (aligned_room pool offset ltac:(lia) Hc Hlt) as Hroom.
    destruct (page_size_fits build pool Hshift) as [_ Hfit].
    apply FormatFacts.IsCorruptEntryOffset_false in Hc as Hc'.
    destruct Hc' as [[Hlo _] _].
    rewrite <-(Hsize _ _ Hs) in Hroom.
    destruct (SpanFacts.StoreUint64_Some d page_id offset) as [d1 Hd1];
      [unfold FreePageListFormat.kFirstEntryOffset in *; lia | done |].
    destruct (SpanFacts.StoreUint64_inv _ _ _ _ Hd1) as (_ & _ & Hsz1).
    destruct (FormatFacts.SetNextEntryOffset_Some
                (to_size_t build (offset + FreePageListFormat.kEntrySize)) d1)
      as [d' Hd'];
      [unfold FreePageListFormat.kFirstEntryOffset,
         FreePageListFormat.kEntrySize in *; lia|].
    assert (to_size_t build (offset + FreePageListFormat.kEntrySize)
            = offset + FreePageListFormat.kEntrySize) as Hwrap.
    { apply to_size_t_small. rewrite (Hsize _ _ Hs) in Hroom.
      unfold FreePageListFormat.kFirstEntryOffset,
        FreePageListFormat.kEntrySize in *. lia. }
    exists d'. split; [|split; [|split]].
    + rewrite (FormatFacts.entries_SetNextEntryOffset _ _ _ _ _ Hd' Hlo).
      rewrite (SpanFacts.LoadUint64_StoreUint64 _ _ _ _ Hd1).
      f_equal. apply Z.mod_small. lia.
    + rewrite (FormatFacts.NextEntryOffset_SetNextEntryOffset _ _ _ _ Hd').
      rewrite Hwrap. f_equal.
      pose proof (to_size_t_range build (offset + FreePageListFormat.kEntrySize)) as Hr.
      rewrite Hwrap in Hr.
      rewrite (Z.mod_small _ (2 ^ 64)), Z.mod_small; [done|done|].
      destruct (size_bits_cases build) as [E | E]; rewrite E in Hr; lia.
    + rewrite (FormatFacts.NextPageId64_SetNextEntryOffset _ _ _ Hd').
      by rewrite (FormatFacts.NextPageId64_StoreUint64 _ _ _ _ Hd1 Hlo).
    + rewrite (Push_after_fetch build l page_id pool d offset Hne Hm He Hs Ho).
      rewrite (proj2 (Z.ltb_lt _ _) Hlt), Hc. op_run.
      by rewrite put_data_put_data.
  - intros d0 Hs0 Hsz0 Hcase.
    destruct Hcase as [He | (He & d & offset & Hs & Ho & Hfull)].
    + rewrite He, (Push_empty build l page_id pool Hne Hm He).
      pose proof (Push_new_head_resident build l page_id pool d0 Hs0 Hsz0) as H.
      rewrite He, Z.mod_small in H by lia. exact H.
    + rewrite He.
      rewrite (Push_after_fetch build l page_id pool d offset Hne Hm He Hs Ho).
      rewrite (proj2 (Z.ltb_ge _ _) Hfull).
      pose proof (Push_new_head_resident build l page_id
                    (note_fetch head kFetchPageData pool) d0 Hs0 Hsz0) as H.
      rewrite He, Z.mod_small in H by lia. exact H.
Qed.

(** C3 (as amended). [Push] returns a status other than success only when
    the fetch of the head page or of the pushed page reports that status,
    or when the head page's stored offset is below the page size and
    corrupt, in which case the status is data-corruption. *)
Theorem Push_failure_causes (build : Build) (l : FreePageList) (page_id : Z)
    (pool : PagePool) status l' pool' :
  Push build l page_id pool = Some (status, l', pool') → status ≠ kSuccess →
  (is_empty build l = false ∧ fetch_status pool (head_page_id_ l) = status)
  ∨ fetch_status pool page_id = status
  ∨ (status = kDataCorrupted ∧ is_empty build l = false
     ∧ ∃ d offset, slots pool !! head_page_id_ l = Some (Resident d)
         ∧ FreePageListFormat.NextEntryOffset (size_bits build) d = Some offset
         ∧ offset < page_size pool
         ∧ FreePageListFormat.IsCorruptEntryOffset offset (page_size pool)
           = true).
Proof.
  unfold Push, Push_new_head. intros H Hst.
  op_inv H; try done; op_facts; subst.
  - left. split; [|done]. unfold is_empty.
    by destruct (head_page_id_ l =? kInvalidPageId build).
  - right. right. split; [done|]. split.
    + unfold is_empty.
      by destruct (head_page_id_ l =? kInvalidPageId build).
    + match goal with H : ∀ page, Some _ = Some page → _ |- _ =>
        destruct (H _ eq_refl) as [-> _] end.
      eexists _, _. split; [done|]. split; [done|].
      split; [|done]. apply Z.ltb_lt. assumption.
  - right. left. done.
  - right. left. done.
Qed.


Lemma pool_of_ok (build : Build) (pages : list (Z * Slot)) :
  all_pages_sized pages = true → pool_ok build (pool_of pages).
Proof.
  intros Hall. split.
  - simpl. destruct (size_bits_cases build) as [-> | ->]; lia.
  - intros id d Hd. simpl in Hd. apply elem_of_list_to_map_2 in Hd.
    unfold all_pages_sized in Hall. rewrite forallb_forall in Hall.
    apply list_elem_of_In, Hall in Hd. simpl in Hd.
    apply Z.eqb_eq in Hd. by rewrite Hd.
Qed.

Lemma two_heads_pool_ok : pool_ok debug64 two_heads_pool.
Proof. apply pool_of_ok. reflexivity. Qed.

Lemma Push_list_witness :
  (∃ d', Span.LoadUint64 (Span.subspan d' 24 8) = Some 9
         ∧ FreePageListFormat.NextEntryOffset 64 d' = Some 32
         ∧ FreePageListFormat.NextPageId64 d' = Some (2 ^ 64 - 1)
         ∧ Push debug64 (single debug64 2 true) 9 two_heads_pool
           = Some (kSuccess, single debug64 2 true,
                   put_data 2 d'
                     (note_modify 2
                        (note_fetch 2 kFetchPageData two_heads_pool))))
  ∧ (∃ d', FreePageListFormat.NextEntryOffset 64 d' = Some 16
           ∧ FreePageListFormat.NextPageId64 d' = Some 1
           ∧ (∀ a c, 16 ≤ a → Span.subspan d' a c = Span.subspan blank_page a c)
           ∧ Push debug64 (single debug64 1 true) 2 (pool_with_offset 64)
             = Some (kSuccess,
                     {| head_page_id_ := 2; tail_page_id_ := 1;
                        tail_page_is_defined_ := true; was_merged_ := false |},
                     put_data 2 d'
                       (note_modify 2
                          (note_fetch 2 kIgnorePageData
                             (note_fetch 1 kFetchPageData
                                (pool_with_offset 64))))))
  ∧ (∃ d', FreePageListFormat.NextEntryOffset 64 d' = Some 16
           ∧ FreePageListFormat.NextPageId64 d' = Some (2 ^ 64 - 1)
           ∧ (∀ a c, 16 ≤ a → Span.subspan d' a c = Span.subspan blank_page a c)
           ∧ Push debug64 (new_list debug64 true) 2 blank_pool
             = Some (kSuccess, single debug64 2 true,
                     put_data 2 d'
                       (note_modify 2
                          (note_fetch 2 kIgnorePageData blank_pool)))).
Proof.
  split; [|split].
  - apply (proj1 (Push_list debug64 (single debug64 2 true) two_heads_pool 9
                    ltac:(split; reflexivity || discriminate) eq_refl
                    ltac:(split; discriminate))
             (page_image (2 ^ 64 - 1) 24 (Span.encode 8 7 ++ replicate 40 x00))
             24 eq_refl two_heads_pool_ok eq_refl eq_refl eq_refl eq_refl).
  - apply (proj2 (Push_list debug64 (single debug64 1 true)
                    (pool_with_offset 64) 2
                    ltac:(split; reflexivity || discriminate) eq_refl
                    ltac:(split; discriminate))
             blank_page eq_refl ltac:(discriminate)).
    right. split; [reflexivity|].
    exists (page_image (2 ^ 64 - 1) 64 (replicate 48 x00)), 64.
    repeat split; (reflexivity || discriminate).
  - apply (proj2 (Push_list debug64 (new_list debug64 true) blank_pool 2
                    ltac:(split; reflexivity || discriminate) eq_refl
                    ltac:(split; discriminate))
             blank_page eq_refl ltac:(discriminate)).
    left. reflexivity.
Defined.

(** C3 as stated fails: every fetch succeeds, yet [Push] reports
    data-corruption because the head page's offset is unaligned. *)
Lemma Push_fails_without_fetch_failure :
  valid_page_id debug64 2
  ∧ fetch_status (pool_with_offset 17) 1 = kSuccess
  ∧ fetch_status (pool_with_offset 17) 2 = kSuccess
  ∧ Push debug64 (single debug64 1 true) 2 (pool_with_offset 17)
    = Some (kDataCorrupted, single debug64 1 true,
            note_fetch 1 kFetchPageData (pool_with_offset 17)).
Proof. repeat split; (reflexivity || discriminate). Qed.

Lemma Push_failure_causes_witness :
  (is_empty debug64 (single debug64 5 true) = false
   ∧ fetch_status (pool_with_offset 16) 5 = kIoError)
  ∨ fetch_status (pool_with_offset 16) 2 = kIoError
  ∨ (kIoError = kDataCorrupted ∧ is_empty debug64 (single debug64 5 true) = false
     ∧ ∃ d offset,
         slots (pool_with_offset 16) !! head_page_id_ (single debug64 5 true)
         = Some (Resident d)
         ∧ FreePageListFormat.NextEntryOffset (size_bits debug64) d = Some offset
         ∧ offset < page_size (pool_with_offset 16)
         ∧ FreePageListFormat.IsCorruptEntryOffset offset
             (page_size (pool_with_offset 16)) = true).
Proof.
  apply (Push_failure_causes debug64 (single debug64 5 true) 2
           (pool_with_offset 16) kIoError (single debug64 5 true)
           (note_fetch 5 kFetchPageData (pool_with_offset 16)));
    [vm_compute; reflexivity | discriminate].
Defined.

(** * Corrupt offsets *)

Section CorruptionFacts.
Import Span SpanFacts FreePageListFormat FormatFacts.
Variable build : Build.

(** A corrupt stored offset other than [page_size + kEntrySize] is still
    corrupt after [Pop] has decremented it in [size_t] arithmetic. *)
Lemma decremented_offset_corrupt (pool : PagePool) (offset : Z) :
  4 ≤ page_shift pool < size_bits build →
  0 ≤ offset < 2 ^ size_bits build →
  IsCorruptEntryOffset offset (page_size pool) = true →
  offset ≠ page_size pool + kEntrySize →
  IsCorruptEntryOffset (to_size_t build (offset - kEntrySize))
    (page_size pool) = true.
Proof.
  intros Hshift Hrange Hc Hne.
  destruct (page_size_fits build pool Hshift) as [Hlo Hfit].
  destruct (page_size_multiple pool ltac:(lia)) as (m & Hm & Hps).
  apply IsCorruptEntryOffset_true in Hc. apply IsCorruptEntryOffset_true.
  unfold to_size_t, kFirstEntryOffset, kEntrySize in *.
  destruct (decide (offset < 8)) as [Hsmall | Hbig].
  - right. left.
    rewrite <-(Z.mod_add _ 1) by lia. rewrite Z.mod_small by lia. lia.
  - rewrite Z.mod_small by lia.
    destruct Hc as [Hc | [Hc | Hc]].
    + left. lia.
    + destruct (decide ((offset - 16) mod 8 = 0)) as [Hal | Hal].
      * right. left. apply Z.mod_divide in Hal as [q Hq]; [|done]. lia.
      * right. right. intros Hal'. apply Hal.
        apply Z.mod_divide in Hal' as [q Hq]; [|done].
        apply Z.mod_divide; [done|]. exists (q + 1). lia.
    + right. right. intros Hal'. apply Hc.
      apply Z.mod_divide in Hal' as [q Hq]; [|done].
      apply Z.mod_divide; [done|]. exists (q + 1). lia.
Qed.

(** [Merge] with a non-empty source and successful fetches reports
    data-corruption when either head page's stored offset is corrupt. *)
Lemma Merge_corrupt_head l other pool d od offset other_offset :
  pool_ok build pool →
  was_merged_ l = false → was_merged_ other = false →
  tail_page_is_defined_ other = true → is_empty build other = false →
  slots pool !! head_page_id_ l = Some (Resident d) →
  slots pool !! head_page_id_ other = Some (Resident od) →
  (tail_page_id_ other = head_page_id_ other
   ∨ ∃ td, slots pool !! tail_page_id_ other = Some (Resident td)) →
  NextEntryOffset (size_bits build) d = Some offset →
  NextEntryOffset (size_bits build) od = Some other_offset →
  IsCorruptEntryOffset offset (page_size pool)
  || IsCorruptEntryOffset other_offset (page_size pool) = true →
  ∃ pool',
    Merge build l other pool
    = Some (kDataCorrupted, l,
            if check_is_on build then set_was_merged other true else other,
            pool').
Proof.
  intros [Hshift Hsize] Hml Hmo Htd He Hs Hso Htail Ho Hoo Hc.
  destruct (page_size_fits build pool Hshift) as [Hps _].
  destruct (NextPageId64_Some d) as [v Hv];
    [rewrite (Hsize _ _ Hs); lia|].
  destruct (NextPageId64_Some od) as [w Hw];
    [rewrite (Hsize _ _ Hso); lia|].
  unfold Merge. rewrite Hml, Hmo, Htd. op_run.
  assert (is_empty build
            (if check_is_on build then set_was_merged other true else other)
          = false) as ->
    by (by destruct (check_is_on build)).
  replace (head_page_id_
             (if check_is_on build then set_was_merged other true else other))
    with (head_page_id_ other) by (by destruct (check_is_on build)).
  replace (tail_page_id_
             (if check_is_on build then set_was_merged other true else other))
    with (tail_page_id_ other) by (by destruct (check_is_on build)).
  op_run.
  destruct (tail_page_id_ other =? head_page_id_ other) eqn:Etail;
    cbn [negb].
  - unfold Merge_head_pages. op_run.
    change (page_size _) with (page_size pool). rewrite Hc. eauto.
  - destruct Htail as [Htail | [td Htd']];
      [apply Z.eqb_neq in Etail; done|].
    apply Z.eqb_neq in Etail.
    destruct (SetNextPageId64_Some v td) as [td' Hset];
      [rewrite (Hsize _ _ Htd'); lia|].
    assert (<[tail_page_id_ other := Resident td']> (slots pool)
              !! head_page_id_ other = Some (Resident od)) as Hso'
      by (by rewrite lookup_insert_ne).
    assert (∃ d', <[tail_page_id_ other := Resident td']> (slots pool)
                    !! head_page_id_ l = Some (Resident d')
                  ∧ NextEntryOffset (size_bits build) d' = Some offset)
      as (d' & Hs' & Ho').
    { destruct (decide (tail_page_id_ other = head_page_id_ l)) as [E | E].
      - exists td'. rewrite E, lookup_insert_eq. split; [done|].
        rewrite (NextEntryOffset_SetNextPageId64 _ _ _ _ Hset).
        rewrite E, Hs in Htd'. by injection Htd' as <-.
      - exists d. by rewrite lookup_insert_ne. }
    op_run. unfold Merge_head_pages. op_run.
    change (page_size _) with (page_size pool). rewrite Hc. eauto.
Qed.

(** A sound offset below the page size addresses a whole entry. *)
Lemma entry_read_defined (pool : PagePool) (d : list byte) (offset : Z) :
  4 ≤ page_shift pool → size d = page_size pool →
  IsCorruptEntryOffset offset (page_size pool) = false →
  offset < page_size pool →
  ∃ v, LoadUint64 (subspan d offset 8) = Some v.
Proof.
  intros Hk Hsz Hc Hlt. pose proof (aligned_room pool offset Hk Hc Hlt) as Hr.
  apply IsCorruptEntryOffset_false in Hc as [[Hlo _] _].
  apply LoadUint64_subspan_Some;
    unfold kFirstEntryOffset, kEntrySize in *; lia.
Qed.

(** The decremented offset reaches the page size only from the stored
    offset [page_size + kEntrySize]. *)
Lemma decremented_offset_at_end (pool : PagePool) (offset : Z) :
  4 ≤ page_shift pool < size_bits build →
  0 ≤ offset < 2 ^ size_bits build →
  to_size_t build (offset - kEntrySize) = page_size pool →
  offset = page_size pool + kEntrySize.
Proof.
  intros Hshift Hrange.
  destruct (page_size_fits build pool Hshift) as [Hlo Hfit].
  unfold to_size_t, kFirstEntryOffset, kEntrySize in *.
  destruct (decide (offset < 8)) as [Hsmall | Hbig].
  - rewrite <-(Z.mod_add _ 1) by lia. rewrite Z.mod_small by lia. lia.
  - rewrite Z.mod_small by lia. lia.
Qed.

(** [Pop] is defined on every fetched head page, whatever its content,
    unless the stored offset is [page_size + kEntrySize]. *)
Lemma Pop_defined l pool d offset :
  pool_ok build pool →
  is_empty build l = false → was_merged_ l = false →
  slots pool !! head_page_id_ l = Some (Resident d) →
  NextEntryOffset (size_bits build) d = Some offset →
  offset ≠ page_size pool + kEntrySize →
  ∃ r, Pop build l pool = Some r.
Proof.
  intros [Hshift Hsize] He Hm Hs Ho Hne.
  destruct (page_size_fits build pool Hshift) as [Hps _].
  pose proof (Hsize _ _ Hs) as Hsz.
  assert (0 ≤ offset < 2 ^ size_bits build) as Hrange.
  { eapply NextEntryOffset_range; [|done].
    destruct (size_bits_cases build) as [-> | ->]; lia. }
  rewrite (Pop_after_fetch build l pool d offset He Hm Hs Ho).
  destruct (offset =? kFirstEntryOffset).
  - destruct (NextPageId64_Some d ltac:(lia)) as [v Hv]. op_run.
    destruct (negb _); eauto.
  - cbv beta zeta.
    destruct (IsCorruptEntryOffset _ _) eqn:Hc; [eauto|].
    destruct (entry_read_defined pool d _ ltac:(lia) Hsz Hc) as [v Hv].
    { apply IsCorruptEntryOffset_false in Hc as [[_ Hle] _].
      destruct (decide (to_size_t build (offset - kEntrySize)
                        = page_size pool)) as [E | E]; [|lia].
      by apply decremented_offset_at_end in E. }
    destruct (SetNextEntryOffset_Some
                (to_size_t build (offset - kEntrySize)) d ltac:(lia))
      as [d' Hd'].
    op_run. destruct (negb _); [eauto|]. op_run. eauto.
Qed.

(** At the stored offset [page_size + kEntrySize] the decremented offset
    passes the check and the entry read leaves the buffer. *)
Lemma Pop_offset_beyond_end_undefined l pool d :
  pool_ok build pool →
  is_empty build l = false → was_merged_ l = false →
  slots pool !! head_page_id_ l = Some (Resident d) →
  NextEntryOffset (size_bits build) d = Some (page_size pool + kEntrySize) →
  Pop build l pool = None.
Proof.
  intros [Hshift Hsize] He Hm Hs Ho.
  destruct (page_size_fits build pool Hshift) as [Hps Hfit].
  destruct (page_size_multiple pool ltac:(lia)) as (m & Hm2 & Hmul).
  rewrite (Pop_after_fetch build l pool d _ He Hm Hs Ho).
  assert (to_size_t build (page_size pool + kEntrySize - kEntrySize)
          = page_size pool) as ->
    by (replace (page_size pool + kEntrySize - kEntrySize)
          with (page_size pool) by lia;
        apply to_size_t_small; unfold kEntrySize in *; lia).
  rewrite (proj2 (Z.eqb_neq _ _)) by (unfold kFirstEntryOffset, kEntrySize in *; lia).
  cbv beta zeta.
  assert (IsCorruptEntryOffset (page_size pool) (page_size pool) = false) as ->.
  { apply IsCorruptEntryOffset_false. split; [lia|].
    apply Z.mod_divide; [done|]. exists (m - 2).
    unfold kFirstEntryOffset, kEntrySize in *. lia. }
  rewrite bind_unfold.
  erewrite read_resident_None; [done | simpl; eauto |].
  rewrite subspan_None; [done|]. rewrite (Hsize _ _ Hs). lia.
Qed.

End CorruptionFacts.

(** By design, [Push] takes a head page whose stored offset lies beyond the
    page size for full: it succeeds and makes the pushed page the new
    head. *)
Lemma Push_accepts_offset_beyond_page_size :
  FreePageListFormat.NextEntryOffset 64
    (page_image (2 ^ 64 - 1) 72 (replicate 48 x00)) = Some 72
  ∧ FreePageListFormat.IsCorruptEntryOffset 72 (page_size (pool_with_offset 72))
    = true
  ∧ ∃ pool',
      Push debug64 (single debug64 1 true) 2 (pool_with_offset 72)
      = Some (kSuccess,
              {| head_page_id_ := 2; tail_page_id_ := 1;
                 tail_page_is_defined_ := true; was_merged_ := false |},
              pool').
Proof.
  split; [reflexivity|]. split; [reflexivity|].
  eexists. vm_compute. reflexivity.
Qed.

(** The one corrupt offset [Pop] does not catch: at [page_size + kEntrySize]
    the decremented offset passes the check and the entry read falls
    outside the page buffer. *)
Example Pop_reads_beyond_page_end :
  Pop debug64 (single debug64 1 true) (pool_with_offset 72) = None.
Proof. reflexivity. Qed.

(** C2.  A head page of [page_size] = 64 bytes whose stored offset is 72,
    one entry beyond the page: the offset is out of range, so the page is
    corrupt.  [Pop] validates the offset only after taking one entry off it;
    64 passes that check, the entry view at bytes 64..71 falls outside the
    buffer, and the run is undefined -- no data-corruption status comes
    back.  One entry further, at 80, [Pop] does report data corruption. *)
Theorem Pop_corrupt_offset_reads_out_of_bounds :
  slots (pool_with_offset 72) !! 1
  = Some (Resident (page_image (2 ^ 64 - 1) 72 (replicate 48 x00)))
  ∧ Span.size (page_image (2 ^ 64 - 1) 72 (replicate 48 x00))
    = page_size (pool_with_offset 72)
  ∧ FreePageListFormat.NextEntryOffset (size_bits debug64)
      (page_image (2 ^ 64 - 1) 72 (replicate 48 x00)) = Some 72
  ∧ FreePageListFormat.IsCorruptEntryOffset 72 (page_size (pool_with_offset 72))
    = true
  ∧ FreePageListFormat.IsCorruptEntryOffset
      (to_size_t debug64 (72 - FreePageListFormat.kEntrySize))
      (page_size (pool_with_offset 72))
    = false
  ∧ Span.subspan (page_image (2 ^ 64 - 1) 72 (replicate 48 x00))
      (to_size_t debug64 (72 - FreePageListFormat.kEntrySize)) 8
    = None
  ∧ Pop debug64 (single debug64 1 true) (pool_with_offset 72) = None
  ∧ Pop debug64 (single debug64 1 true) (pool_with_offset 80)
    = Some (kDataCorrupted, kInvalidPageId debug64, single debug64 1 true,
            note_fetch 1 kFetchPageData (pool_with_offset 80)).
Proof. repeat split; vm_compute; reflexivity. Qed.

(** Corruption detection as far as the code has it.  On a pool whose pages
    all have [page_size] bytes:
    [Pop] reports data-corruption for a corrupt stored offset of the head
    page other than [page_size + kEntrySize]; [Push] reports it for a
    corrupt offset below the page size, and for one above it takes the page
    for full and makes the fetched pushed page the new head; [Merge] with a
    non-empty source reports it when the stored offset of either head page
    is corrupt.  Each of these runs is defined: no access leaves a page
    buffer. *)
Theorem corrupt_offset_detection (build : Build) (pool : PagePool) :
  pool_ok build pool →
  (∀ l d offset,
      was_merged_ l = false → is_empty build l = false →
      slots pool !! head_page_id_ l = Some (Resident d) →
      FreePageListFormat.NextEntryOffset (size_bits build) d = Some offset →
      FreePageListFormat.IsCorruptEntryOffset offset (page_size pool) = true →
      offset ≠ page_size pool + FreePageListFormat.kEntrySize →
      Pop build l pool
      = Some (kDataCorrupted, kInvalidPageId build, l,
              note_fetch (head_page_id_ l) kFetchPageData pool))
  ∧ (∀ l d offset page_id,
      was_merged_ l = false → is_empty build l = false →
      page_id ≠ kInvalidPageId build →
      slots pool !! head_page_id_ l = Some (Resident d) →
      FreePageListFormat.NextEntryOffset (size_bits build) d = Some offset →
      FreePageListFormat.IsCorruptEntryOffset offset (page_size pool) = true →
      (offset < page_size pool →
       Push build l page_id pool
       = Some (kDataCorrupted, l,
               note_fetch (head_page_id_ l) kFetchPageData pool))
      ∧ (page_size pool < offset →
         ∀ d0, slots pool !! page_id = Some (Resident d0) →
           ∃ pool',
             Push build l page_id pool
             = Some (kSuccess,
                     {| head_page_id_ := page_id;
                        tail_page_id_ := tail_page_id_ l;
                        tail_page_is_defined_ := tail_page_is_defined_ l;
                        was_merged_ := was_merged_ l |},
                     pool')))
  ∧ (∀ l other d od offset other_offset,
      was_merged_ l = false → was_merged_ other = false →
      tail_page_is_defined_ other = true → is_empty build other = false →
      slots pool !! head_page_id_ l = Some (Resident d) →
      slots pool !! head_page_id_ other = Some (Resident od) →
      (tail_page_id_ other = head_page_id_ other
       ∨ ∃ td, slots pool !! tail_page_id_ other = Some (Resident td)) →
      FreePageListFormat.NextEntryOffset (size_bits build) d = Some offset →
      FreePageListFormat.NextEntryOffset (size_bits build) od
      = Some other_offset →
      FreePageListFormat.IsCorruptEntryOffset offset (page_size pool) = true
      ∨ FreePageListFormat.IsCorruptEntryOffset other_offset (page_size pool)
        = true →
      ∃ pool',
        Merge build l other pool
        = Some (kDataCorrupted, l,
                if check_is_on build then set_was_merged other true else other,
                pool')).
Proof.
  intros Hok. pose proof Hok as [Hshift Hsize]. split; [|split].
  - intros l d offset Hm He Hs Ho Hc Hne.
    assert (offset ≠ FreePageListFormat.kFirstEntryOffset) as Hfirst.
    { intros ->. destruct (page_size_fits build pool Hshift) as [Hps _].
      apply FormatFacts.IsCorruptEntryOffset_true in Hc.
      unfold FreePageListFormat.kFirstEntryOffset,
        FreePageListFormat.kEntrySize in *.
      rewrite Z.sub_diag, Z.mod_0_l in Hc by lia. lia. }
    rewrite (Pop_after_fetch build l pool d offset He Hm Hs Ho).
    rewrite (proj2 (Z.eqb_neq _ _) Hfirst). cbv beta zeta iota.
    rewrite decremented_offset_corrupt; try done.
    eapply FormatFacts.NextEntryOffset_range; [|done].
    destruct (size_bits_cases build) as [-> | ->]; lia.
  - intros l d offset page_id Hm He Hid Hs Ho Hc.
    rewrite (Push_after_fetch build l page_id pool d offset Hid Hm He Hs Ho).
    split.
    + intros Hlt. by rewrite (proj2 (Z.ltb_lt _ _) Hlt), Hc.
    + intros Hgt d0 Hs0. rewrite (proj2 (Z.ltb_ge _ _)) by lia.
      destruct (page_size_fits build pool Hshift) as [Hps _].
      destruct (Push_new_head_resident build l page_id
                  (note_fetch (head_page_id_ l) kFetchPageData pool) d0 Hs0)
        as (d' & _ & _ & _ & HPush);
        [rewrite (Hsize _ _ Hs0); lia|].
      rewrite He in HPush. eauto.
  - intros l other d od offset other_offset Hml Hmo Htd He Hs Hso Htail Ho Hoo Hc.
    eapply Merge_corrupt_head; try done.
    apply orb_true_iff. done.
Qed.

Lemma pool_with_offset_ok (next_entry_offset : Z) :
  pool_ok debug64 (pool_with_offset next_entry_offset).
Proof. apply pool_of_ok. reflexivity. Qed.

Lemma corrupt_offset_detection_witness :
  Pop debug64 (single debug64 1 true) (pool_with_offset 17)
  = Some (kDataCorrupted, 2 ^ 64 - 1, single debug64 1 true,
          note_fetch 1 kFetchPageData (pool_with_offset 17))
  ∧ Push debug64 (single debug64 1 true) 2 (pool_with_offset 17)
    = Some (kDataCorrupted, single debug64 1 true,
            note_fetch 1 kFetchPageData (pool_with_offset 17))
  ∧ (∃ pool',
       Push debug64 (single debug64 1 true) 2 (pool_with_offset 72)
       = Some (kSuccess,
               {| head_page_id_ := 2; tail_page_id_ := 1;
                  tail_page_is_defined_ := true; was_merged_ := false |},
               pool'))
  ∧ ∃ pool',
      Merge debug64 (single debug64 1 false) (single debug64 2 true)
        (pool_with_offset 17)
      = Some (kDataCorrupted, single debug64 1 false,
              set_was_merged (single debug64 2 true) true, pool').
Proof.
  pose proof (corrupt_offset_detection debug64 (pool_with_offset 17)
                (pool_with_offset_ok 17)) as (HPop & HPush & HMerge).
  pose proof (corrupt_offset_detection debug64 (pool_with_offset 72)
                (pool_with_offset_ok 72)) as (_ & HPush' & _).
  split; [|split; [|split]].
  - apply (HPop (single debug64 1 true)
             (page_image (2 ^ 64 - 1) 17 (replicate 48 x00)) 17);
      reflexivity || discriminate.
  - apply (proj1 (HPush (single debug64 1 true)
                    (page_image (2 ^ 64 - 1) 17 (replicate 48 x00)) 17 2
                    eq_refl eq_refl ltac:(discriminate) eq_refl eq_refl
                    eq_refl)).
    reflexivity.
  - apply (proj2 (HPush' (single debug64 1 true)
                    (page_image (2 ^ 64 - 1) 72 (replicate 48 x00)) 72 2
                    eq_refl eq_refl ltac:(discriminate) eq_refl eq_refl
                    eq_refl) eq_refl blank_page eq_refl).
  - apply (HMerge (single debug64 1 false) (single debug64 2 true)
             (page_image (2 ^ 64 - 1) 17 (replicate 48 x00)) blank_page 17 0);
      try reflexivity.
    + left. reflexivity.
    + left. reflexivity.
Defined.

(** * Merge and the ids it keeps *)

(** When both lists are single pages and everything fits into this list's
    head page, the merged list yields the ids of both. *)
Example Merge_single_pages_conserves :
  merge_report scenario_C
  = Some ([3; 2; 1], [12; 11; 10], kSuccess, [12; 11; 10; 3; 2; 1])
  ∧ Permutation [12; 11; 10; 3; 2; 1] ([3; 2; 1] ++ [12; 11; 10]).
Proof.
  split; [vm_compute; reflexivity|].
  apply (Permutation_app_comm [12; 11; 10] [3; 2; 1]).
Qed.

(** C1 fails on the code.  In scenario A the source list has a second, full
    page and its head page fits into this list's head page.  Step 1 links
    the source's tail to this list's chain and computes the new chain head,
    but nothing stores that chain head: the merge succeeds, and draining
    this list afterwards yields only the source's head page id and this
    list's own page -- the full page 10 and the six ids it holds are gone. *)
Theorem Merge_fitting_head_drops_spliced_chain :
  merge_report scenario_A
  = Some ([1], [17; 16; 15; 14; 13; 12; 11; 10], kSuccess, [17; 1])
  ∧ ¬ Permutation [17; 1] ([1] ++ [17; 16; 15; 14; 13; 12; 11; 10]).
Proof.
  split; [vm_compute; reflexivity|].
  intros Hperm. apply Permutation_length in Hperm. discriminate.
Qed.

(** The pages of scenario A after the merge: page 1 has taken the entry
    17 and still has no successor, page 17 still names page 10, and page 10
    ends the chain -- no page reachable from page 1 leads to page 10. *)
Example Merge_fitting_head_leaves_chain_unlinked :
  merge_trace scenario_A 1 17 10
  = Some ({| head_page_id_ := 1; tail_page_id_ := 1;
             tail_page_is_defined_ := false; was_merged_ := false |},
          {| head_page_id_ := 17; tail_page_id_ := 10;
             tail_page_is_defined_ := true; was_merged_ := false |},
          (Some (2 ^ 64 - 1, 24), Some (10, 16), Some (2 ^ 64 - 1, 64))).
Proof. vm_compute. reflexivity. Qed.

(** The same dead chain head shows when the heads do not fit and the source
    is a single page: this list's head is linked to the source's head page,
    whose successor stays the sentinel, so this list's own full page 1 and
    its ids are lost. *)
Example Merge_overflowing_head_drops_own_chain :
  merge_report scenario_B
  = Some ([15; 14; 13; 9; 8; 7; 6; 5; 4; 3; 2; 1], [12; 11; 10], kSuccess,
          [8; 15; 14; 13; 9; 12; 11; 10])
  ∧ ¬ Permutation [8; 15; 14; 13; 9; 12; 11; 10]
        ([15; 14; 13; 9; 8; 7; 6; 5; 4; 3; 2; 1] ++ [12; 11; 10]).
Proof.
  split; [vm_compute; reflexivity|].
  intros Hperm. apply Permutation_length in Hperm. discriminate.
Qed.

(** * What the operations touch *)

Lemma touched_refl pool : touched [] [] pool pool.
Proof. by repeat split. Qed.

Lemma touched_note_fetch fetched notified pool pool' id mode :
  touched fetched notified pool pool' →
  touched ((id, mode) :: fetched) notified pool (note_fetch id mode pool').
Proof. intros (? & Hf & ? & ?). repeat split; simpl; try done. by rewrite Hf. Qed.

Lemma touched_note_modify fetched notified pool pool' page :
  touched fetched notified pool pool' →
  touched fetched (page :: notified) pool (note_modify page pool').
Proof.
  intros (? & ? & Hn & Hs). repeat split; simpl; try done.
  - by rewrite Hn.
  - intros p Hp. apply Hs. set_solver.
Qed.

Lemma touched_put_data fetched notified pool pool' page d :
  touched fetched notified pool pool' → page ∈ notified →
  touched fetched notified pool (put_data page d pool').
Proof.
  intros (? & ? & ? & Hs) Hin. repeat split; simpl; try done.
  intros p Hp. rewrite lookup_insert_ne by (intros ->; done). by apply Hs.
Qed.

Ltac touched_solve :=
  lazymatch goal with
  | |- touched _ _ ?p ?p => apply touched_refl
  | |- touched _ _ _ (note_fetch _ _ _) =>
      apply touched_note_fetch; touched_solve
  | |- touched _ _ _ (note_modify _ _) =>
      apply touched_note_modify; touched_solve
  | |- touched _ _ _ (put_data _ _ _) =>
      apply touched_put_data; [touched_solve | set_solver]
  end.

Ltac use_raw_page :=
  repeat match goal with
    | H : ∀ page, Some _ = Some page → _ |- _ =>
        destruct (H _ eq_refl) as [-> _]; clear H
    | H : ∀ page, None = Some page → _ |- _ => clear H
    end.

(** Inverts every run in the context, also those of nested branches. *)
Ltac op_inv_all :=
  repeat match goal with
    | H : (_ ≫= _) _ = Some _ |- _ => apply bind_inv in H as (? & ? & ? & H)
    | H : (if ?b then _ else _) _ = Some _ |- _ => destruct b eqn:?
    | H : mret _ _ = Some _ |- _ => apply mret_inv in H; simplify_eq
    | H : (let '(_, _) := ?x in _) _ = Some _ |- _ => destruct x
    end.

Ltac sublist_solve :=
  repeat first
    [ reflexivity
    | apply sublist_nil_l
    | apply sublist_skip
    | apply sublist_cons ].

Section S.
Variable build : Build.

(** X1. Whatever [Pop] returns, it has fetched at most the head page, for
  reading, and has announced a change to at most that page; the buffers of
  all other pages are as before.  When the status is not success, no
  change was announced, no buffer differs, and the id returned is the
  sentinel. *)
Lemma Pop_touched l pool status page_id l' pool' :
Pop build l pool = Some (status, page_id, l', pool') →
∃ fetched notified,
  touched fetched notified pool pool'
  ∧ fetched `sublist_of` [(head_page_id_ l, kFetchPageData)]
  ∧ notified `sublist_of` [head_page_id_ l]
  ∧ (status ≠ kSuccess → notified = [] ∧ page_id = kInvalidPageId build).
Proof.
unfold Pop. intros H. op_inv H; op_facts; subst; use_raw_page.
all: eexists _, _; (split; [touched_solve|]).
all: repeat split; try done; sublist_solve.
Qed.

(** X5. Whatever [Push] returns, it has fetched at most the head page, for
  reading, and the pushed page, without reading it, and has announced a
  change to exactly one of the two or to none; the buffers of all other
  pages are as before.  When the status is not success, no change was
  announced and no buffer differs. *)
Lemma Push_touched l pushed pool status l' pool' :
Push build l pushed pool = Some (status, l', pool') →
∃ fetched notified,
  touched fetched notified pool pool'
  ∧ fetched `sublist_of` [(pushed, kIgnorePageData);
                          (head_page_id_ l, kFetchPageData)]
  ∧ (notified = [] ∨ notified = [head_page_id_ l] ∨ notified = [pushed])
  ∧ (status ≠ kSuccess → notified = []).
Proof.
unfold Push, Push_new_head. intros H. op_inv H; op_facts; subst; use_raw_page.
all: eexists _, _; (split; [touched_solve|]).
all: repeat split; try done; try sublist_solve; auto.
Qed.

(** X9. Whatever [Merge] returns, it has fetched at most the two head pages
  and the source's tail page, all for reading, and has announced changes
  to at most these three pages; the buffers of all other pages are as
  before.  When the status is not success, at most the source's tail page
  was changed.  Merging an empty source succeeds and leaves the pool
  untouched. *)
Lemma Merge_touched l other pool status l' other' pool' :
Merge build l other pool = Some (status, l', other', pool') →
∃ fetched notified,
  touched fetched notified pool pool'
  ∧ fetched `sublist_of` [(tail_page_id_ other, kFetchPageData);
                          (head_page_id_ other, kFetchPageData);
                          (head_page_id_ l, kFetchPageData)]
  ∧ notified `sublist_of` [head_page_id_ other; head_page_id_ l;
                           tail_page_id_ other]
  ∧ (status ≠ kSuccess → notified `sublist_of` [tail_page_id_ other])
  ∧ (is_empty build other = true → status = kSuccess ∧ pool' = pool).
Proof.
unfold Merge, Merge_head_pages, is_empty. intros H.
destruct (check_is_on build) eqn:Hcheck;
  cbn [set_was_merged head_page_id_ tail_page_id_] in H.
all: op_inv H; op_inv_all; op_facts;
  repeat match goal with
    | H : data _ _ = Some _ |- _ => apply data_inv in H as [? ->]
    end;
  op_facts; subst; use_raw_page.
all: eexists _, _; (split; [touched_solve|]).
all: repeat split; try done; try congruence; try intros _; sublist_solve.
Qed.
End S.

(** * Memory safety *)

Lemma page_size_put_data page d pool :
  page_size (put_data page d pool) = page_size pool.
Proof. reflexivity. Qed.

Lemma page_size_note_modify page pool :
  page_size (note_modify page pool) = page_size pool.
Proof. reflexivity. Qed.

Lemma page_size_note_fetch page mode pool :
  page_size (note_fetch page mode pool) = page_size pool.
Proof. reflexivity. Qed.

Ltac page_size_norm :=
  rewrite ?page_size_put_data, ?page_size_note_modify, ?page_size_note_fetch.

Section Safety.
Import Span SpanFacts FreePageListFormat FormatFacts.
Variable build : Build.

Lemma StorePage_cases id mode pool :
  sound_failures pool →
  (∃ status, failed status = true
     ∧ StorePage id mode pool
       = Some (status, None, note_fetch id mode pool))
  ∨ (resident pool id
     ∧ StorePage id mode pool
       = Some (kSuccess, Some id, note_fetch id mode pool)).
Proof.
  intros Hsound. unfold StorePage, resident.
  pose proof (Hsound id) as Hid.
  destruct (slots pool !! id) as [[d|status]|]; [right; eauto| |].
  - left. exists status. split; [|done]. by destruct status.
  - left. by exists kIoError.
Qed.

Lemma pool_ok_put_data pool page d :
  pool_ok build pool → size d = page_size pool →
  pool_ok build (put_data page d pool).
Proof.
  intros [Hshift Hsize] Hd. split; [done|].
  intros id d' Hl. simpl in Hl.
  destruct (decide (page = id)) as [-> | Hne].
  - rewrite lookup_insert_eq in Hl. by injection Hl as <-.
  - rewrite lookup_insert_ne in Hl by done. by apply Hsize in Hl.
Qed.

Lemma resident_put_data pool page d p :
  resident pool p → resident (put_data page d pool) p.
Proof.
  intros [dp Hp]. unfold resident. simpl.
  destruct (decide (page = p)) as [-> | Hne].
  - rewrite lookup_insert_eq. eauto.
  - rewrite lookup_insert_ne by done. eauto.
Qed.

(** A read through a resident page of a well-formed pool: it is enough
    that the accessor is defined on buffers of [page_size] bytes. *)
Lemma read_sized {A} pool page (f : list byte → option A) (Q : A → Prop) :
  pool_ok build pool → resident pool page →
  (∀ d, size d = page_size pool → ∃ a, f d = Some a ∧ Q a) →
  ∃ a, read page f pool = Some (a, pool) ∧ Q a.
Proof.
  intros [_ Hsize] [d Hd] Hf.
  destruct (Hf d (Hsize _ _ Hd)) as (a & Ha & HQ).
  exists a. split; [|done]. by apply (read_resident _ _ _ d).
Qed.

Lemma data_sized pool page :
  pool_ok build pool → resident pool page →
  ∃ d, data page pool = Some (d, pool) ∧ size d = page_size pool.
Proof.
  intros [_ Hsize] [d Hd]. exists d. unfold data. rewrite Hd.
  split; [done|]. by apply (Hsize page).
Qed.

(** A write through a resident page: it is enough that the update is
    defined on buffers of [page_size] bytes and keeps their size. *)
Lemma mutate_sized pool page f :
  pool_ok build pool → resident pool page →
  (∀ d, size d = page_size pool → ∃ d', f d = Some d' ∧ size d' = size d) →
  ∃ pool', mutate page f pool = Some (tt, pool')
           ∧ pool_ok build pool'
           ∧ page_size pool' = page_size pool
           ∧ (∀ p, resident pool p → resident pool' p).
Proof.
  intros Hok [d Hd] Hf. pose proof Hok as [_ Hsize].
  destruct (Hf d (Hsize _ _ Hd)) as (d' & Hd' & Hsz).
  exists (put_data page d' pool). split; [by apply (mutate_resident _ _ _ d)|].
  split; [|split; [done|]].
  - apply pool_ok_put_data; [done|]. rewrite Hsz. by apply (Hsize page).
  - intros p. apply resident_put_data.
Qed.

Lemma StoreUint64_sized (value offset : Z) (d : list byte) :
  0 ≤ offset → offset + 8 ≤ size d →
  ∃ d', StoreUint64 value d offset = Some d' ∧ size d' = size d.
Proof.
  intros Ho Hs. destruct (StoreUint64_Some d value offset Ho Hs) as [d' Hd'].
  exists d'. split; [done|]. by apply StoreUint64_inv in Hd' as (_ & _ & ?).
Qed.

Lemma CopySpan_sized (src d : list byte) (from to count : Z) :
  0 ≤ from → 0 ≤ count → from + count ≤ size src →
  0 ≤ to → to + count ≤ size d →
  ∃ d', CopySpan (subspan src from count) d to = Some d' ∧ size d' = size d.
Proof.
  intros Hf Hc Hs Ht Hd.
  pose proof (subspan_Some src from count Hf Hc Hs) as Hsub.
  pose proof (length_subspan _ _ _ _ Hsub) as Hlen.
  rewrite Hsub. unfold CopySpan.
  rewrite overwrite_Some; [| done | unfold size in *; lia].
  eexists. split; [done|].
  eapply size_overwrite. apply overwrite_Some; [done|unfold size in *; lia].
Qed.

End Safety.

(** Steps through the next write of a run on a well-formed pool. *)
Ltac sized_step :=
  rewrite ?bind_unfold;
  lazymatch goal with
  | |- context [mutate ?page ?f ?pool] =>
      lazymatch goal with
      | H : pool_ok ?b pool |- _ =>
          let pool' := fresh "pool" in
          let Hok := fresh "Hok" in
          let Hps := fresh "Hps" in
          let Hres := fresh "Hres" in
          let E := fresh "E" in
          destruct (mutate_sized b pool page f H)
            as (pool' & E & Hok & Hps & Hres);
          [ eauto | | rewrite E; clear E ]
      end
  end.

Section Safety2.
Import Span SpanFacts FreePageListFormat FormatFacts.
Variable build : Build.


Lemma SetNextEntryOffset_sized pool offset d :
  pool_ok build pool → size d = page_size pool →
  ∃ d', SetNextEntryOffset offset d = Some d' ∧ size d' = size d.
Proof.
  intros [Hshift _] Hsz.
  destruct (page_size_fits build pool Hshift) as [Hps _].
  destruct (SetNextEntryOffset_Some offset d ltac:(lia)) as [d' Hd'].
  exists d'. split; [done|]. by apply size_SetNextEntryOffset in Hd'.
Qed.

Lemma SetNextPageId64_sized pool id d :
  pool_ok build pool → size d = page_size pool →
  ∃ d', SetNextPageId64 id d = Some d' ∧ size d' = size d.
Proof.
  intros [Hshift _] Hsz.
  destruct (page_size_fits build pool Hshift) as [Hps _].
  destruct (SetNextPageId64_Some id d ltac:(lia)) as [d' Hd'].
  exists d'. split; [done|]. by apply size_SetNextPageId64 in Hd'.
Qed.

Lemma NextEntryOffset_sized pool d :
  pool_ok build pool → size d = page_size pool →
  ∃ offset, NextEntryOffset (size_bits build) d = Some offset
            ∧ 0 ≤ offset < 2 ^ size_bits build.
Proof.
  intros [Hshift _] Hsz.
  destruct (page_size_fits build pool Hshift) as [Hps _].
  destruct (NextEntryOffset_Some (size_bits build) d ltac:(lia)) as [o Ho].
  exists o. split; [done|]. eapply NextEntryOffset_range; [|done].
  destruct (size_bits_cases build) as [-> | ->]; lia.
Qed.

Lemma NextPageId64_sized pool d :
  pool_ok build pool → size d = page_size pool →
  ∃ next, NextPageId64 d = Some next ∧ True.
Proof.
  intros [Hshift _] Hsz.
  destruct (page_size_fits build pool Hshift) as [Hps _].
  destruct (NextPageId64_Some d ltac:(lia)) as [v Hv]. eauto.
Qed.

Lemma Push_new_head_defined l pushed pool :
  pool_ok build pool → sound_failures pool →
  ∃ status l' pool',
    Push_new_head build l pushed pool = Some (status, l', pool')
    ∧ pool_ok build pool'.
Proof.
  intros Hok Hsound. unfold Push_new_head. rewrite bind_unfold.
  destruct (StorePage_cases pushed kIgnorePageData pool Hsound)
    as [(status & Hf & ->) | [Hres ->]].
  { rewrite Hf. eauto. }
  op_run.
  set (pool0 := note_modify _ _).
  assert (pool_ok build pool0) as Hok0 by exact Hok.
  assert (resident pool0 pushed) as Hres0 by exact Hres.
  sized_step; [eauto using SetNextEntryOffset_sized|].
  sized_step; [eauto using SetNextPageId64_sized|].
  op_run. eauto.
Qed.

(** X6. [Push] never leaves a page buffer, whatever the pages hold: on a
    pool whose buffers all have [page_size] bytes, for a list that was not
    merged away and a page id other than the sentinel, it returns, and
    the buffers have [page_size] bytes afterwards. *)
Lemma Push_defined l pushed pool :
  pool_ok build pool → sound_failures pool →
  pushed ≠ kInvalidPageId build → was_merged_ l = false →
  ∃ status l' pool',
    Push build l pushed pool = Some (status, l', pool')
    ∧ pool_ok build pool'.
Proof.
  intros Hok Hsound Hid Hm. unfold Push.
  rewrite Hm, (proj2 (Z.eqb_neq _ _) Hid). op_run.
  destruct (head_page_id_ l =? kInvalidPageId build); cbn [negb];
    [by apply Push_new_head_defined|].
  rewrite bind_unfold.
  destruct (StorePage_cases (head_page_id_ l) kFetchPageData pool Hsound)
    as [(status & Hf & ->) | [Hres ->]].
  { rewrite Hf. eauto. }
  op_run. set (pool0 := note_fetch _ _ _).
  assert (pool_ok build pool0) as Hok0 by exact Hok.
  assert (resident pool0 (head_page_id_ l)) as Hres0 by exact Hres.
  destruct (read_sized build pool0 (head_page_id_ l)
              (NextEntryOffset (size_bits build))
              (λ offset, 0 ≤ offset < 2 ^ size_bits build) Hok0 Hres0)
    as (offset & -> & Hrange);
    [intros d Hd; by eapply NextEntryOffset_sized|].
  op_run.
  destruct (offset <? page_size pool0) eqn:Hlt;
    [|by apply Push_new_head_defined].
  apply Z.ltb_lt in Hlt.
  destruct (IsCorruptEntryOffset offset (page_size pool0)) eqn:Hc; [eauto|].
  op_run. set (pool1 := note_modify _ _).
  assert (pool_ok build pool1) as Hok1 by exact Hok.
  assert (resident pool1 (head_page_id_ l)) as Hres1 by exact Hres.
  pose proof (aligned_room pool0 offset (proj1 (proj1 Hok0)) Hc Hlt) as Hroom.
  apply IsCorruptEntryOffset_false in Hc as [[Hlo _] _].
  sized_step.
  { intros d Hd. apply StoreUint64_sized;
      [unfold kFirstEntryOffset in *; lia|].
    rewrite Hd. exact Hroom. }
  sized_step; [eauto using SetNextEntryOffset_sized|].
  op_run. eauto.
Qed.
End Safety2.

Section Safety3.
Import Span SpanFacts FreePageListFormat FormatFacts.
Variable build : Build.

Lemma page_size_double (pool : PagePool) :
  4 ≤ page_shift pool < size_bits build →
  2 * page_size pool ≤ 2 ^ size_bits build.
Proof.
  intros [Hlo Hhi]. unfold page_size.
  replace (size_bits build) with (1 + (size_bits build - 1)) by lia.
  rewrite Z.pow_add_r by lia. change (2 ^ 1) with 2.
  assert (2 ^ page_shift pool ≤ 2 ^ (size_bits build - 1))
    by (apply Z.pow_le_mono_r; lia).
  lia.
Qed.

(** A sound offset is the header size plus a whole number of entries. *)
Lemma sound_offset_form (offset ps : Z) :
  IsCorruptEntryOffset offset ps = false →
  ∃ n, 0 ≤ n ∧ offset = kFirstEntryOffset + kEntrySize * n ∧ offset ≤ ps.
Proof.
  intros [[Hlo Hhi] Hal]%IsCorruptEntryOffset_false.
  apply Z.mod_divide in Hal as [q Hq]; [|done].
  exists q. unfold kFirstEntryOffset, kEntrySize in *. lia.
Qed.

Lemma Merge_head_pages_defined l other head_page other_head_page
    other_head_page_id full_chain_head_id64 pool :
  pool_ok build pool →
  resident pool head_page → resident pool other_head_page →
  ∃ status l' other' pool',
    Merge_head_pages build l other head_page other_head_page
      other_head_page_id full_chain_head_id64 pool
    = Some (status, l', other', pool')
    ∧ pool_ok build pool'.
Proof.
  intros Hok Hh Ho. pose proof Hok as [Hshift Hsize].
  destruct (page_size_fits build pool Hshift) as [Hps16 Hfit].
  destruct (page_size_multiple pool ltac:(lia)) as (m & Hm & Hmul).
  pose proof (page_size_double pool Hshift) as Hdouble.
  unfold Merge_head_pages. op_run.
  destruct (read_sized build pool head_page
              (NextEntryOffset (size_bits build))
              (λ offset, 0 ≤ offset < 2 ^ size_bits build) Hok Hh)
    as (offset & -> & Hrange); [eauto using NextEntryOffset_sized|].
  rewrite bind_unfold.
  destruct (read_sized build pool other_head_page
              (NextEntryOffset (size_bits build))
              (λ offset, 0 ≤ offset < 2 ^ size_bits build) Hok Ho)
    as (other_offset & -> & Horange); [eauto using NextEntryOffset_sized|].
  destruct (IsCorruptEntryOffset offset (page_size pool)) eqn:Hc;
    cbn [orb]; [eauto 10|].
  destruct (IsCorruptEntryOffset other_offset (page_size pool)) eqn:Hoc;
    [eauto 10|].
  destruct (sound_offset_form _ _ Hc) as (a & Ha & -> & Hale).
  destruct (sound_offset_form _ _ Hoc) as (b & Hb & -> & Hble).
  unfold kFirstEntryOffset, kEntrySize in *.
  op_run. set (pool0 := note_modify head_page pool).
  assert (pool_ok build pool0) as Hok0 by exact Hok.
  assert (resident pool0 head_page) as Hh0 by exact Hh.
  assert (resident pool0 other_head_page) as Ho0 by exact Ho.
  assert (page_size pool0 = page_size pool) as Hps0 by reflexivity.
  rewrite (to_size_t_small build (16 + 8 * b - 16)) by lia.
  rewrite (to_size_t_small build (16 + 8 * a + (16 + 8 * b - 16))) by lia.
  destruct (16 + 8 * a + (16 + 8 * b - 16) <? page_size pool) eqn:Hfits.
  - apply Z.ltb_lt in Hfits.
    rewrite (to_size_t_small build (16 + 8 * a + (16 + 8 * b - 16) + 8))
      by lia.
    rewrite (proj2 (Z.leb_le _ _)) by lia. op_run.
    sized_step.
    { intros d Hd. apply StoreUint64_sized; lia. }
    rewrite (to_size_t_small build (16 + 8 * a + 8)) by lia.
    rewrite bind_unfold.
    destruct (data_sized build pool1 other_head_page Hok1 (Hres _ Ho0))
      as (od & -> & Hod).
    sized_step.
    { intros d Hd. apply CopySpan_sized; lia. }
    op_run.
    sized_step; [eauto using SetNextEntryOffset_sized|].
    op_run. eauto 10.
  - apply Z.ltb_ge in Hfits. op_run.
    set (pool1 := note_modify other_head_page pool0).
    assert (pool_ok build pool1) as Hok1 by exact Hok.
    assert (resident pool1 head_page) as Hh1 by exact Hh.
    assert (resident pool1 other_head_page) as Ho1 by exact Ho.
    assert (page_size pool1 = page_size pool) as Hps1 by reflexivity.
    rewrite (proj2 (Z.leb_le _ _)) by lia. op_run.
    rewrite (to_size_t_small build (page_size pool - (16 + 8 * b))) by lia.
    rewrite (proj2 (Z.leb_le _ _)) by lia. op_run.
    rewrite (to_size_t_small build
               (16 + 8 * a - (page_size pool - (16 + 8 * b)))) by lia.
    destruct (data_sized build pool1 head_page Hok1 Hh1) as (hd & -> & Hhd).
    sized_step.
    { intros d Hd. apply CopySpan_sized; lia. }
    sized_step; [eauto using SetNextEntryOffset_sized|].
    sized_step; [eauto using SetNextPageId64_sized|].
    op_run.
    sized_step; [eauto using SetNextEntryOffset_sized|].
    op_run. eauto 10.
Qed.

(** X10. [Merge] never leaves a page buffer and never violates one of its
    assumptions, whatever the pages hold: on a pool whose buffers all have
    [page_size] bytes, for two lists that were not merged away and a
    source with a tracked tail, it returns, and the buffers have
    [page_size] bytes afterwards. *)
Lemma Merge_defined l other pool :
  pool_ok build pool → sound_failures pool →
  was_merged_ l = false → was_merged_ other = false →
  tail_page_is_defined_ other = true →
  ∃ status l' other' pool',
    Merge build l other pool = Some (status, l', other', pool')
    ∧ pool_ok build pool'.
Proof.
  intros Hok Hsound Hml Hmo Htd. unfold Merge, is_empty.
  rewrite Hml, Hmo, Htd. op_run.
  set (other' := if check_is_on build then _ else _).
  replace (head_page_id_ other') with (head_page_id_ other)
    by (unfold other'; by destruct (check_is_on build)).
  replace (tail_page_id_ other') with (tail_page_id_ other)
    by (unfold other'; by destruct (check_is_on build)).
  destruct (head_page_id_ other =? kInvalidPageId build); [eauto 10|].
  rewrite bind_unfold.
  destruct (StorePage_cases (head_page_id_ l) kFetchPageData pool Hsound)
    as [(status & Hf & ->) | [Hh ->]].
  { rewrite Hf. eauto 10. }
  op_run. set (pool0 := note_fetch _ _ pool).
  destruct (StorePage_cases (head_page_id_ other) kFetchPageData pool0 Hsound)
    as [(status & Hf & ->) | [Ho ->]].
  { rewrite Hf. eauto 10. }
  op_run. set (pool1 := note_fetch _ _ pool0).
  assert (pool_ok build pool1) as Hok1 by exact Hok.
  assert (resident pool1 (head_page_id_ l)) as Hh1 by exact Hh.
  assert (resident pool1 (head_page_id_ other)) as Ho1 by exact Ho.
  destruct (read_sized build pool1 (head_page_id_ l) NextPageId64
              (λ _, True) Hok1 Hh1)
    as (chain & -> & _); [eauto using NextPageId64_sized|].
  destruct (tail_page_id_ other =? head_page_id_ other); cbn [negb];
    [by apply Merge_head_pages_defined|].
  rewrite bind_unfold.
  destruct (StorePage_cases (tail_page_id_ other) kFetchPageData pool1 Hsound)
    as [(status & Hf & ->) | [Ht ->]].
  { rewrite Hf. eauto 10. }
  op_run. set (pool2 := note_modify _ _).
  assert (pool_ok build pool2) as Hok2 by exact Hok.
  assert (resident pool2 (tail_page_id_ other)) as Ht2 by exact Ht.
  assert (resident pool2 (head_page_id_ l)) as Hh2 by exact Hh.
  assert (resident pool2 (head_page_id_ other)) as Ho2 by exact Ho.
  sized_step; [eauto using SetNextPageId64_sized|].
  rewrite bind_unfold.
  destruct (read_sized build pool3 (head_page_id_ other) NextPageId64
              (λ _, True) Hok0 (Hres _ Ho2))
    as (chain' & -> & _); [eauto using NextPageId64_sized|].
  apply Merge_head_pages_defined; auto.
Qed.
End Safety3.

(** * Lists as chains of pages *)

Section ChainFacts.
Import Span SpanFacts FreePageListFormat FormatFacts.
Variable build : Build.

Lemma entry_offset_S (n : nat) :
  entry_offset (S n) = entry_offset n + kEntrySize.
Proof. unfold entry_offset, kEntrySize. lia. Qed.

Lemma entry_offset_ge (n : nat) : kFirstEntryOffset ≤ entry_offset n.
Proof. unfold entry_offset, kEntrySize. lia. Qed.

Lemma entry_offset_sound (n : nat) (ps : Z) :
  entry_offset n ≤ ps → IsCorruptEntryOffset (entry_offset n) ps = false.
Proof.
  intros Hle. apply IsCorruptEntryOffset_false.
  pose proof (entry_offset_ge n). split; [lia|].
  unfold entry_offset. rewrite Z.add_simpl_l, Z.mul_comm.
  by apply Z.mod_mul.
Qed.

Lemma list_page_frame pool pool' page es next :
  page_shift pool' = page_shift pool →
  slots pool' !! page = slots pool !! page →
  list_page build pool page es next → list_page build pool' page es next.
Proof.
  intros Hshift Hslot (d & Hd & Hrest). exists d.
  unfold page_size in *. rewrite Hslot, Hshift. done.
Qed.

(** A chain only depends on the buffers of its own pages. *)
Lemma chain_frame pool pool' full head pages ids :
  page_shift pool' = page_shift pool →
  (∀ page, page ∈ pages → slots pool' !! page = slots pool !! page) →
  chain build pool full head pages ids →
  chain build pool' full head pages ids.
Proof.
  intros Hshift Hslots Hchain.
  induction Hchain as [full | full page es next pages ids Hv Hp Hfull Hnin Hc IH].
  - constructor.
  - apply chain_page with next; try done.
    + apply (list_page_frame pool); [done| |done]. apply Hslots. set_solver.
    + unfold page_size in *. by rewrite Hshift.
    + apply IH. intros p Hp'. apply Hslots. set_solver.
Qed.

Lemma chain_relax pool full head pages ids :
  chain build pool true head pages ids → chain build pool full head pages ids.
Proof.
  intros H. inversion H; subst; econstructor; eauto.
Qed.

Lemma chain_head_range pool full head pages ids :
  chain build pool full head pages ids →
  0 ≤ head ≤ kInvalidPageId build.
Proof.
  pose proof (kInvalidPageId_range build) as HK.
  intros H. destruct H as [| ? ? ? ? ? ? [? ?]]; lia.
Qed.

Lemma chain_head_fits pool full head pages ids :
  chain build pool full head pages ids → to_size_t build head = head.
Proof.
  intros H%chain_head_range. apply to_size_t_small.
  unfold kInvalidPageId in H. lia.
Qed.

Lemma chain_empty_iff pool full head pages ids :
  chain build pool full head pages ids →
  (head = kInvalidPageId build ↔ pages = []).
Proof.
  intros H. destruct H as [| ? ? ? ? ? ? [? ?]]; [done|].
  split; [lia|done].
Qed.

Lemma chain_ids_valid pool full head pages ids :
  chain build pool full head pages ids → Forall (valid_page_id build) ids.
Proof.
  induction 1 as [| full page es next pages ids Hv Hp Hfull Hnin Hc IH];
    [constructor|].
  destruct Hp as (d & _ & _ & _ & _ & _ & _ & Hes).
  apply Forall_app. split; [by apply Forall_rev|]. by constructor.
Qed.

Lemma valid_page_id_fits (v : Z) :
  valid_page_id build v → to_size_t build v = v ∧ v ≠ kInvalidPageId build.
Proof.
  intros [Hlo Hhi]. split; [|lia]. apply to_size_t_small.
  unfold kInvalidPageId in Hhi. lia.
Qed.

(** [Pop] on a chain: it hands out the first id and leaves the chain of
    the remaining ones. *)
Lemma Pop_chain l pool pages ids :
  pool_ok build pool → was_merged_ l = false →
  chain build pool false (head_page_id_ l) pages ids →
  ∃ l' pool' pages',
    Pop build l pool
    = Some (kSuccess, default (kInvalidPageId build) (head ids), l', pool')
    ∧ chain build pool' false (head_page_id_ l') pages' (tail ids)
    ∧ pages' `sublist_of` pages
    ∧ pool_ok build pool'
    ∧ was_merged_ l' = false
    ∧ (tail_tracked build l pages → tail_tracked build l' pages').
Proof.
  intros Hok Hm Hchain. pose proof Hok as [Hshift Hsize].
  destruct (page_size_fits build pool Hshift) as [Hps16 Hfit].
  inversion Hchain as [| ? page es next pages0 ids0 Hv Hp _ Hnin Hc];
    subst.
  { match goal with H : _ = head_page_id_ l |- _ => rename H into Hhead end.
    exists l, pool, []. split.
    - unfold Pop, is_empty. rewrite <-Hhead, Hm, Z.eqb_refl. by op_run.
    - rewrite <-Hhead. simpl. split_and!; try done; constructor. }
  destruct Hp as (d & Hd & Hsz & Hoff & Hle & Hnext & Hes & Hval).
  assert (is_empty build l = false) as He.
  { unfold is_empty. apply Z.eqb_neq. destruct Hv. lia. }
  rewrite (Pop_after_fetch build l pool d _ He Hm Hd Hoff).
  induction es as [|e es _] using rev_ind.
  - (* the head page is out of entries *)
    cbn [length entry_offset]. unfold entry_offset. simpl Z.of_nat.
    rewrite Z.mul_0_r, Z.add_0_r, Z.eqb_refl.
    erewrite bind_unfold, read_resident by (simpl; eauto).
    rewrite (chain_head_fits _ _ _ _ _ Hc), Z.eqb_refl. cbn [negb mret Op_ret].
    eexists _, _, pages0. split; [done|].
    split; [|split; [apply sublist_cons; reflexivity|split; [done|split]]].
    + destruct (next =? kInvalidPageId build); simpl;
        apply chain_relax, (chain_frame pool); auto.
    + by destruct (next =? kInvalidPageId build).
    + unfold tail_tracked. intros Ht.
      pose proof (chain_empty_iff _ _ _ _ _ Hc) as Hiff.
      destruct pages0 as [|p pages0].
      * rewrite (proj2 (Z.eqb_eq _ _)) by by apply Hiff. done.
      * rewrite (proj2 (Z.eqb_neq next _)) by (intros E; by apply Hiff in E).
        by rewrite last_cons_cons in Ht.
  - (* the newest entry is handed out *)
    rewrite length_app in *. simpl length in *.
    rewrite Nat.add_1_r in *. rewrite entry_offset_S in *.
    pose proof (entry_offset_ge (length es)) as Hge.
    unfold kEntrySize, kFirstEntryOffset in Hge, Hle, Hfit, Hps16.
    rewrite (proj2 (Z.eqb_neq (entry_offset (length es) + kEntrySize)
                      kFirstEntryOffset))
      by (unfold kEntrySize, kFirstEntryOffset; lia).
    cbv beta zeta. rewrite Z.add_simpl_r.
    rewrite (to_size_t_small build (entry_offset (length es))) by lia.
    rewrite entry_offset_sound by lia.
    assert (LoadUint64 (subspan d (entry_offset (length es)) 8) = Some e)
      as Hload.
    { apply Hes. by rewrite lookup_app_r, Nat.sub_diag by lia. }
    apply Forall_app in Hval as [Hval He'].
    apply Forall_singleton, valid_page_id_fits in He' as [Hefit _].
    destruct (SetNextEntryOffset_Some (entry_offset (length es)) d
                ltac:(unfold kFirstEntryOffset; lia)) as [d' Hd'].
    op_run. rewrite Hefit, Z.eqb_refl. op_run.
    eexists l, _, (head_page_id_ l :: pages0).
    rewrite rev_app_distr. simpl.
    split; [done|]. split; [|split_and!; try done].
    + apply chain_page with next; try done.
      * exists d'. split; [apply lookup_put_data_eq|].
        split; [by rewrite (size_SetNextEntryOffset _ _ _ Hd')|].
        split.
        { rewrite (NextEntryOffset_SetNextEntryOffset _ _ _ _ Hd').
          f_equal.
          assert (2 ^ size_bits build ≤ 2 ^ 64)
            by (destruct (size_bits_cases build) as [-> | ->]; lia).
          rewrite (Z.mod_small _ (2 ^ 64)) by lia.
          apply Z.mod_small. lia. }
        split; [page_size_norm; lia|].
        split; [by rewrite (NextPageId64_SetNextEntryOffset _ _ _ Hd')|].
        split; [|done].
        intros i v Hi.
        rewrite (entries_SetNextEntryOffset _ _ _ _ _ Hd')
          by apply entry_offset_ge.
        apply Hes. by apply lookup_app_l_Some.
      * apply (chain_frame pool); [done| |done].
        intros p Hp. simpl. rewrite lookup_insert_ne; [done|].
        by intros <-.
    + apply pool_ok_put_data; [done|].
      by rewrite (size_SetNextEntryOffset _ _ _ Hd').
Qed.
End ChainFacts.

Section ChainPush.
Import Span SpanFacts FreePageListFormat FormatFacts.
Variable build : Build.

Lemma holds_entries_nil d : holds_entries d [].
Proof. intros i v Hi. by rewrite lookup_nil in Hi. Qed.

(** The run of [Push_new_head] on a fetched page, with the page image it
    leaves. *)
Lemma Push_new_head_run l pushed pool d0 :
  slots pool !! pushed = Some (Resident d0) →
  kFirstEntryOffset ≤ size d0 →
  ∃ d', size d' = size d0
        ∧ NextEntryOffset (size_bits build) d' = Some kFirstEntryOffset
        ∧ NextPageId64 d' = Some (head_page_id_ l mod 2 ^ 64)
        ∧ Push_new_head build l pushed pool
          = Some (kSuccess,
                  {| head_page_id_ := pushed;
                     tail_page_id_ := if is_empty build l then pushed
                                      else tail_page_id_ l;
                     tail_page_is_defined_ := tail_page_is_defined_ l;
                     was_merged_ := was_merged_ l |},
                  put_data pushed d'
                    (note_modify pushed
                       (note_fetch pushed kIgnorePageData pool))).
Proof.
  intros Hs Hsz.
  destruct (SetNextEntryOffset_Some kFirstEntryOffset d0 Hsz) as [d1 Hd1].
  pose proof (size_SetNextEntryOffset _ _ _ Hd1) as Hsz1.
  destruct (SetNextPageId64_Some (head_page_id_ l) d1 ltac:(lia)) as [d' Hd'].
  pose proof (size_SetNextPageId64 _ _ _ Hd') as Hsz'.
  exists d'. split; [congruence|]. split; [|split].
  - rewrite (NextEntryOffset_SetNextPageId64 _ _ _ _ Hd').
    rewrite (NextEntryOffset_SetNextEntryOffset _ _ _ _ Hd1).
    f_equal. unfold kFirstEntryOffset.
    destruct (size_bits_cases build) as [-> | ->]; reflexivity.
  - by rewrite (NextPageId64_SetNextPageId64 _ _ _ Hd').
  - unfold Push_new_head. op_run. rewrite put_data_put_data.
    unfold is_empty. by destruct (head_page_id_ l =? kInvalidPageId build).
Qed.

(** The pushed page set up as the head of a chain of full pages. *)
Lemma Push_new_head_chain l pushed pool pages ids :
  pool_ok build pool → resident pool pushed →
  valid_page_id build pushed → pushed ∉ pages →
  chain build pool true (head_page_id_ l) pages ids →
  ∃ pool',
    Push_new_head build l pushed pool
    = Some (kSuccess,
            {| head_page_id_ := pushed;
               tail_page_id_ := if is_empty build l then pushed
                                else tail_page_id_ l;
               tail_page_is_defined_ := tail_page_is_defined_ l;
               was_merged_ := was_merged_ l |},
            pool')
    ∧ chain build pool' false pushed (pushed :: pages) (pushed :: ids)
    ∧ pool_ok build pool'.
Proof.
  intros Hok [d0 Hd0] Hv Hnin Hchain. pose proof Hok as [Hshift Hsize].
  destruct (page_size_fits build pool Hshift) as [Hps16 Hfit].
  pose proof (Hsize _ _ Hd0) as Hsz0.
  destruct (Push_new_head_run l pushed pool d0 Hd0 ltac:(lia))
    as (d' & Hsz' & Hoff & Hnext & HPush).
  eexists. split; [exact HPush|].
  rewrite Hsz0 in Hsz'.
  split.
  - change (pushed :: ids) with (rev [] ++ pushed :: ids).
    apply chain_page with (head_page_id_ l); try done.
    + exists d'. split; [apply lookup_put_data_eq|].
      split; [done|]. split; [done|]. split; [exact Hps16|].
      split.
      { rewrite Hnext. f_equal. apply Z.mod_small.
        pose proof (chain_head_range _ _ _ _ _ _ Hchain).
        pose proof (kInvalidPageId_range build). lia. }
      split; [apply holds_entries_nil|constructor].
    + apply (chain_frame build pool); [done| |done].
      intros p Hp. simpl. rewrite lookup_insert_ne; [done|].
      by intros <-.
  - by apply pool_ok_put_data.
Qed.
(** X7. [Push] on a well-formed list succeeds and leaves a well-formed
    list that yields the pushed id first and then the ids it held before;
    its pages are the old ones, with the pushed page in front when the
    head page was full or the list empty.  A tracked tail page stays
    tracked. *)
Lemma Push_chain l pushed pool pages ids :
  pool_ok build pool → was_merged_ l = false →
  chain build pool false (head_page_id_ l) pages ids →
  valid_page_id build pushed → pushed ∉ pages → resident pool pushed →
  ∃ l' pool' pages',
    Push build l pushed pool = Some (kSuccess, l', pool')
    ∧ chain build pool' false (head_page_id_ l') pages' (pushed :: ids)
    ∧ (pages' = pages ∨ pages' = pushed :: pages)
    ∧ pool_ok build pool'
    ∧ was_merged_ l' = false
    ∧ (tail_tracked build l pages → tail_tracked build l' pages').
Proof.
  intros Hok Hm Hchain Hv Hnin Hres. pose proof Hok as [Hshift Hsize].
  destruct (page_size_fits build pool Hshift) as [Hps16 Hfit].
  destruct (valid_page_id_fits build pushed Hv) as [_ Hne].
  inversion Hchain as [| ? page es next pages0 ids0 Hpv Hp _ Hpn Hc]; subst.
  - (* the list is empty *)
    match goal with H : _ = head_page_id_ l |- _ => rename H into Hhead end.
    assert (is_empty build l = true) as He
      by (unfold is_empty; rewrite <-Hhead; apply Z.eqb_refl).
    rewrite (Push_empty build l pushed pool Hne Hm He).
    destruct (Push_new_head_chain l pushed pool [] [] Hok Hres Hv Hnin)
      as (pool' & -> & Hchain' & Hok');
      [rewrite <-Hhead; constructor|].
    eexists _, pool', [pushed]. split; [done|]. rewrite He.
    split_and!; try done; auto.
  - (* the list has a head page *)
    destruct Hp as (d & Hd & Hsz & Hoff & Hle & Hnext & Hes & Hval).
    assert (is_empty build l = false) as He.
    { unfold is_empty. apply Z.eqb_neq. destruct Hpv. lia. }
    rewrite (Push_after_fetch build l pushed pool d _ Hne Hm He Hd Hoff).
    destruct (entry_offset (length es) <? page_size pool) eqn:Hroom.
    + (* room for one more entry *)
      apply Z.ltb_lt in Hroom.
      pose proof (entry_offset_sound (length es) _ Hle) as Hsound.
      rewrite Hsound.
      pose proof (aligned_room pool _ ltac:(lia) Hsound Hroom) as Hfits.
      pose proof (entry_offset_ge (length es)) as Hge.
      unfold kFirstEntryOffset, kEntrySize in Hge, Hfits, Hfit, Hps16.
      destruct (StoreUint64_Some d pushed (entry_offset (length es)))
        as [d1 Hd1]; [lia|lia|].
      destruct (StoreUint64_inv _ _ _ _ Hd1) as (_ & _ & Hsz1).
      rewrite (to_size_t_small build) by (unfold kEntrySize; lia).
      destruct (SetNextEntryOffset_Some
                  (entry_offset (length es) + kEntrySize) d1)
        as [d2 Hd2]; [unfold kFirstEntryOffset; lia|].
      pose proof (size_SetNextEntryOffset _ _ _ Hd2) as Hsz2.
      op_run. rewrite put_data_put_data.
      eexists l, _, (head_page_id_ l :: pages0).
      split; [done|]. split; [|split_and!; try done; auto].
      * replace (pushed :: rev es ++ head_page_id_ l :: ids0)
          with (rev (es ++ [pushed]) ++ head_page_id_ l :: ids0)
          by (by rewrite rev_app_distr).
        apply chain_page with next; try done.
        -- exists d2. split; [apply lookup_put_data_eq|].
           split; [page_size_norm; congruence|].
           rewrite length_app. simpl length.
           rewrite Nat.add_1_r, entry_offset_S.
           split.
           { rewrite (NextEntryOffset_SetNextEntryOffset _ _ _ _ Hd2).
             f_equal.
             assert (2 ^ size_bits build ≤ 2 ^ 64)
               by (destruct (size_bits_cases build) as [-> | ->]; lia).
             unfold kEntrySize.
             rewrite (Z.mod_small _ (2 ^ 64)) by lia.
             apply Z.mod_small. lia. }
           split; [page_size_norm; unfold kEntrySize; lia|].
           split.
           { rewrite (NextPageId64_SetNextEntryOffset _ _ _ Hd2).
             rewrite (NextPageId64_StoreUint64 _ _ _ _ Hd1); [done|].
             unfold kFirstEntryOffset. lia. }
           split; [|apply Forall_app; split; [done|by constructor]].
           intros i v Hi.
           rewrite (entries_SetNextEntryOffset _ _ _ _ _ Hd2)
             by apply entry_offset_ge.
           apply lookup_app_Some in Hi as [Hi | [Hlen Hi]].
           ++ rewrite (subspan_StoreUint64_disjoint _ _ _ _ _ _ Hd1);
                [by apply Hes|].
              left. apply lookup_lt_Some in Hi.
              unfold entry_offset, kEntrySize. lia.
           ++ destruct (i - length es)%nat as [|k] eqn:Ek; [|done].
              simpl in Hi. injection Hi as <-.
              replace i with (length es) by lia.
              rewrite (LoadUint64_StoreUint64 _ _ _ _ Hd1). f_equal.
              apply Z.mod_small. destruct Hv.
              pose proof (kInvalidPageId_range build). lia.
        -- apply (chain_frame build pool); [done| |done].
           intros p Hp'. simpl. rewrite lookup_insert_ne; [done|].
           by intros <-.
      * apply pool_ok_put_data; [done|]. page_size_norm; congruence.
    + (* the head page is full *)
      apply Z.ltb_ge in Hroom.
      destruct (Push_new_head_chain l pushed
                  (note_fetch (head_page_id_ l) kFetchPageData pool)
                  (head_page_id_ l :: pages0)
                  (rev es ++ head_page_id_ l :: ids0) Hok Hres Hv Hnin)
        as (pool' & -> & Hchain' & Hok').
      { apply chain_page with next; try done.
        - exists d. split_and!; done.
        - intros _. page_size_norm. lia.
        - by apply (chain_frame build pool). }
      eexists _, pool', (pushed :: head_page_id_ l :: pages0).
      split; [done|]. rewrite He. split_and!; try done; auto.
Qed.

(** X4. Popping a well-formed list until it is empty succeeds every time
    and hands out exactly the ids of the list, in order. *)
Lemma drain_chain ids : ∀ l pool pages fuel,
  pool_ok build pool → was_merged_ l = false →
  chain build pool false (head_page_id_ l) pages ids →
  (length ids < fuel)%nat →
  ∃ pool', drain build fuel l pool = Some (kSuccess, ids, pool')
           ∧ pool_ok build pool'.
Proof.
  induction ids as [|id ids IH]; intros l pool pages fuel Hok Hm Hchain Hfuel.
  - destruct fuel as [|fuel]; [simpl in Hfuel; lia|].
    destruct (Pop_chain build l pool pages [] Hok Hm Hchain)
      as (l' & pool' & pages' & HPop & _ & _ & Hok' & _).
    cbn [drain]. rewrite bind_unfold, HPop. simpl.
    rewrite Z.eqb_refl. eauto.
  - destruct fuel as [|fuel]; [simpl in Hfuel; lia|].
    pose proof (chain_ids_valid _ _ _ _ _ _ Hchain) as Hvalid.
    apply Forall_cons in Hvalid as [Hid _].
    destruct (valid_page_id_fits build id Hid) as [_ Hne].
    destruct (Pop_chain build l pool pages (id :: ids) Hok Hm Hchain)
      as (l' & pool' & pages' & HPop & Hchain' & _ & Hok' & Hm' & _).
    simpl in HPop, Hchain'.
    destruct (IH l' pool' pages' fuel Hok' Hm' Hchain')
      as (pool'' & Hdrain & Hok''); [simpl in Hfuel; lia|].
    cbn [drain]. rewrite bind_unfold, HPop. simpl.
    rewrite (proj2 (Z.eqb_neq _ _) Hne).
    rewrite bind_unfold, Hdrain. simpl. eauto.
Qed.
End ChainPush.

Section RoundTrip.
Import Span SpanFacts FreePageListFormat FormatFacts.
Variable build : Build.

(** X8. [Push] followed by [Pop] hands the pushed id back and restores
    [head_page_id_], whether the id went into the head page or the pushed
    page became the head.  All it takes of the old head page is a sound
    stored offset. *)
Lemma Push_then_Pop l pushed pool :
  pool_ok build pool → was_merged_ l = false →
  valid_page_id build pushed → resident pool pushed →
  0 ≤ head_page_id_ l ≤ kInvalidPageId build →
  (is_empty build l = true
   ∨ ∃ d offset,
       slots pool !! head_page_id_ l = Some (Resident d)
       ∧ NextEntryOffset (size_bits build) d = Some offset
       ∧ IsCorruptEntryOffset offset (page_size pool) = false) →
  ∃ l1 pool1 l2 pool2,
    Push build l pushed pool = Some (kSuccess, l1, pool1)
    ∧ Pop build l1 pool1 = Some (kSuccess, pushed, l2, pool2)
    ∧ head_page_id_ l2 = head_page_id_ l.
Proof.
  intros Hok Hm Hv [d0 Hd0] Hrange Hhead. pose proof Hok as [Hshift Hsize].
  destruct (page_size_fits build pool Hshift) as [Hps16 Hfit].
  destruct (valid_page_id_fits build pushed Hv) as [Hpfit Hne].
  pose proof (kInvalidPageId_range build) as HK.
  assert (∀ pool0, slots pool0 = slots pool →
            ∃ l1 pool1 l2 pool2,
              Push_new_head build l pushed pool0 = Some (kSuccess, l1, pool1)
              ∧ Pop build l1 pool1 = Some (kSuccess, pushed, l2, pool2)
              ∧ head_page_id_ l2 = head_page_id_ l) as Hnew.
  { intros pool0 Hslots.
    destruct (Push_new_head_run build l pushed pool0 d0)
      as (d' & Hsz' & Hoff & Hnext & HPush);
      [by rewrite Hslots | rewrite (Hsize _ _ Hd0); lia |].
    eexists _, _, _, _. split; [exact HPush|].
    erewrite Pop_after_fetch;
      [ | unfold is_empty; simpl; by apply Z.eqb_neq | done
        | apply lookup_put_data_eq | exact Hoff ].
    rewrite Z.eqb_refl. cbn [head_page_id_].
    erewrite bind_unfold, read_resident;
      [ | apply lookup_put_data_eq | exact Hnext ].
    rewrite (Z.mod_small (head_page_id_ l)) by lia.
    rewrite (to_size_t_small build (head_page_id_ l))
      by (unfold kInvalidPageId in Hrange; lia).
    rewrite Z.eqb_refl. cbn [negb mret Op_ret].
    split; [done|].
    by destruct (head_page_id_ l =? kInvalidPageId build). }
  destruct Hhead as [He | (d & offset & Hd & Hoff & Hsound)].
  { rewrite (Push_empty build l pushed pool Hne Hm He). by apply Hnew. }
  destruct (is_empty build l) eqn:He.
  { rewrite (Push_empty build l pushed pool Hne Hm He). by apply Hnew. }
  rewrite (Push_after_fetch build l pushed pool d offset Hne Hm He Hd Hoff).
  destruct (offset <? page_size pool) eqn:Hlt; [|by apply Hnew].
  apply Z.ltb_lt in Hlt. rewrite Hsound.
  pose proof (aligned_room pool offset ltac:(lia) Hsound Hlt) as Hroom.
  destruct (sound_offset_form _ _ Hsound) as (n & Hn & -> & _).
  unfold kFirstEntryOffset, kEntrySize in *.
  pose proof (Hsize _ _ Hd) as Hsz.
  destruct (StoreUint64_Some d pushed (16 + 8 * n)) as [d1 Hd1]; [lia|lia|].
  destruct (StoreUint64_inv _ _ _ _ Hd1) as (_ & _ & Hsz1).
  rewrite (to_size_t_small build (16 + 8 * n + 8)) by lia.
  destruct (SetNextEntryOffset_Some (16 + 8 * n + 8) d1) as [d2 Hd2];
    [unfold kFirstEntryOffset; lia|].
  op_run. rewrite put_data_put_data.
  assert (2 ^ size_bits build ≤ 2 ^ 64)
    by (destruct (size_bits_cases build) as [-> | ->]; lia).
  destruct (SetNextEntryOffset_Some (16 + 8 * n) d2) as [d3 Hd3];
    [rewrite (size_SetNextEntryOffset _ _ _ Hd2);
     unfold kFirstEntryOffset; lia|].
  eexists _, _, _, _. split; [done|].
  erewrite Pop_after_fetch;
    [ | done | done | apply lookup_put_data_eq
      | rewrite (NextEntryOffset_SetNextEntryOffset _ _ _ _ Hd2);
        rewrite (Z.mod_small _ (2 ^ 64)) by lia;
        rewrite Z.mod_small by lia; reflexivity ].
  rewrite (proj2 (Z.eqb_neq (16 + 8 * n + 8) kFirstEntryOffset))
    by (unfold kFirstEntryOffset; lia).
  cbv beta zeta. unfold kEntrySize. rewrite Z.add_simpl_r.
  rewrite (to_size_t_small build (16 + 8 * n)) by lia.
  page_size_norm. rewrite Hsound.
  erewrite bind_unfold, read_resident;
    [ | apply lookup_put_data_eq
      | rewrite (entries_SetNextEntryOffset _ _ _ _ _ Hd2)
          by (unfold kFirstEntryOffset; lia);
        rewrite (LoadUint64_StoreUint64 _ _ _ _ Hd1);
        rewrite Z.mod_small by (destruct Hv; lia); reflexivity ].
  rewrite Hpfit, Z.eqb_refl. cbn [negb]. op_run.
  split; reflexivity.
Qed.

(** X11. When [Merge] reports a failure, no page has lost or gained an
    entry: every buffer still has its stored offset and its entry bytes.
    Only the successor field of the source's tail page may have been
    rewritten. *)
Lemma Merge_failure_keeps_entries l other pool status l' other' pool' :
  Merge build l other pool = Some (status, l', other', pool') →
  status ≠ kSuccess →
  ∀ page d, slots pool !! page = Some (Resident d) →
    ∃ d', slots pool' !! page = Some (Resident d')
          ∧ NextEntryOffset (size_bits build) d'
            = NextEntryOffset (size_bits build) d
          ∧ (∀ a c, kFirstEntryOffset ≤ a → subspan d' a c = subspan d a c)
          ∧ (page ≠ tail_page_id_ other → d' = d).
Proof.
  unfold Merge, Merge_head_pages, is_empty. intros H Hst page d Hd.
  destruct (check_is_on build) eqn:Hcheck;
    cbn [set_was_merged head_page_id_ tail_page_id_] in H.
  all: op_inv H; op_inv_all; op_facts; try done; subst; use_raw_page.
  all: try (exists d; by split_and!).
  all: simpl in *.
  all: match goal with
       | Hs : SetNextPageId64 _ ?x = Some ?y,
         Hx : slots _ !! ?t = Some (Resident ?x) |- _ =>
           destruct (decide (t = page)) as [<- | Hne];
           [ exists y; rewrite lookup_insert_eq;
             rewrite Hx in Hd; injection Hd as <-;
             split_and!;
             [ done
             | apply (NextEntryOffset_SetNextPageId64 _ _ _ _ Hs)
             | intros a c Ha; apply (entries_SetNextPageId64 _ _ _ _ _ Hs Ha)
             | done ]
           | exists d; rewrite lookup_insert_ne by done; by split_and! ]
       end.
Qed.
End RoundTrip.
(** * Merge on pages and chains *)


(** ** Copies between pages *)

Section CopyFacts.
Import Span SpanFacts FreePageListFormat FormatFacts.

Lemma subspan_subspan (d s : list byte) (from count a c : Z) :
  subspan d from count = Some s →
  0 ≤ a → 0 ≤ c → a + c ≤ count →
  subspan s a c = subspan d (from + a) c.
Proof.
  intros Hs Ha Hc Hac. pose proof (length_subspan _ _ _ _ Hs) as Hlen.
  destruct (subspan_inv _ _ _ _ Hs) as (Hf & Hcount & Hsz & ->).
  rewrite !subspan_Some by (unfold size in *; lia).
  f_equal. apply list_eq. intros i.
  rewrite !lookup_take, !lookup_drop. case_decide; [|done].
  rewrite lookup_take, lookup_drop. case_decide; [|lia].
  f_equal. lia.
Qed.

Lemma subspan_overwrite_inside (d d' bytes : list byte) (to a c : Z) :
  overwrite d to bytes = Some d' →
  0 ≤ a → 0 ≤ c → a + c ≤ size bytes →
  subspan d' (to + a) c = subspan bytes a c.
Proof.
  intros H Ha Hc Hac. pose proof (size_overwrite _ _ _ _ H) as Hsz.
  destruct (overwrite_inv _ _ _ _ H) as (Hto & Hs & _).
  rewrite !subspan_Some by lia.
  f_equal. apply list_eq. intros i.
  rewrite !lookup_take, !lookup_drop. case_decide; [|done].
  rewrite (lookup_overwrite _ _ _ _ _ H). unfold size in *.
  case_decide; [|lia]. f_equal. lia.
Qed.

Lemma CopySpan_inv (src d d' : list byte) (from count to : Z) :
  CopySpan (subspan src from count) d to = Some d' →
  ∃ bytes, subspan src from count = Some bytes
           ∧ size bytes = count
           ∧ overwrite d to bytes = Some d'.
Proof.
  unfold CopySpan. destruct (subspan src from count) as [bytes|] eqn:E;
    [|done].
  intros H. exists bytes. split; [done|]. split; [|done].
  pose proof (length_subspan _ _ _ _ E).
  destruct (subspan_inv _ _ _ _ E) as (_ & ? & _). unfold size. lia.
Qed.

Lemma size_CopySpan (src d d' : list byte) (from count to : Z) :
  CopySpan (subspan src from count) d to = Some d' → size d' = size d.
Proof.
  intros (bytes & _ & _ & H)%CopySpan_inv. by apply size_overwrite in H.
Qed.

(** Inside the copied range the target reads like the source. *)
Lemma subspan_CopySpan_inside (src d d' : list byte) (from count to a c : Z) :
  CopySpan (subspan src from count) d to = Some d' →
  0 ≤ a → 0 ≤ c → a + c ≤ count →
  subspan d' (to + a) c = subspan src (from + a) c.
Proof.
  intros (bytes & Hb & Hsz & H)%CopySpan_inv Ha Hc Hac.
  rewrite (subspan_overwrite_inside _ _ _ _ _ _ H) by lia.
  by apply (subspan_subspan _ _ _ count).
Qed.

(** Outside the copied range the target reads as before. *)
Lemma subspan_CopySpan_disjoint (src d d' : list byte)
    (from count to a c : Z) :
  CopySpan (subspan src from count) d to = Some d' →
  a + c ≤ to ∨ to + count ≤ a →
  subspan d' a c = subspan d a c.
Proof.
  intros (bytes & Hb & Hsz & H)%CopySpan_inv Hdis.
  apply (subspan_overwrite_disjoint _ _ _ _ _ _ H). lia.
Qed.

Lemma CopySpan_Some (src d : list byte) (from count to : Z) :
  0 ≤ from → 0 ≤ count → from + count ≤ size src →
  0 ≤ to → to + count ≤ size d →
  ∃ d', CopySpan (subspan src from count) d to = Some d'.
Proof.
  intros Hf Hc Hs Ht Hd.
  pose proof (subspan_Some src from count Hf Hc Hs) as Hsub.
  pose proof (length_subspan _ _ _ _ Hsub) as Hlen.
  rewrite Hsub. unfold CopySpan.
  rewrite overwrite_Some; [eauto | done | unfold size in *; lia].
Qed.

(** A copy that stays behind the header leaves the header as it was. *)
Lemma NextEntryOffset_CopySpan (bits : Z) (src d d' : list byte)
    (from count to : Z) :
  CopySpan (subspan src from count) d to = Some d' →
  kFirstEntryOffset ≤ to →
  NextEntryOffset bits d' = NextEntryOffset bits d.
Proof.
  intros H Hto. unfold NextEntryOffset.
  rewrite (subspan_CopySpan_disjoint _ _ _ _ _ _ _ _ H); [done|].
  unfold kFirstEntryOffset, kNextEntryOffsetOffset in *. lia.
Qed.

Lemma NextPageId64_CopySpan (src d d' : list byte) (from count to : Z) :
  CopySpan (subspan src from count) d to = Some d' →
  kFirstEntryOffset ≤ to →
  NextPageId64 d' = NextPageId64 d.
Proof.
  intros H Hto. unfold NextPageId64.
  rewrite (subspan_CopySpan_disjoint _ _ _ _ _ _ _ _ H); [done|].
  unfold kFirstEntryOffset, kNextPageIdOffset in *. lia.
Qed.

End CopyFacts.


(** ** Merging two head pages *)

Section MergeHeads.
Import Span SpanFacts FreePageListFormat FormatFacts.
Variable build : Build.

Lemma entry_offset_add (n k : nat) :
  entry_offset (n + k) = entry_offset n + kEntrySize * Z.of_nat k.
Proof. unfold entry_offset, kEntrySize. lia. Qed.

Lemma stored_offset_reads_back (pool : PagePool) (offset : Z) (d d' : list byte) :
  4 ≤ page_shift pool < size_bits build →
  0 ≤ offset ≤ page_size pool →
  SetNextEntryOffset offset d = Some d' →
  NextEntryOffset (size_bits build) d' = Some offset.
Proof.
  intros Hshift Hrange Hd'.
  destruct (page_size_fits build pool Hshift) as [_ Hfit].
  unfold kEntrySize in Hfit.
  rewrite (NextEntryOffset_SetNextEntryOffset _ _ _ _ Hd'). f_equal.
  assert (2 ^ size_bits build ≤ 2 ^ 64)
    by (destruct (size_bits_cases build) as [-> | ->]; lia).
  rewrite (Z.mod_small _ (2 ^ 64)) by lia. apply Z.mod_small. lia.
Qed.

(** The fitting branch of [Merge]: this list's head page takes the id of
    the other head page and, behind it, that page's entries. *)
Lemma Merge_head_pages_fitting l other h o chain_head pool d od es1 es2 :
  4 ≤ page_shift pool < size_bits build →
  h ≠ o → 0 ≤ o < 2 ^ 64 →
  slots pool !! h = Some (Resident d) → size d = page_size pool →
  slots pool !! o = Some (Resident od) → size od = page_size pool →
  NextEntryOffset (size_bits build) d = Some (entry_offset (length es1)) →
  NextEntryOffset (size_bits build) od = Some (entry_offset (length es2)) →
  entry_offset (length es2) ≤ page_size pool →
  holds_entries d es1 → holds_entries od es2 →
  entry_offset (length es1) + kEntrySize * Z.of_nat (length es2)
  < page_size pool →
  ∃ d', size d' = page_size pool
        ∧ NextEntryOffset (size_bits build) d'
          = Some (entry_offset (length (es1 ++ o :: es2)))
        ∧ entry_offset (length (es1 ++ o :: es2)) ≤ page_size pool
        ∧ NextPageId64 d' = NextPageId64 d
        ∧ holds_entries d' (es1 ++ o :: es2)
        ∧ Merge_head_pages build l other h o o chain_head pool
          = Some (kSuccess, l, other, put_data h d' (note_modify h pool)).
Proof.
  intros Hshift Hne Ho Hd Hsz Hod Hosz Hoff Hooff Hole Hes1 Hes2 Hfits.
  destruct (page_size_fits build pool Hshift) as [Hps16 Hfit].
  destruct (page_size_multiple pool ltac:(lia)) as (m & Hm & Hmul).
  pose proof (page_size_double build pool Hshift) as Hdouble.
  set (n1 := length es1) in *. set (n2 := length es2) in *.
  assert (entry_offset (length (es1 ++ o :: es2))
          = entry_offset n1 + 8 + 8 * Z.of_nat n2) as Hlen.
  { rewrite length_app. simpl length. fold n1 n2.
    unfold entry_offset, kEntrySize, kFirstEntryOffset. lia. }
  rewrite Hlen.
  pose proof (entry_offset_ge n1) as Hge1.
  assert (entry_offset n2 = 16 + 8 * Z.of_nat n2) as Hn2 by reflexivity.
  assert (entry_offset n1 = 16 + 8 * Z.of_nat n1) as Hn1 by reflexivity.
  unfold kEntrySize, kFirstEntryOffset in *.
  (* the three writes into the head page *)
  destruct (StoreUint64_Some d o (entry_offset n1)) as [d1 Hd1]; [lia|lia|].
  destruct (StoreUint64_inv _ _ _ _ Hd1) as (_ & _ & Hsz1).
  destruct (CopySpan_Some od d1 16 (8 * Z.of_nat n2) (entry_offset n1 + 8))
    as [d2 Hd2]; [lia..|].
  pose proof (size_CopySpan _ _ _ _ _ _ Hd2) as Hsz2.
  destruct (SetNextEntryOffset_Some (entry_offset n1 + 8 + 8 * Z.of_nat n2) d2)
    as [d3 Hd3]; [unfold kFirstEntryOffset; lia|].
  pose proof (size_SetNextEntryOffset _ _ _ Hd3) as Hsz3.
  exists d3. split; [congruence|]. split.
  { apply (stored_offset_reads_back pool _ d2); [done|lia|done]. }
  split; [lia|]. split.
  { rewrite (NextPageId64_SetNextEntryOffset _ _ _ Hd3).
    rewrite (NextPageId64_CopySpan _ _ _ _ _ _ Hd2)
      by (unfold kFirstEntryOffset; lia).
    apply (NextPageId64_StoreUint64 _ _ _ _ Hd1).
    unfold kFirstEntryOffset. lia. }
  split.
  { intros i v Hi.
    rewrite (entries_SetNextEntryOffset _ _ _ _ _ Hd3)
      by apply entry_offset_ge.
    apply lookup_app_Some in Hi as [Hi | [Hlen1 Hi]].
    - apply lookup_lt_Some in Hi as Hlt. fold n1 in Hlt.
      rewrite (subspan_CopySpan_disjoint _ _ _ _ _ _ _ _ Hd2)
        by (left; unfold entry_offset, kEntrySize in *; lia).
      rewrite (subspan_StoreUint64_disjoint _ _ _ _ _ _ Hd1)
        by (left; unfold entry_offset, kEntrySize in *; lia).
      by apply Hes1.
    - fold n1 in Hlen1, Hi.
      destruct (i - n1)%nat as [|j] eqn:Ej; simpl in Hi.
      + injection Hi as <-. replace i with n1 by lia.
        rewrite (subspan_CopySpan_disjoint _ _ _ _ _ _ _ _ Hd2)
          by (left; lia).
        rewrite (LoadUint64_StoreUint64 _ _ _ _ Hd1).
        f_equal. apply Z.mod_small. lia.
      + apply lookup_lt_Some in Hi as Hlt. fold n2 in Hlt.
        replace (entry_offset i)
          with (entry_offset n1 + 8 + 8 * Z.of_nat j)
          by (unfold entry_offset, kEntrySize, kFirstEntryOffset; lia).
        rewrite (subspan_CopySpan_inside _ _ _ _ _ _ _ _ Hd2) by lia.
        by apply Hes2 in Hi. }
  (* the run *)
  unfold Merge_head_pages. op_run.
  rewrite !entry_offset_sound by lia. cbn [orb]. op_run.
  unfold kFirstEntryOffset, kEntrySize.
  replace (entry_offset n2 - 16) with (8 * Z.of_nat n2) by lia.
  rewrite (to_size_t_small build (8 * Z.of_nat n2)) by lia.
  rewrite (to_size_t_small build (entry_offset n1 + 8 * Z.of_nat n2))
    by lia.
  rewrite (proj2 (Z.ltb_lt _ _)) by lia.
  rewrite (to_size_t_small build (entry_offset n1 + 8 * Z.of_nat n2 + 8))
    by lia.
  rewrite (proj2 (Z.leb_le _ _)) by lia. op_run.
  rewrite (to_size_t_small build (entry_offset n1 + 8)) by lia.
  assert (data o (put_data h d1 (note_modify h pool))
          = Some (od, put_data h d1 (note_modify h pool))) as ->.
  { unfold data. simpl. by rewrite lookup_insert_ne, Hod. }
  op_run.
  rewrite (to_size_t_small build (entry_offset n1 + 8 + 8 * Z.of_nat n2))
    by lia.
  op_run. by rewrite !put_data_put_data.
Qed.
End MergeHeads.


Section MergeHeads2.
Import Span SpanFacts FreePageListFormat FormatFacts.
Variable build : Build.

(** The overflowing branch of [Merge]: the newest entries [eb] of this
    list's head page fill up the other head page, which becomes this
    head page's successor. *)
Lemma Merge_head_pages_overflow l other h o chain_head pool d od ea eb es2 :
  4 ≤ page_shift pool < size_bits build →
  h ≠ o → 0 ≤ o < 2 ^ 64 →
  slots pool !! h = Some (Resident d) → size d = page_size pool →
  slots pool !! o = Some (Resident od) → size od = page_size pool →
  NextEntryOffset (size_bits build) d
  = Some (entry_offset (length (ea ++ eb))) →
  NextEntryOffset (size_bits build) od = Some (entry_offset (length es2)) →
  entry_offset (length (ea ++ eb)) ≤ page_size pool →
  entry_offset (length (es2 ++ eb)) = page_size pool →
  holds_entries d (ea ++ eb) → holds_entries od es2 →
  ∃ dh do,
    size dh = page_size pool ∧ size do = page_size pool
    ∧ NextEntryOffset (size_bits build) dh = Some (entry_offset (length ea))
    ∧ NextPageId64 dh = Some o
    ∧ holds_entries dh ea
    ∧ NextEntryOffset (size_bits build) do
      = Some (entry_offset (length (es2 ++ eb)))
    ∧ NextPageId64 do = NextPageId64 od
    ∧ holds_entries do (es2 ++ eb)
    ∧ Merge_head_pages build l other h o o chain_head pool
      = Some (kSuccess, l, other,
              put_data h dh
                (put_data o do (note_modify o (note_modify h pool)))).
Proof.
  intros Hshift Hne Ho Hd Hsz Hod Hosz Hoff Hooff Hle Hfull Hes1 Hes2.
  destruct (page_size_fits build pool Hshift) as [Hps16 Hfit].
  pose proof (page_size_double build pool Hshift) as Hdouble.
  rewrite !length_app in *.
  set (na := length ea) in *. set (nb := length eb) in *.
  set (n2 := length es2) in *.
  assert (entry_offset (na + nb) = 16 + 8 * Z.of_nat na + 8 * Z.of_nat nb)
    as Hn1 by (unfold entry_offset, kEntrySize, kFirstEntryOffset; lia).
  assert (entry_offset (n2 + nb) = 16 + 8 * Z.of_nat n2 + 8 * Z.of_nat nb)
    as Hn2b by (unfold entry_offset, kEntrySize, kFirstEntryOffset; lia).
  assert (entry_offset n2 = 16 + 8 * Z.of_nat n2) as Hn2 by reflexivity.
  assert (entry_offset na = 16 + 8 * Z.of_nat na) as Hna by reflexivity.
  unfold kEntrySize, kFirstEntryOffset in *.
  (* the writes into the other head page *)
  destruct (CopySpan_Some d od (entry_offset na) (8 * Z.of_nat nb)
              (entry_offset n2)) as [o1 Ho1]; [lia..|].
  pose proof (size_CopySpan _ _ _ _ _ _ Ho1) as Hszo1.
  destruct (SetNextEntryOffset_Some (page_size pool) o1) as [o2 Ho2];
    [unfold kFirstEntryOffset; lia|].
  pose proof (size_SetNextEntryOffset _ _ _ Ho2) as Hszo2.
  (* the writes into this head page *)
  destruct (SetNextPageId64_Some o d) as [h1 Hh1];
    [unfold kFirstEntryOffset; lia|].
  pose proof (size_SetNextPageId64 _ _ _ Hh1) as Hszh1.
  destruct (SetNextEntryOffset_Some (entry_offset na) h1) as [h2 Hh2];
    [unfold kFirstEntryOffset; lia|].
  pose proof (size_SetNextEntryOffset _ _ _ Hh2) as Hszh2.
  exists h2, o2. split; [congruence|]. split; [congruence|].
  split; [apply (stored_offset_reads_back build pool _ h1); [done|lia|done]|].
  split.
  { rewrite (NextPageId64_SetNextEntryOffset _ _ _ Hh2).
    rewrite (NextPageId64_SetNextPageId64 _ _ _ Hh1).
    f_equal. apply Z.mod_small. lia. }
  split.
  { intros i v Hi.
    rewrite (entries_SetNextEntryOffset _ _ _ _ _ Hh2)
      by apply entry_offset_ge.
    rewrite (entries_SetNextPageId64 _ _ _ _ _ Hh1)
      by apply entry_offset_ge.
    apply Hes1. by apply lookup_app_l_Some. }
  split.
  { rewrite Hfull.
    apply (stored_offset_reads_back build pool _ o1); [done|lia|done]. }
  split.
  { rewrite (NextPageId64_SetNextEntryOffset _ _ _ Ho2).
    apply (NextPageId64_CopySpan _ _ _ _ _ _ Ho1).
    unfold kFirstEntryOffset. lia. }
  split.
  { intros i v Hi.
    rewrite (entries_SetNextEntryOffset _ _ _ _ _ Ho2)
      by apply entry_offset_ge.
    apply lookup_app_Some in Hi as [Hi | [Hlen2 Hi]].
    - apply lookup_lt_Some in Hi as Hlt. fold n2 in Hlt.
      rewrite (subspan_CopySpan_disjoint _ _ _ _ _ _ _ _ Ho1)
        by (left; unfold entry_offset, kEntrySize in *; lia).
      by apply Hes2.
    - fold n2 in Hlen2, Hi.
      apply lookup_lt_Some in Hi as Hlt. fold nb in Hlt.
      replace (entry_offset i)
        with (entry_offset n2 + 8 * Z.of_nat (i - n2))
        by (unfold entry_offset, kEntrySize, kFirstEntryOffset; lia).
      rewrite (subspan_CopySpan_inside _ _ _ _ _ _ _ _ Ho1) by lia.
      replace (entry_offset na + 8 * Z.of_nat (i - n2))
        with (entry_offset (na + (i - n2)))
        by (unfold entry_offset, kEntrySize, kFirstEntryOffset; lia).
      apply Hes1. rewrite lookup_app_r by (fold na; lia).
      fold na. rewrite <-Hi. f_equal. lia. }
  (* the run *)
  assert (<[o:=Resident o1]> (slots pool) !! h = Some (Resident d)) as Hd1
    by (by rewrite lookup_insert_ne).
  assert (<[o:=Resident o2]> (<[o:=Resident o1]> (slots pool)) !! h
          = Some (Resident d)) as Hd2
    by (by rewrite !lookup_insert_ne).
  assert (<[h:=Resident h1]>
            (<[o:=Resident o2]> (<[o:=Resident o1]> (slots pool))) !! h
          = Some (Resident h1)) as Hd3
    by (by rewrite lookup_insert_eq).
  unfold Merge_head_pages. op_run.
  rewrite !entry_offset_sound by lia. cbn [orb]. op_run.
  unfold kFirstEntryOffset, kEntrySize.
  replace (entry_offset n2 - 16) with (8 * Z.of_nat n2) by lia.
  rewrite (to_size_t_small build (8 * Z.of_nat n2)) by lia.
  rewrite (to_size_t_small build (entry_offset (na + nb) + 8 * Z.of_nat n2))
    by lia.
  rewrite (proj2 (Z.ltb_ge _ _)) by lia. op_run.
  rewrite (proj2 (Z.leb_le (entry_offset n2) _)) by lia. op_run.
  replace (page_size pool - entry_offset n2) with (8 * Z.of_nat nb) by lia.
  rewrite (to_size_t_small build (8 * Z.of_nat nb)) by lia.
  rewrite (proj2 (Z.leb_le _ _)) by lia. op_run.
  replace (entry_offset (na + nb) - 8 * Z.of_nat nb) with (entry_offset na)
    by lia.
  rewrite (to_size_t_small build (entry_offset na)) by lia.
  assert (data h (note_modify o (note_modify h pool))
          = Some (d, note_modify o (note_modify h pool))) as ->
    by (unfold data; simpl; by rewrite Hd).
  op_run. by rewrite !put_data_put_data.
Qed.
End MergeHeads2.


(** ** Merging two chains *)

Section MergeChains.
Import Span SpanFacts FreePageListFormat FormatFacts.
Variable build : Build.

(** The run of [Merge] up to step 2 when the source is a single page. *)
Lemma Merge_single_page l other pool d od next :
  was_merged_ l = false → was_merged_ other = false →
  tail_page_is_defined_ other = true → is_empty build other = false →
  tail_page_id_ other = head_page_id_ other →
  slots pool !! head_page_id_ l = Some (Resident d) →
  slots pool !! head_page_id_ other = Some (Resident od) →
  NextPageId64 d = Some next →
  Merge build l other pool
  = Merge_head_pages build l (marked build other)
      (head_page_id_ l) (head_page_id_ other) (head_page_id_ other) next
      (note_fetch (head_page_id_ other) kFetchPageData
         (note_fetch (head_page_id_ l) kFetchPageData pool)).
Proof.
  intros Hml Hmo Htd He Htail Hd Hod Hnext.
  unfold Merge, marked, is_empty in *. rewrite Hml, Hmo, Htd. op_run.
  destruct (check_is_on build);
    cbn [set_was_merged head_page_id_ tail_page_id_];
    rewrite He; op_run; rewrite Htail, Z.eqb_refl; reflexivity.
Qed.

(** The run of [Merge] up to step 2 when the source has several pages:
    step 1 has linked the source's tail page to this list's chain. *)
Lemma Merge_spliced l other pool d od td td' next other_next :
  was_merged_ l = false → was_merged_ other = false →
  tail_page_is_defined_ other = true → is_empty build other = false →
  tail_page_id_ other ≠ head_page_id_ other →
  slots pool !! head_page_id_ l = Some (Resident d) →
  slots pool !! head_page_id_ other = Some (Resident od) →
  slots pool !! tail_page_id_ other = Some (Resident td) →
  NextPageId64 d = Some next →
  SetNextPageId64 next td = Some td' →
  NextPageId64 od = Some other_next →
  Merge build l other pool
  = Merge_head_pages build l (marked build other)
      (head_page_id_ l) (head_page_id_ other) (head_page_id_ other)
      other_next
      (put_data (tail_page_id_ other) td'
         (note_modify (tail_page_id_ other)
            (note_fetch (tail_page_id_ other) kFetchPageData
               (note_fetch (head_page_id_ other) kFetchPageData
                  (note_fetch (head_page_id_ l) kFetchPageData pool))))).
Proof.
  intros Hml Hmo Htd He Htail Hd Hod Htd0 Hnext Hset Hon.
  assert (<[tail_page_id_ other:=Resident td']> (slots pool)
            !! head_page_id_ other = Some (Resident od)) as Hod'
    by (by rewrite lookup_insert_ne).
  unfold Merge, marked, is_empty in *. rewrite Hml, Hmo, Htd. op_run.
  destruct (check_is_on build);
    cbn [set_was_merged head_page_id_ tail_page_id_];
    rewrite He; op_run;
    rewrite (proj2 (Z.eqb_neq _ _) Htail); op_run; reflexivity.
Qed.

Lemma chain_last_page pool full head pages ids t :
  chain build pool full head pages ids → last pages = Some t →
  t ∈ pages ∧ ∃ es, list_page build pool t es (kInvalidPageId build).
Proof.
  intros Hchain. revert t.
  induction Hchain as [full | full page es next pages ids Hv Hp Hfull Hnin Hc IH];
    intros t Hlast; [done|].
  destruct pages as [|q pages].
  - injection Hlast as <-. split; [set_solver|]. exists es.
    inversion Hc; subst. done.
  - rewrite last_cons_cons in Hlast. destruct (IH t Hlast) as [Hin Hes].
    split; [set_solver|done].
Qed.

(** Linking the last page of a chain to a second chain. *)
Lemma chain_relink pool pool' full head pages ids t td td' next pages2 ids2 :
  chain build pool full head pages ids → last pages = Some t →
  page_shift pool' = page_shift pool →
  slots pool !! t = Some (Resident td) →
  slots pool' !! t = Some (Resident td') →
  SetNextPageId64 next td = Some td' →
  (∀ page, page ∈ pages → page ≠ t →
           slots pool' !! page = slots pool !! page) →
  (∀ page, page ∈ pages → page ∉ pages2) →
  chain build pool' true next pages2 ids2 →
  chain build pool' full head (pages ++ pages2) (ids ++ ids2).
Proof.
  intros Hchain Hlast Hshift Htd Htd' Hset Hsame Hdisj Hc2.
  pose proof (chain_head_range _ _ _ _ _ _ Hc2) as Hnr.
  pose proof (kInvalidPageId_range build) as HK.
  induction Hchain as [full | full page es next0 pages ids Hv Hp Hfull Hnin Hc IH];
    [done|].
  rewrite <-!app_assoc. simpl.
  destruct pages as [|q pages].
  - injection Hlast as <-. inversion Hc; subst. simpl.
    apply chain_page with next; try done.
    + destruct Hp as (d & Hd & Hsz & Hoff & Hle & Hnext & Hes & Hval).
      rewrite Htd in Hd. injection Hd as <-.
      exists td'. unfold page_size in *. rewrite Hshift.
      split_and!; try done.
      * by rewrite (size_SetNextPageId64 _ _ _ Hset).
      * by rewrite (NextEntryOffset_SetNextPageId64 _ _ _ _ Hset).
      * rewrite (NextPageId64_SetNextPageId64 _ _ _ Hset). f_equal.
        apply Z.mod_small. lia.
      * intros i v Hi.
        rewrite (entries_SetNextPageId64 _ _ _ _ _ Hset)
          by apply entry_offset_ge.
        by apply Hes.
    + unfold page_size in *. by rewrite Hshift.
    + apply Hdisj. set_solver.
  - rewrite last_cons_cons in Hlast.
    assert (t ∈ q :: pages) as Hin
      by (by apply (chain_last_page _ _ _ _ _ _ Hc)).
    apply chain_page with next0; try done.
    + apply (list_page_frame build pool); [done| |done].
      apply Hsame; [set_solver|]. intros ->. done.
    + unfold page_size in *. by rewrite Hshift.
    + change (page ∉ (q :: pages) ++ pages2).
      intros [?|?]%elem_of_app; [done|].
      by apply (Hdisj page); [set_solver|].
    + change (chain build pool' true next0 ((q :: pages) ++ pages2)
                (ids ++ ids2)).
      apply IH; [done| |].
      * intros p Hp'. apply Hsame. set_solver.
      * intros p Hp'. apply Hdisj. set_solver.
Qed.
End MergeChains.


Section MergeChains2.
Import Span SpanFacts FreePageListFormat FormatFacts.
Variable build : Build.

Lemma pool_ok_ext pool pool' :
  page_shift pool' = page_shift pool → slots pool' = slots pool →
  pool_ok build pool → pool_ok build pool'.
Proof.
  intros Hshift Hslots [H1 H2]. unfold pool_ok, page_size in *.
  rewrite Hshift, Hslots. done.
Qed.

(** Step 1 of [Merge] on two chains: the pool in which step 2 starts. *)
Lemma Merge_step1 l other pool es1 next1 es2 next2 rest2 ids2 :
  pool_ok build pool →
  was_merged_ l = false → was_merged_ other = false →
  tail_page_is_defined_ other = true →
  list_page build pool (head_page_id_ l) es1 next1 →
  valid_page_id build (head_page_id_ other) →
  list_page build pool (head_page_id_ other) es2 next2 →
  head_page_id_ other ∉ rest2 →
  chain build pool true next2 rest2 ids2 →
  tail_tracked build other (head_page_id_ other :: rest2) →
  ∃ pool_s chain_head,
    Merge build l other pool
    = Merge_head_pages build l (marked build other)
        (head_page_id_ l) (head_page_id_ other) (head_page_id_ other)
        chain_head pool_s
    ∧ page_shift pool_s = page_shift pool
    ∧ match last rest2 with
      | None => slots pool_s = slots pool
      | Some t =>
          ∃ td td', slots pool !! t = Some (Resident td)
                    ∧ SetNextPageId64 next1 td = Some td'
                    ∧ slots pool_s = <[t := Resident td']> (slots pool)
      end.
Proof.
  intros Hok Hml Hmo Htd Hp1 Hv2 Hp2 Hnin2 Hc2 Htail.
  pose proof Hok as [Hshift Hsize].
  destruct (page_size_fits build pool Hshift) as [Hps16 _].
  destruct Hp1 as (d & Hd & Hsz & _ & _ & Hnext & _).
  destruct Hp2 as (od & Hod & Hosz & _ & _ & Honext & _).
  assert (is_empty build other = false) as He
    by (unfold is_empty; apply Z.eqb_neq; destruct Hv2; lia).
  unfold tail_tracked in Htail.
  destruct rest2 as [|q rest2].
  - simpl in Htail.
    eexists _, _. split; [by apply (Merge_single_page build _ _ _ d od next1)|].
    done.
  - rewrite last_cons_cons in Htail.
    destruct (last (q :: rest2)) as [t|] eqn:Hlast;
      [|by apply last_None in Hlast].
    simpl in Htail.
    destruct (chain_last_page _ _ _ _ _ _ _ Hc2 Hlast)
      as (Hin & es & td & Htd0 & Htsz & _).
    destruct (SetNextPageId64_Some next1 td ltac:(lia)) as [td' Hset].
    eexists _, _. split.
    + apply (Merge_spliced build _ _ _ d od td td' next1 next2);
        first [done | by rewrite Htail | rewrite Htail; by intros ->].
    + rewrite Htail. split; [done|]. by exists td, td'.
Qed.

(** What step 1 leaves of the pages that step 2 works on. *)
Lemma step1_facts l other pool pool_s next1 rest1 rest2 d od :
  pool_ok build pool →
  page_shift pool_s = page_shift pool →
  match last rest2 with
  | None => slots pool_s = slots pool
  | Some t =>
      ∃ td td', slots pool !! t = Some (Resident td)
                ∧ SetNextPageId64 next1 td = Some td'
                ∧ slots pool_s = <[t := Resident td']> (slots pool)
  end →
  slots pool !! head_page_id_ l = Some (Resident d) →
  slots pool !! head_page_id_ other = Some (Resident od) →
  head_page_id_ other ∉ rest2 →
  (∀ page, page ∈ head_page_id_ l :: rest1 →
           page ∉ head_page_id_ other :: rest2) →
  slots pool_s !! head_page_id_ l = Some (Resident d)
  ∧ slots pool_s !! head_page_id_ other = Some (Resident od)
  ∧ (∀ page, page ∈ rest1 → slots pool_s !! page = slots pool !! page)
  ∧ pool_ok build pool_s.
Proof.
  intros Hok Hshift_s Hslots_s Hd Hod Hnin2 Hdisj.
  pose proof Hok as [Hshift Hsize].
  destruct (last rest2) as [t|] eqn:Hlast.
  - destruct Hslots_s as (td & td' & Htd0 & Hset & Hs).
    assert (t ∈ rest2) as Hin.
    { apply last_Some in Hlast as [l' ->]. set_solver. }
    assert (t ≠ head_page_id_ l)
      by (intros ->; apply (Hdisj (head_page_id_ l)); set_solver).
    assert (t ≠ head_page_id_ other) by (by intros ->).
    split_and!.
    + by rewrite Hs, lookup_insert_ne.
    + by rewrite Hs, lookup_insert_ne.
    + intros p Hp. rewrite Hs, lookup_insert_ne; [done|].
      intros ->. apply (Hdisj p); set_solver.
    + split; [by rewrite Hshift_s|].
      intros id di. unfold page_size. rewrite Hshift_s, Hs.
      destruct (decide (t = id)) as [<- | Hid].
      * rewrite lookup_insert_eq. intros [= <-].
        rewrite (size_SetNextPageId64 _ _ _ Hset). by apply (Hsize t).
      * rewrite lookup_insert_ne by done. apply Hsize.
  - rewrite Hslots_s. split_and!; try done.
    by apply (pool_ok_ext pool).
Qed.

(** [Merge] when everything fits into this list's head page: this list
    takes the ids of the source's head page and that page itself, and
    keeps its own chain.  Pages behind the source's head page do not
    become part of this list. *)
Lemma Merge_fitting_chain l other pool es1 next1 rest1 ids1
    es2 next2 rest2 ids2 :
  pool_ok build pool →
  was_merged_ l = false → was_merged_ other = false →
  tail_page_is_defined_ other = true →
  valid_page_id build (head_page_id_ l) →
  list_page build pool (head_page_id_ l) es1 next1 →
  head_page_id_ l ∉ rest1 →
  chain build pool true next1 rest1 ids1 →
  valid_page_id build (head_page_id_ other) →
  list_page build pool (head_page_id_ other) es2 next2 →
  head_page_id_ other ∉ rest2 →
  chain build pool true next2 rest2 ids2 →
  tail_tracked build other (head_page_id_ other :: rest2) →
  (∀ page, page ∈ head_page_id_ l :: rest1 →
           page ∉ head_page_id_ other :: rest2) →
  entry_offset (length es1) + kEntrySize * Z.of_nat (length es2)
  < page_size pool →
  ∃ other' pool',
    Merge build l other pool = Some (kSuccess, l, other', pool')
    ∧ chain build pool' false (head_page_id_ l) (head_page_id_ l :: rest1)
        (rev es2 ++ head_page_id_ other
           :: rev es1 ++ head_page_id_ l :: ids1)
    ∧ pool_ok build pool'.
Proof.
  intros Hok Hml Hmo Htd Hv1 Hp1 Hnin1 Hc1 Hv2 Hp2 Hnin2 Hc2 Htail Hdisj Hfits.
  destruct (Merge_step1 l other pool es1 next1 es2 next2 rest2 ids2)
    as (pool_s & fc & -> & Hshift_s & Hslots_s); try done.
  pose proof Hok as [Hshift Hsize].
  pose proof (kInvalidPageId_range build) as HK.
  destruct Hp1 as (d & Hd & Hsz & Hoff & Hle & Hnext & Hes & Hval).
  destruct Hp2 as (od & Hod & Hosz & Hooff & Hole & Honext & Hoes & Hoval).
  assert (head_page_id_ l ≠ head_page_id_ other) as Hne
    by (intros E; apply (Hdisj (head_page_id_ l)); set_solver).
  destruct (step1_facts l other pool pool_s next1 rest1 rest2 d od)
    as (Hd_s & Hod_s & Hrest_s & Hok_s); try done.
  destruct (Merge_head_pages_fitting build l (marked build other)
              (head_page_id_ l) (head_page_id_ other) fc pool_s d od es1 es2)
    as (d' & Hsz' & Hoff' & Hle' & Hnext' & Hes' & ->); try done.
  { by rewrite Hshift_s. }
  { destruct Hv2. lia. }
  { unfold page_size. by rewrite Hshift_s. }
  { unfold page_size. by rewrite Hshift_s. }
  { unfold page_size in *. by rewrite Hshift_s. }
  { unfold page_size in *. by rewrite Hshift_s. }
  eexists _, _. split; [done|]. split.
  - replace (rev es2 ++ head_page_id_ other
               :: rev es1 ++ head_page_id_ l :: ids1)
      with (rev (es1 ++ head_page_id_ other :: es2)
              ++ head_page_id_ l :: ids1)
      by (rewrite rev_app_distr; simpl; by rewrite <-!app_assoc).
    apply chain_page with next1; try done.
    + exists d'. split; [apply lookup_put_data_eq|].
      page_size_norm. split_and!; try done.
      * by rewrite Hnext'.
      * apply Forall_app. split; [done|]. by constructor.
    + apply (chain_frame build pool); [done| |done].
      intros p Hp. simpl. rewrite lookup_insert_ne by (by intros <-).
      by apply Hrest_s.
  - apply pool_ok_put_data; [exact Hok_s|]. by page_size_norm.
Qed.

(** [Merge] when the entries do not fit into this list's head page: the
    source's head page is filled up from this list's head page and becomes
    the second page of this list.  The rest of the source's chain follows,
    and this list's old chain behind it; when the source has one page
    only, this list's old chain is not linked. *)
Lemma Merge_overflow_chain l other pool ea eb next1 rest1 ids1
    es2 next2 rest2 ids2 :
  pool_ok build pool →
  was_merged_ l = false → was_merged_ other = false →
  tail_page_is_defined_ other = true →
  valid_page_id build (head_page_id_ l) →
  list_page build pool (head_page_id_ l) (ea ++ eb) next1 →
  head_page_id_ l ∉ rest1 →
  chain build pool true next1 rest1 ids1 →
  valid_page_id build (head_page_id_ other) →
  list_page build pool (head_page_id_ other) es2 next2 →
  head_page_id_ other ∉ rest2 →
  chain build pool true next2 rest2 ids2 →
  tail_tracked build other (head_page_id_ other :: rest2) →
  (∀ page, page ∈ head_page_id_ l :: rest1 →
           page ∉ head_page_id_ other :: rest2) →
  entry_offset (length (es2 ++ eb)) = page_size pool →
  ∃ other' pool',
    Merge build l other pool = Some (kSuccess, l, other', pool')
    ∧ chain build pool' false (head_page_id_ l)
        (head_page_id_ l :: head_page_id_ other
           :: match rest2 with [] => [] | _ => rest2 ++ rest1 end)
        (rev ea ++ head_page_id_ l
           :: rev (es2 ++ eb) ++ head_page_id_ other
           :: match rest2 with [] => [] | _ => ids2 ++ ids1 end)
    ∧ pool_ok build pool'.
Proof.
  intros Hok Hml Hmo Htd Hv1 Hp1 Hnin1 Hc1 Hv2 Hp2 Hnin2 Hc2 Htail Hdisj Hfull.
  destruct (Merge_step1 l other pool (ea ++ eb) next1 es2 next2 rest2 ids2)
    as (pool_s & fc & -> & Hshift_s & Hslots_s); try done.
  pose proof Hok as [Hshift Hsize].
  pose proof (kInvalidPageId_range build) as HK.
  pose proof Hp1 as (d & Hd & Hsz & Hoff & Hle & Hnext & Hes & Hval).
  pose proof Hp2 as (od & Hod & Hosz & Hooff & Hole & Honext & Hoes & Hoval).
  assert (head_page_id_ l ≠ head_page_id_ other) as Hne
    by (intros E; apply (Hdisj (head_page_id_ l)); set_solver).
  destruct (step1_facts l other pool pool_s next1 rest1 rest2 d od)
    as (Hd_s & Hod_s & Hrest_s & Hok_s); try done.
  destruct (Merge_head_pages_overflow build l (marked build other)
              (head_page_id_ l) (head_page_id_ other) fc pool_s d od
              ea eb es2)
    as (dh & do & Hszh & Hszo & Hoffh & Hnexth & Hesh & Hoffo & Hnexto
        & Heso & ->); try done.
  { by rewrite Hshift_s. }
  { destruct Hv2. lia. }
  { unfold page_size. by rewrite Hshift_s. }
  { unfold page_size. by rewrite Hshift_s. }
  { unfold page_size in *. by rewrite Hshift_s. }
  { unfold page_size in *. by rewrite Hshift_s. }
  apply Forall_app in Hval as [Hvala Hvalb].
  set (pool' := put_data _ dh _).
  assert (page_shift pool' = page_shift pool) as Hshift' by done.
  assert (page_size pool' = page_size pool) as Hps'
    by (unfold page_size; by rewrite Hshift').
  assert (page_size pool_s = page_size pool) as Hps_s
    by (unfold page_size; by rewrite Hshift_s).
  assert (slots pool' !! head_page_id_ l = Some (Resident dh)) as Hdh
    by apply lookup_put_data_eq.
  assert (slots pool' !! head_page_id_ other = Some (Resident do)) as Hdo.
  { unfold pool'. simpl. rewrite lookup_insert_ne by done.
    by rewrite lookup_insert_eq. }
  assert (∀ page, page ≠ head_page_id_ l → page ≠ head_page_id_ other →
                  slots pool' !! page = slots pool_s !! page) as Hother.
  { intros p ? ?. unfold pool'. simpl. by rewrite !lookup_insert_ne. }
  assert (list_page build pool' (head_page_id_ l) ea (head_page_id_ other))
    as Hlp1.
  { exists dh. rewrite Hps'. rewrite Hps_s in Hszh.
    split_and!; try done.
    rewrite length_app in Hle.
    unfold entry_offset, kEntrySize, kFirstEntryOffset in *. lia. }
  assert (list_page build pool' (head_page_id_ other) (es2 ++ eb) next2)
    as Hlp2.
  { exists do. rewrite Hps'. rewrite Hps_s in Hszo.
    split_and!; try done.
    - lia.
    - by rewrite Hnexto.
    - by apply Forall_app. }
  eexists _, _. split; [done|]. split.
  - apply chain_page with (head_page_id_ other); try done.
    { destruct rest2; [set_solver|].
      intros Hin. apply (Hdisj (head_page_id_ l)); [set_solver|].
      apply elem_of_cons in Hin as [?|Hin]; [done|].
      apply elem_of_app in Hin as [Hin|Hin]; [set_solver|done]. }
    apply chain_page with next2; try done.
    { intros _. by rewrite Hps'. }
    { destruct rest2; [set_solver|].
      intros Hin. apply elem_of_app in Hin as [Hin|Hin]; [done|].
      apply (Hdisj (head_page_id_ other)); set_solver. }
    assert (chain build pool' true next1 rest1 ids1) as Hc1'.
    { apply (chain_frame build pool); [done| |done].
      intros p Hp. rewrite Hother.
      - by apply Hrest_s.
      - by intros ->.
      - intros ->. apply (Hdisj (head_page_id_ other)); set_solver. }
    destruct rest2 as [|q rest2].
    + inversion Hc2; subst. constructor.
    + destruct (last (q :: rest2)) as [t|] eqn:Hlast;
        [|by apply last_None in Hlast].
      destruct Hslots_s as (td & td' & Htd0 & Hset & Hs).
      assert (t ∈ q :: rest2) as Hin.
      { apply last_Some in Hlast as [l' ->]. set_solver. }
      assert (t ≠ head_page_id_ l)
        by (intros ->; apply (Hdisj (head_page_id_ l)); set_solver).
      assert (t ≠ head_page_id_ other) by (by intros ->).
      apply (chain_relink build pool pool' true next2 (q :: rest2) ids2
               t td td' next1 rest1 ids1); try done.
      * rewrite Hother, Hs by done. apply lookup_insert_eq.
      * intros p Hp Hpt. rewrite Hother, Hs.
        -- by rewrite lookup_insert_ne.
        -- intros ->. apply (Hdisj (head_page_id_ l)); set_solver.
        -- by intros ->.
      * intros p Hp Hp'. apply (Hdisj p); set_solver.
  - unfold pool'. apply pool_ok_put_data; [|exact Hszh].
    apply pool_ok_put_data; [exact Hok_s|exact Hszo].
Qed.
End MergeChains2.

(** * The operations on well-formed lists *)

Section Results.
Import Span SpanFacts FreePageListFormat FormatFacts.
Variable build : Build.

(** X2. [Pop] on a well-formed pool leaves a page buffer in one case only:
    the list is not empty, its head page is resident, and the stored
    offset of the head page is [page_size + kEntrySize].  In every other
    case it returns, whatever the pages hold. *)
Theorem Pop_undefined_iff l pool :
  pool_ok build pool → sound_failures pool → was_merged_ l = false →
  Pop build l pool = None
  ↔ is_empty build l = false
    ∧ ∃ d, slots pool !! head_page_id_ l = Some (Resident d)
           ∧ NextEntryOffset (size_bits build) d
             = Some (page_size pool + kEntrySize).
Proof.
  intros Hok Hsound Hm. pose proof Hok as [Hshift Hsize].
  destruct (page_size_fits build pool Hshift) as [Hps16 _].
  split.
  - intros HPop. destruct (is_empty build l) eqn:He.
    { revert HPop. unfold Pop. rewrite Hm, He. by op_run. }
    split; [done|].
    destruct (StorePage_cases (head_page_id_ l) kFetchPageData pool Hsound)
      as [(status & Hfailed & HStore) | [[d Hd] HStore]].
    { revert HPop. unfold Pop. rewrite Hm, He. op_run.
      rewrite HStore. simpl. by rewrite Hfailed. }
    exists d. split; [done|].
    destruct (NextEntryOffset_Some (size_bits build) d) as [offset Hoff];
      [rewrite (Hsize _ _ Hd); lia|].
    destruct (decide (offset = page_size pool + kEntrySize)) as [-> | Hne];
      [done|].
    destruct (Pop_defined build l pool d offset) as [r Hr]; try done.
    congruence.
  - intros (He & d & Hd & Hoff).
    by apply (Pop_offset_beyond_end_undefined build l pool d).
Qed.

(** X3. [Pop] on a well-formed list hands out the id at the front and
    leaves a well-formed list of the remaining ids, on pages of the list
    it started from; a tracked tail page stays tracked. *)
Theorem Pop_well_formed l pool pages ids :
  pool_ok build pool → was_merged_ l = false →
  chain build pool false (head_page_id_ l) pages ids →
  ∃ l' pool' pages',
    Pop build l pool
    = Some (kSuccess, default (kInvalidPageId build) (head ids), l', pool')
    ∧ chain build pool' false (head_page_id_ l') pages' (tail ids)
    ∧ pages' `sublist_of` pages
    ∧ pool_ok build pool'
    ∧ was_merged_ l' = false
    ∧ (tail_tracked build l pages → tail_tracked build l' pages').
Proof. apply Pop_chain. Qed.
(** X12. [Merge] when the entries of both head pages fit into this list's
    head page, with room for the id of the source's head page: it
    succeeds, and this list then yields the ids of the source's head
    page, the source's head page itself, and its own ids as before.  The
    pages behind the source's head page are not part of the list. *)
Theorem Merge_fitting_list l other pool es1 next1 rest1 ids1
    es2 next2 rest2 ids2 :
  pool_ok build pool →
  was_merged_ l = false → was_merged_ other = false →
  tail_page_is_defined_ other = true →
  valid_page_id build (head_page_id_ l) →
  list_page build pool (head_page_id_ l) es1 next1 →
  head_page_id_ l ∉ rest1 →
  chain build pool true next1 rest1 ids1 →
  valid_page_id build (head_page_id_ other) →
  list_page build pool (head_page_id_ other) es2 next2 →
  head_page_id_ other ∉ rest2 →
  chain build pool true next2 rest2 ids2 →
  tail_tracked build other (head_page_id_ other :: rest2) →
  (∀ page, page ∈ head_page_id_ l :: rest1 →
           page ∉ head_page_id_ other :: rest2) →
  entry_offset (length es1) + kEntrySize * Z.of_nat (length es2)
  < page_size pool →
  ∃ other' pool',
    Merge build l other pool = Some (kSuccess, l, other', pool')
    ∧ chain build pool' false (head_page_id_ l) (head_page_id_ l :: rest1)
        (rev es2 ++ head_page_id_ other
           :: rev es1 ++ head_page_id_ l :: ids1)
    ∧ pool_ok build pool'.
Proof. apply Merge_fitting_chain. Qed.

(** X13. [Merge] when the entries do not fit into this list's head page:
    the newest entries [eb] of this list's head page fill up the source's
    head page, which becomes the second page of this list.  When the
    source has more pages, they follow, and this list's old chain comes
    behind them; when the source is a single page, this list's old chain
    is not part of the list any more. *)
Theorem Merge_overflow_list l other pool ea eb next1 rest1 ids1
    es2 next2 rest2 ids2 :
  pool_ok build pool →
  was_merged_ l = false → was_merged_ other = false →
  tail_page_is_defined_ other = true →
  valid_page_id build (head_page_id_ l) →
  list_page build pool (head_page_id_ l) (ea ++ eb) next1 →
  head_page_id_ l ∉ rest1 →
  chain build pool true next1 rest1 ids1 →
  valid_page_id build (head_page_id_ other) →
  list_page build pool (head_page_id_ other) es2 next2 →
  head_page_id_ other ∉ rest2 →
  chain build pool true next2 rest2 ids2 →
  tail_tracked build other (head_page_id_ other :: rest2) →
  (∀ page, page ∈ head_page_id_ l :: rest1 →
           page ∉ head_page_id_ other :: rest2) →
  entry_offset (length (es2 ++ eb)) = page_size pool →
  ∃ other' pool',
    Merge build l other pool = Some (kSuccess, l, other', pool')
    ∧ chain build pool' false (head_page_id_ l)
        (head_page_id_ l :: head_page_id_ other
           :: match rest2 with [] => [] | _ => rest2 ++ rest1 end)
        (rev ea ++ head_page_id_ l
           :: rev (es2 ++ eb) ++ head_page_id_ other
           :: match rest2 with [] => [] | _ => ids2 ++ ids1 end)
    ∧ pool_ok build pool'.
Proof. apply Merge_overflow_chain. Qed.

(** X14. [Merge] loses and duplicates no id in two cases: the source is a
    single page and everything fits into this list's head page, or the
    source has several pages and the entries do not fit.  This list then
    yields the ids of both lists. *)
Theorem Merge_conserves_ids l other pool es1 next1 rest1 ids1
    es2 next2 rest2 ids2 :
  pool_ok build pool →
  was_merged_ l = false → was_merged_ other = false →
  tail_page_is_defined_ other = true →
  valid_page_id build (head_page_id_ l) →
  list_page build pool (head_page_id_ l) es1 next1 →
  head_page_id_ l ∉ rest1 →
  chain build pool true next1 rest1 ids1 →
  valid_page_id build (head_page_id_ other) →
  list_page build pool (head_page_id_ other) es2 next2 →
  head_page_id_ other ∉ rest2 →
  chain build pool true next2 rest2 ids2 →
  tail_tracked build other (head_page_id_ other :: rest2) →
  (∀ page, page ∈ head_page_id_ l :: rest1 →
           page ∉ head_page_id_ other :: rest2) →
  (rest2 = []
   ∧ entry_offset (length es1) + kEntrySize * Z.of_nat (length es2)
     < page_size pool)
  ∨ (rest2 ≠ []
     ∧ page_size pool
       ≤ entry_offset (length es1) + kEntrySize * Z.of_nat (length es2)) →
  ∃ other' pool' pages' ids',
    Merge build l other pool = Some (kSuccess, l, other', pool')
    ∧ chain build pool' false (head_page_id_ l) pages' ids'
    ∧ ids' ≡ₚ (rev es1 ++ head_page_id_ l :: ids1)
              ++ (rev es2 ++ head_page_id_ other :: ids2)
    ∧ pool_ok build pool'.
Proof.
  intros Hok Hml Hmo Htd Hv1 Hp1 Hnin1 Hc1 Hv2 Hp2 Hnin2 Hc2 Htail Hdisj
    [[-> Hfits] | [Hrest Hover]].
  - destruct (Merge_fitting_chain build l other pool es1 next1 rest1 ids1
                es2 next2 [] ids2)
      as (other' & pool' & HMerge & Hchain & Hok'); try done.
    inversion Hc2; subst.
    exists other', pool'. eexists _, _.
    split; [exact HMerge|]. split; [exact Hchain|]. split; [|exact Hok'].
    rewrite (Permutation_app_comm (rev es1 ++ _)). by rewrite <-app_assoc.
  - pose proof Hok as [Hshift _].
    destruct (page_size_multiple pool ltac:(lia)) as (m & Hm2 & Hmul).
    pose proof Hp2 as (_ & _ & _ & _ & Hle2 & _).
    set (nb := Z.to_nat (m - 2 - Z.of_nat (length es2))).
    assert (entry_offset (length es2 + nb) = page_size pool
            ∧ (nb ≤ length es1)%nat) as [Hfull Hnb].
    { unfold entry_offset, kFirstEntryOffset, kEntrySize in *. lia. }
    assert (∃ ea eb, es1 = ea ++ eb ∧ length eb = nb)
      as (ea & eb & -> & Hlen).
    { exists (take (length es1 - nb) es1), (drop (length es1 - nb) es1).
      split; [by rewrite take_drop|]. rewrite length_drop. lia. }
    destruct (Merge_overflow_chain build l other pool ea eb
                next1 rest1 ids1 es2 next2 rest2 ids2)
      as (other' & pool' & HMerge & Hchain & Hok'); try done.
    { by rewrite length_app, Hlen. }
    destruct rest2 as [|q rest2]; [done|].
    exists other', pool'. eexists _, _.
    split; [exact HMerge|]. split; [exact Hchain|]. split; [|exact Hok'].
    rewrite !rev_app_distr. solve_Permutation.
Qed.
End Results.

(** * Failures of Merge *)

Section Failures.
Import Span SpanFacts FreePageListFormat FormatFacts.
Variable build : Build.

(** X15. [Merge] does not look whether this list is empty: with a
    non-empty source it fetches this list's head page, which for an empty
    list is the sentinel [kInvalidPageId].  When that fetch fails, [Merge]
    returns its status: nothing is merged, no buffer is changed, and with
    checks compiled in the source is marked as merged away. *)
Theorem Merge_into_empty_list l other pool :
  was_merged_ l = false → was_merged_ other = false →
  tail_page_is_defined_ other = true →
  is_empty build l = true → is_empty build other = false →
  failed (fetch_status pool (kInvalidPageId build)) = true →
  Merge build l other pool
  = Some (fetch_status pool (kInvalidPageId build), l, marked build other,
          note_fetch (kInvalidPageId build) kFetchPageData pool).
Proof.
  intros Hml Hmo Htd Hel Heo Hfail.
  apply Z.eqb_eq in Hel.
  unfold Merge, marked, is_empty in *. rewrite Hml, Hmo, Htd, Hel. op_run.
  assert (StorePage (kInvalidPageId build) kFetchPageData pool
          = Some (fetch_status pool (kInvalidPageId build), None,
                  note_fetch (kInvalidPageId build) kFetchPageData pool))
    as HStore.
  { unfold StorePage, fetch_status in *.
    by destruct (slots pool !! kInvalidPageId build) as [[d|st]|]. }
  destruct (check_is_on build);
    cbn [set_was_merged head_page_id_ tail_page_id_];
    rewrite Heo; op_run; rewrite HStore; simpl; by rewrite Hfail.
Qed.

(** Rewriting the successor field of a page changes no stored offset. *)
Lemma relinked_offset (pool : PagePool) t td td' next page d' :
  slots pool !! t = Some (Resident td) →
  SetNextPageId64 next td = Some td' →
  <[t := Resident td']> (slots pool) !! page = Some (Resident d') →
  ∃ d, slots pool !! page = Some (Resident d)
       ∧ NextEntryOffset (size_bits build) d
         = NextEntryOffset (size_bits build) d'.
Proof.
  intros Htd Hset Hd'. destruct (decide (t = page)) as [<- | Hne].
  - rewrite lookup_insert_eq in Hd'. injection Hd' as <-.
    exists td. split; [done|].
    symmetry. apply (NextEntryOffset_SetNextPageId64 _ _ _ _ Hset).
  - rewrite lookup_insert_ne in Hd' by done. by exists d'.
Qed.

(** X16. [Merge] returns a status other than success only when the fetch
    of one of the two head pages or of the source's tail page fails -- the
    status is the fetch's -- or, with the data-corruption status, when the
    stored offset of one of the two head pages is corrupt. *)
Theorem Merge_failure_causes l other pool status l' other' pool' :
  Merge build l other pool = Some (status, l', other', pool') →
  status ≠ kSuccess →
  status = fetch_status pool (head_page_id_ l)
  ∨ status = fetch_status pool (head_page_id_ other)
  ∨ status = fetch_status pool (tail_page_id_ other)
  ∨ (status = kDataCorrupted
     ∧ ∃ d od offset other_offset,
         slots pool !! head_page_id_ l = Some (Resident d)
         ∧ slots pool !! head_page_id_ other = Some (Resident od)
         ∧ NextEntryOffset (size_bits build) d = Some offset
         ∧ NextEntryOffset (size_bits build) od = Some other_offset
         ∧ IsCorruptEntryOffset offset (page_size pool)
           || IsCorruptEntryOffset other_offset (page_size pool) = true).
Proof.
  unfold Merge, Merge_head_pages, is_empty. intros H Hst.
  destruct (check_is_on build) eqn:Hcheck;
    cbn [set_was_merged head_page_id_ tail_page_id_] in H.
  all: op_inv H; op_inv_all; op_facts; try done; subst; use_raw_page.
  all: auto.
  all: simpl in *.
  all: do 3 right; split; [done|].
  all: repeat match goal with
         | H1 : ?x = Some (Resident _), H2 : ?x = Some (Resident _) |- _ =>
             rewrite H1 in H2; injection H2 as <-
         end.
  all: repeat match goal with
         | Ht : slots ?p !! ?t = Some (Resident ?td),
           Hs : SetNextPageId64 _ ?td = Some ?td',
           H : <[?t := Resident ?td']> (slots ?p) !! _
               = Some (Resident _) |- _ =>
             destruct (relinked_offset p _ _ _ _ _ _ Ht Hs H)
               as (? & ? & ?); clear H
         end.
  all: repeat match goal with
         | H : NextEntryOffset _ _ = NextEntryOffset _ ?b,
           H' : NextEntryOffset _ ?b = Some _ |- _ => rewrite H' in H
         | H1 : ?x = Some (Resident _), H2 : ?x = Some (Resident _) |- _ =>
             rewrite H1 in H2; injection H2 as <-
         end.
  all: eexists _, _, _, _; split_and!; eassumption.
Qed.
End Failures.

(** * Instances *)

Import MergeExamples.

Lemma pool_of_sound (pages : list (Z * Slot)) :
  forallb (λ entry, match entry.2 with
                    | Unavailable kSuccess => false
                    | _ => true
                    end) pages = true →
  sound_failures (pool_of pages).
Proof.
  intros Hall id Hid. simpl in Hid. apply elem_of_list_to_map_2 in Hid.
  rewrite forallb_forall in Hall. by apply list_elem_of_In, Hall in Hid.
Qed.

Lemma two_heads_pool_sound : sound_failures two_heads_pool.
Proof. by apply pool_of_sound. Qed.

Lemma linked_pool_ok : pool_ok debug64 linked_pool.
Proof. by apply pool_of_ok. Qed.

(** A page of a concrete pool is a list page: every field is computed. *)
Ltac list_page_compute image :=
  exists image; split_and!;
  [ reflexivity | reflexivity | reflexivity | by vm_compute | reflexivity
  | let i := fresh "i" in
    let v := fresh "v" in
    let Hi := fresh "Hi" in
    intros i v Hi;
    repeat (destruct i as [|i];
            [injection Hi as <-; vm_compute; reflexivity|]);
    done
  | repeat constructor; by vm_compute ].

Lemma two_heads_page_1 : list_page debug64 two_heads_pool 1 [] (2 ^ 64 - 1).
Proof.
  list_page_compute (page_image (2 ^ 64 - 1) 16 (replicate 48 x00)).
Qed.

Lemma two_heads_page_2 : list_page debug64 two_heads_pool 2 [7] (2 ^ 64 - 1).
Proof.
  list_page_compute
    (page_image (2 ^ 64 - 1) 24 (Span.encode 8 7 ++ replicate 40 x00)).
Qed.

Lemma linked_page_1 : list_page debug64 linked_pool 1 [5] (2 ^ 64 - 1).
Proof. list_page_compute (list_page_image (2 ^ 64 - 1) [5]). Qed.

Lemma linked_page_2 : list_page debug64 linked_pool 2 [6; 7; 8; 9; 10] 3.
Proof. list_page_compute (list_page_image 3 [6; 7; 8; 9; 10]). Qed.

Lemma linked_page_3 :
  list_page debug64 linked_pool 3 [11; 12; 13; 14; 15; 16] (2 ^ 64 - 1).
Proof.
  list_page_compute (list_page_image (2 ^ 64 - 1) [11; 12; 13; 14; 15; 16]).
Qed.

Lemma valid_page_id_small (id : Z) :
  0 ≤ id < 2 ^ 32 - 1 → valid_page_id debug64 id.
Proof. unfold valid_page_id. change (kInvalidPageId debug64) with (2 ^ 64 - 1). lia. Qed.

Lemma empty_chain : ∀ pool, chain debug64 pool true (2 ^ 64 - 1) [] [].
Proof. intros pool. apply (chain_end debug64 pool true). Qed.

Lemma two_heads_chain_2 : chain debug64 two_heads_pool false 2 [2] [7; 2].
Proof.
  apply (chain_page debug64 two_heads_pool false 2 [7] (2 ^ 64 - 1) [] []).
  - by apply valid_page_id_small.
  - apply two_heads_page_2.
  - done.
  - apply not_elem_of_nil.
  - apply empty_chain.
Qed.

Lemma linked_chain_3 :
  chain debug64 linked_pool true 3 [3] [16; 15; 14; 13; 12; 11; 3].
Proof.
  apply (chain_page debug64 linked_pool true 3 [11; 12; 13; 14; 15; 16]
           (2 ^ 64 - 1) [] []).
  - by apply valid_page_id_small.
  - apply linked_page_3.
  - reflexivity.
  - apply not_elem_of_nil.
  - apply empty_chain.
Qed.

Lemma Pop_touched_witness :
  ∃ fetched notified,
    touched fetched notified two_heads_pool
      (put_data 2 (page_image (2 ^ 64 - 1) 16
                     (Span.encode 8 7 ++ replicate 40 x00))
         (note_modify 2 (note_fetch 2 kFetchPageData two_heads_pool)))
    ∧ fetched `sublist_of` [(2, kFetchPageData)]
    ∧ notified `sublist_of` [2]
    ∧ (kSuccess ≠ kSuccess → notified = [] ∧ 7 = 2 ^ 64 - 1).
Proof.
  apply (Pop_touched debug64 (single debug64 2 true) two_heads_pool
           kSuccess 7 (single debug64 2 true)).
  vm_compute. reflexivity.
Defined.

Lemma Pop_undefined_iff_witness :
  Pop debug64 (single debug64 1 true) (pool_with_offset 72) = None
  ↔ is_empty debug64 (single debug64 1 true) = false
    ∧ ∃ d, slots (pool_with_offset 72) !! 1 = Some (Resident d)
           ∧ FreePageListFormat.NextEntryOffset 64 d = Some (64 + 8).
Proof.
  apply (Pop_undefined_iff debug64 (single debug64 1 true)
           (pool_with_offset 72));
    [apply pool_with_offset_ok | by apply pool_of_sound | reflexivity].
Defined.

Lemma Pop_well_formed_witness :
  ∃ l' pool' pages',
    Pop debug64 (single debug64 2 true) two_heads_pool
    = Some (kSuccess, 7, l', pool')
    ∧ chain debug64 pool' false (head_page_id_ l') pages' [2]
    ∧ pages' `sublist_of` [2]
    ∧ pool_ok debug64 pool'
    ∧ was_merged_ l' = false
    ∧ (tail_tracked debug64 (single debug64 2 true) [2]
       → tail_tracked debug64 l' pages').
Proof.
  apply (Pop_well_formed debug64 (single debug64 2 true) two_heads_pool
           [2] [7; 2]);
    [apply two_heads_pool_ok | reflexivity | apply two_heads_chain_2].
Defined.

Lemma drain_chain_witness :
  ∃ pool', drain debug64 3 (single debug64 2 true) two_heads_pool
           = Some (kSuccess, [7; 2], pool')
           ∧ pool_ok debug64 pool'.
Proof.
  apply (drain_chain debug64 [7; 2] (single debug64 2 true) two_heads_pool
           [2] 3);
    [apply two_heads_pool_ok | reflexivity | apply two_heads_chain_2
    | simpl; lia].
Defined.

Lemma Push_touched_witness :
  ∃ fetched notified,
    touched fetched notified blank_pool
      (put_data 2 (page_image (2 ^ 64 - 1) 16 (replicate 48 x00))
         (note_modify 2 (note_fetch 2 kIgnorePageData blank_pool)))
    ∧ fetched `sublist_of` [(2, kIgnorePageData);
                            (2 ^ 64 - 1, kFetchPageData)]
    ∧ (notified = [] ∨ notified = [2 ^ 64 - 1] ∨ notified = [2])
    ∧ (kSuccess ≠ kSuccess → notified = []).
Proof.
  apply (Push_touched debug64 (new_list debug64 true) 2 blank_pool
           kSuccess (single debug64 2 true)).
  vm_compute. reflexivity.
Defined.

Lemma Push_defined_witness :
  ∃ status l' pool',
    Push debug64 (single debug64 2 true) 9 two_heads_pool
    = Some (status, l', pool')
    ∧ pool_ok debug64 pool'.
Proof.
  apply (Push_defined debug64 (single debug64 2 true) 9 two_heads_pool);
    [apply two_heads_pool_ok | apply two_heads_pool_sound | by vm_compute
    | reflexivity].
Defined.

Lemma Push_chain_witness :
  ∃ l' pool' pages',
    Push debug64 (single debug64 2 true) 1 two_heads_pool
    = Some (kSuccess, l', pool')
    ∧ chain debug64 pool' false (head_page_id_ l') pages' [1; 7; 2]
    ∧ (pages' = [2] ∨ pages' = [1; 2])
    ∧ pool_ok debug64 pool'
    ∧ was_merged_ l' = false
    ∧ (tail_tracked debug64 (single debug64 2 true) [2]
       → tail_tracked debug64 l' pages').
Proof.
  apply (Push_chain debug64 (single debug64 2 true) 1 two_heads_pool
           [2] [7; 2]);
    [apply two_heads_pool_ok | reflexivity | apply two_heads_chain_2
    | by vm_compute | by compute_done | eexists; reflexivity].
Defined.

Lemma Push_then_Pop_witness :
  ∃ l1 pool1 l2 pool2,
    Push debug64 (single debug64 2 true) 1 two_heads_pool
    = Some (kSuccess, l1, pool1)
    ∧ Pop debug64 l1 pool1 = Some (kSuccess, 1, l2, pool2)
    ∧ head_page_id_ l2 = 2.
Proof.
  apply (Push_then_Pop debug64 (single debug64 2 true) 1 two_heads_pool);
    [apply two_heads_pool_ok | reflexivity | by vm_compute
    | eexists; reflexivity | by vm_compute | ].
  right. eexists _, 24. split_and!; reflexivity.
Defined.

Lemma Merge_touched_witness :
  ∃ fetched notified,
    touched fetched notified two_heads_pool
      (put_data 1 (list_page_image (2 ^ 64 - 1) [2; 7])
         (note_modify 1
            (note_fetch 2 kFetchPageData
               (note_fetch 1 kFetchPageData two_heads_pool))))
    ∧ fetched `sublist_of` [(2, kFetchPageData); (2, kFetchPageData);
                            (1, kFetchPageData)]
    ∧ notified `sublist_of` [2; 1; 2]
    ∧ (kSuccess ≠ kSuccess → notified `sublist_of` [2])
    ∧ (is_empty debug64 (single debug64 2 true) = true
       → kSuccess = kSuccess
         ∧ put_data 1 (list_page_image (2 ^ 64 - 1) [2; 7])
             (note_modify 1
                (note_fetch 2 kFetchPageData
                   (note_fetch 1 kFetchPageData two_heads_pool)))
           = two_heads_pool).
Proof.
  apply (Merge_touched debug64 (single debug64 1 false)
           (single debug64 2 true) two_heads_pool kSuccess
           (single debug64 1 false)
           (set_was_merged (single debug64 2 true) true)).
  vm_compute. reflexivity.
Defined.

Lemma Merge_defined_witness :
  ∃ status l' other' pool',
    Merge debug64 (single debug64 1 false) (single debug64 2 true)
      two_heads_pool
    = Some (status, l', other', pool')
    ∧ pool_ok debug64 pool'.
Proof.
  apply (Merge_defined debug64 (single debug64 1 false)
           (single debug64 2 true) two_heads_pool);
    [apply two_heads_pool_ok | apply two_heads_pool_sound
    | reflexivity | reflexivity | reflexivity].
Defined.

Lemma Merge_failure_keeps_entries_witness :
  ∃ d', slots (note_fetch 5 kFetchPageData
                 (note_fetch 1 kFetchPageData two_heads_pool)) !! 2
        = Some (Resident d')
        ∧ FreePageListFormat.NextEntryOffset 64 d'
          = FreePageListFormat.NextEntryOffset 64
              (page_image (2 ^ 64 - 1) 24
                 (Span.encode 8 7 ++ replicate 40 x00))
        ∧ (∀ a c, 16 ≤ a →
                  Span.subspan d' a c
                  = Span.subspan
                      (page_image (2 ^ 64 - 1) 24
                         (Span.encode 8 7 ++ replicate 40 x00)) a c)
        ∧ (2 ≠ 5 → d' = page_image (2 ^ 64 - 1) 24
                          (Span.encode 8 7 ++ replicate 40 x00)).
Proof.
  apply (Merge_failure_keeps_entries debug64 (single debug64 1 false)
           (single debug64 5 true) two_heads_pool kIoError
           (single debug64 1 false)
           (set_was_merged (single debug64 5 true) true));
    [vm_compute; reflexivity | discriminate | reflexivity].
Defined.

Lemma two_heads_apart :
  ∀ page : Z, page ∈ [1] → page ∉ [2].
Proof. intros page ->%list_elem_of_singleton. by compute_done. Qed.

Lemma Merge_fitting_list_witness :
  ∃ other' pool',
    Merge debug64 (single debug64 1 false) (single debug64 2 true)
      two_heads_pool
    = Some (kSuccess, single debug64 1 false, other', pool')
    ∧ chain debug64 pool' false 1 [1] [7; 2; 1]
    ∧ pool_ok debug64 pool'.
Proof.
  apply (Merge_fitting_list debug64 (single debug64 1 false)
           (single debug64 2 true) two_heads_pool
           [] (2 ^ 64 - 1) [] [] [7] (2 ^ 64 - 1) [] []);
    [ apply two_heads_pool_ok | reflexivity | reflexivity | reflexivity
    | by vm_compute | apply two_heads_page_1 | by compute_done
    | apply empty_chain
    | by vm_compute | apply two_heads_page_2 | by compute_done
    | apply empty_chain
    | reflexivity | apply two_heads_apart | by vm_compute ].
Defined.

Lemma linked_apart :
  ∀ page : Z, page ∈ [1] → page ∉ [2; 3].
Proof. intros page ->%list_elem_of_singleton. by compute_done. Qed.

Lemma Merge_overflow_list_witness :
  ∃ other' pool',
    Merge debug64 (single debug64 1 false) linked_other linked_pool
    = Some (kSuccess, single debug64 1 false, other', pool')
    ∧ chain debug64 pool' false 1 [1; 2; 3]
        [1; 5; 10; 9; 8; 7; 6; 2; 16; 15; 14; 13; 12; 11; 3]
    ∧ pool_ok debug64 pool'.
Proof.
  apply (Merge_overflow_list debug64 (single debug64 1 false) linked_other
           linked_pool [] [5] (2 ^ 64 - 1) [] []
           [6; 7; 8; 9; 10] 3 [3] [16; 15; 14; 13; 12; 11; 3]);
    [ apply linked_pool_ok | reflexivity | reflexivity | reflexivity
    | by vm_compute | apply linked_page_1 | by compute_done
    | apply empty_chain
    | by vm_compute | apply linked_page_2 | by compute_done
    | apply linked_chain_3
    | reflexivity | apply linked_apart | reflexivity ].
Defined.

Lemma Merge_conserves_ids_witness :
  ∃ other' pool' pages' ids',
    Merge debug64 (single debug64 1 false) linked_other linked_pool
    = Some (kSuccess, single debug64 1 false, other', pool')
    ∧ chain debug64 pool' false 1 pages' ids'
    ∧ ids' ≡ₚ [5; 1] ++ [10; 9; 8; 7; 6; 2; 16; 15; 14; 13; 12; 11; 3]
    ∧ pool_ok debug64 pool'.
Proof.
  apply (Merge_conserves_ids debug64 (single debug64 1 false) linked_other
           linked_pool [5] (2 ^ 64 - 1) [] []
           [6; 7; 8; 9; 10] 3 [3] [16; 15; 14; 13; 12; 11; 3]);
    [ apply linked_pool_ok | reflexivity | reflexivity | reflexivity
    | by vm_compute | apply linked_page_1 | by compute_done
    | apply empty_chain
    | by vm_compute | apply linked_page_2 | by compute_done
    | apply linked_chain_3
    | reflexivity | apply linked_apart | right; split; by vm_compute ].
Defined.

Lemma Merge_into_empty_list_witness :
  Merge debug64 (new_list debug64 false) (single debug64 2 true)
    two_heads_pool
  = Some (kIoError, new_list debug64 false,
          set_was_merged (single debug64 2 true) true,
          note_fetch (2 ^ 64 - 1) kFetchPageData two_heads_pool).
Proof.
  apply (Merge_into_empty_list debug64 (new_list debug64 false)
           (single debug64 2 true) two_heads_pool); reflexivity.
Defined.

Lemma Merge_failure_causes_witness :
  kIoError = fetch_status two_heads_pool 1
  ∨ kIoError = fetch_status two_heads_pool 5
  ∨ kIoError = fetch_status two_heads_pool 5
  ∨ (kIoError = kDataCorrupted
     ∧ ∃ d od offset other_offset,
         slots two_heads_pool !! 1 = Some (Resident d)
         ∧ slots two_heads_pool !! 5 = Some (Resident od)
         ∧ FreePageListFormat.NextEntryOffset 64 d = Some offset
         ∧ FreePageListFormat.NextEntryOffset 64 od = Some other_offset
         ∧ FreePageListFormat.IsCorruptEntryOffset offset 64
           || FreePageListFormat.IsCorruptEntryOffset other_offset 64
           = true).
Proof.
  apply (Merge_failure_causes debug64 (single debug64 1 false)
           (single debug64 5 true) two_heads_pool kIoError
           (single debug64 1 false)
           (set_was_merged (single debug64 5 true) true)
           (note_fetch 5 kFetchPageData
              (note_fetch 1 kFetchPageData two_heads_pool)));
    [vm_compute; reflexivity | discriminate].
Defined.
